(** * IntelliCommit: the commit-message route, embedded and verified

    A shallow embedding of the request handler of the generate route
    (the POST handler, the provider race, the health tracker, the
    response cache, the diff analyzer, the sanitizer and the local
    pattern-based generator), of the page that calls it and of the
    earlier route that answers from fixed templates, followed by the
    properties proved of them.

    Modelling conventions.
    - A JavaScript string is a [string]: a sequence of code units below
      256.  The case maps are those of JavaScript on that range.
    - Integers (time stamps, counts, the 32-bit hash) are [Z] or [nat];
      the 32-bit wrap-around of the bit operators is written out.
    - The fractional numbers (successRate, avgResponseTime, confidence)
      are exact rationals [Q]: the model computes with the decimal
      constants of the source exactly and leaves binary rounding aside.
    - Objects used as dictionaries and the [Map] are [gmap string _].
    - Everything the handler awaits or reads from outside (the clock, the
      environment variables, the network replies, the order in which the
      provider tasks settle) is an explicit input of the model.
    - The process is a sequence of events.  A request is answered at
      its arrival when it does not wait for a race (a malformed body, a
      cache hit); otherwise it is suspended at the [await] of the race
      and goes on when a task of its own settles, so that the
      suspended requests overlap: between the arrival of a request and
      its answer other requests arrive and are answered, and tasks of
      other requests settle.  A request that no other event overlaps is
      also available as one event.  The provider tasks a request has
      launched that have not settled when its race is decided are not
      cancelled: they stay in flight and settle in events of their own,
      in any order and between any later requests. *)

From Stdlib Require Import ZArith QArith Qminmax Lqa Ascii String Lia.
From stdpp Require Import base gmap strings list fin_maps pretty.

Set Default Proof Using "Type".
Local Open Scope Z_scope.

(** ** JavaScript string primitives *)

Module Js.

Definition code (c : ascii) : N := N_of_ascii c.

Definition in_range (lo hi : N) (c : ascii) : bool :=
  ((lo <=? code c) && (code c <=? hi))%N.

Definition is_upper_az (c : ascii) : bool := in_range 65 90 c.
Definition is_lower_az (c : ascii) : bool := in_range 97 122 c.
Definition is_digit (c : ascii) : bool := in_range 48 57 c.

(** [String.prototype.toLowerCase] on one code unit below 256: A-Z and
    the Latin-1 capitals 0xC0-0xDE (without the multiplication sign 0xD7)
    move up by 32. *)
Definition lower (c : ascii) : ascii :=
  if is_upper_az c
     || (in_range 192 222 c && negb (code c =? 215)%N)
  then ascii_of_N (code c + 32) else c.

(** [String.prototype.toUpperCase] on one code unit below 256, for the
    code units whose capital is again one code unit below 256: a-z and
    0xE0-0xFE without the division sign 0xF7.  (The capitals of 0xB5,
    0xDF and 0xFF leave the range; they are left unchanged here.) *)
Definition upper (c : ascii) : ascii :=
  if is_lower_az c
     || (in_range 224 254 c && negb (code c =? 247)%N)
  then ascii_of_N (code c - 32) else c.

(** The regular-expression [Canonicalize] of a case-insensitive match
    without the unicode flag is the capital of the code unit when that
    is one code unit; two code units below 256 have the same canonical
    form exactly when [upper] sends them to the same code unit. *)
Definition canon (c : ascii) : ascii := upper c.

(** The class [\s] below 256: TAB, LF, VT, FF, CR, space, NBSP. *)
Definition is_space (c : ascii) : bool :=
  in_range 9 13 c || (code c =? 32)%N || (code c =? 160)%N.

(** The class [\w]. *)
Definition is_word (c : ascii) : bool :=
  is_upper_az c || is_lower_az c || is_digit c || (code c =? 95)%N.

Definition newline : ascii := "010"%char.
Definition dquote : ascii := "034"%char.
Definition squote : ascii := "039"%char.

Fixpoint toLowerCase (s : string) : string :=
  match s with
  | EmptyString => EmptyString
  | String c s' => String (lower c) (toLowerCase s')
  end.

Definition len (s : string) : nat := String.length s.

(** [s.startsWith(p)] *)
Fixpoint startsWith (p s : string) : bool :=
  match p, s with
  | EmptyString, _ => true
  | String a p', String b s' => Ascii.eqb a b && startsWith p' s'
  | String _ _, EmptyString => false
  end.

(** [s.includes(p)] *)
Fixpoint includes (p s : string) : bool :=
  startsWith p s ||
  match s with
  | EmptyString => false
  | String _ s' => includes p s'
  end.

(** [s.split(sep)] for a one-character separator: never empty. *)
Fixpoint split (sep : ascii) (s : string) : list string :=
  match s with
  | EmptyString => [EmptyString]
  | String c s' =>
      if Ascii.eqb c sep then EmptyString :: split sep s'
      else match split sep s' with
           | [] => [String c EmptyString]
           | x :: xs => String c x :: xs
           end
  end.

(** [a.pop()] read-only: the last element. *)
Definition pop (l : list string) : option string := last l.

(** [s.substring(1)] and [s.slice(1)] *)
Definition tail1 (s : string) : string :=
  match s with
  | EmptyString => EmptyString
  | String _ s' => s'
  end.

(** [s.slice(0, n)] and [s.substring(0, n)] for [n >= 0] *)
Fixpoint take (n : nat) (s : string) : string :=
  match n, s with
  | O, _ => EmptyString
  | _, EmptyString => EmptyString
  | S n', String c s' => String c (take n' s')
  end.

Fixpoint drop (n : nat) (s : string) : string :=
  match n, s with
  | O, _ => s
  | _, EmptyString => EmptyString
  | S n', String _ s' => drop n' s'
  end.

Fixpoint trimStart (s : string) : string :=
  match s with
  | EmptyString => EmptyString
  | String c s' => if is_space c then trimStart s' else s
  end.

Fixpoint trimEnd (s : string) : string :=
  match s with
  | EmptyString => EmptyString
  | String c s' =>
      match trimEnd s' with
      | EmptyString => if is_space c then EmptyString else String c EmptyString
      | t => String c t
      end
  end.

(** [s.trim()] *)
Definition trim (s : string) : string := trimEnd (trimStart s).

(** A string is truthy when it is not empty. *)
Definition truthy (s : string) : bool :=
  match s with EmptyString => false | _ => true end.

(** [s.endsWith(p)] *)
Definition endsWith (p s : string) : bool :=
  (len p <=? len s)%nat && String.eqb (drop (len s - len p) s) p.

(** [s.replace(p, '')] for a string pattern [p]: the first occurrence
    of [p] is removed. *)
Fixpoint removeFirst (p s : string) : string :=
  if startsWith p s then drop (len p) s
  else match s with
       | EmptyString => EmptyString
       | String c s' => String c (removeFirst p s')
       end.

End Js.

(** ** Regular expressions, with the backtracking order of the engine *)

Module Re.

Inductive regex : Type :=
  | Eps
  | Chr (c : ascii)
  | Cls (p : ascii -> bool)
  | Seq (r1 r2 : regex)
  | Alt (r1 r2 : regex)
  | Star (r : regex).

(** Derived forms: [r?], [r+], [r{n,}], a literal word, an alternation. *)
Definition Opt (r : regex) : regex := Alt r Eps.
Definition Plus (r : regex) : regex := Seq r (Star r).

Fixpoint AtLeast (n : nat) (r : regex) : regex :=
  match n with
  | O => Star r
  | S n' => Seq r (AtLeast n' r)
  end.

Fixpoint lit (w : string) : regex :=
  match w with
  | EmptyString => Eps
  | String c w' => Seq (Chr c) (lit w')
  end.

Fixpoint alts (rs : list regex) : regex :=
  match rs with
  | [] => Cls (fun _ => false)
  | [r] => r
  | r :: rs' => Alt r (alts rs')
  end.

Section Matcher.
(** [ci] is the [i] flag. *)
Variable ci : bool.

Definition chr_ok (c x : ascii) : bool :=
  if ci then Ascii.eqb (Js.canon x) (Js.canon c) else Ascii.eqb x c.

Definition cls_ok (p : ascii -> bool) (x : ascii) : bool :=
  if ci then p x || p (Js.canon x) || p (Js.lower x) else p x.

(** The iterations of a star: [step] matches the starred expression
    once.  An iteration that consumes nothing is rejected, as the
    engine does, so a text of length [n] allows [n] iterations at
    most. *)
Definition starLoop {A : Type}
           (step : string -> (string -> option A) -> option A)
           (k : string -> option A) : nat -> string -> option A :=
  fix star (fuel : nat) (s0 : string) {struct fuel} : option A :=
    match fuel with
    | O => k s0
    | S fuel' =>
        match step s0 (fun s' => if (Js.len s' <? Js.len s0)%nat
                                 then star fuel' s' else None) with
        | Some a => Some a
        | None => k s0
        end
    end.

(** [run r s k]: match [r] at the start of [s], trying the
    alternatives in the order of the engine (left alternative first,
    quantifiers greedy), and hand the rest of the text to [k]; the
    first success of [k] is the result. *)
Fixpoint run {A : Type} (r : regex) (s : string)
         (k : string -> option A) : option A :=
  match r with
  | Eps => k s
  | Chr c =>
      match s with
      | String x s' => if chr_ok c x then k s' else None
      | EmptyString => None
      end
  | Cls p =>
      match s with
      | String x s' => if cls_ok p x then k s' else None
      | EmptyString => None
      end
  | Seq r1 r2 => run r1 s (fun s' => run r2 s' k)
  | Alt r1 r2 =>
      match run r1 s k with
      | Some a => Some a
      | None => run r2 s k
      end
  | Star r1 => starLoop (run r1) k (Js.len s) s
  end.

(** Length of the match of [r] at the start of [s], if any. *)
Definition matchAt (r : regex) (s : string) : option nat :=
  run r s (fun rest => Some (Js.len s - Js.len rest)%nat).

(** [r.test(s)] for a regex without the [g] flag: is there a match
    at some position of [s]? *)
Fixpoint test (r : regex) (s : string) : bool :=
  match matchAt r s with
  | Some _ => true
  | None =>
      match s with
      | EmptyString => false
      | String _ s' => test r s'
      end
  end.

(** [s.match(r)] for a regex without the [g] flag: the text of the
    leftmost match. *)
Fixpoint exec (r : regex) (s : string) : option string :=
  match matchAt r s with
  | Some n => Some (Js.take n s)
  | None =>
      match s with
      | EmptyString => None
      | String _ s' => exec r s'
      end
  end.

(** [(s.match(r) || []).length] for a regex with the [g] flag: the
    number of successive matches.  [skip] counts the characters of
    the current match that are still to be passed over. *)
Fixpoint countFrom (r : regex) (s : string) (skip : nat) : nat :=
  match s with
  | EmptyString =>
      match skip, matchAt r s with
      | O, Some _ => 1%nat
      | _, _ => 0%nat
      end
  | String _ s' =>
      match skip with
      | S n => countFrom r s' n
      | O =>
          match matchAt r s with
          | Some (S n) => S (countFrom r s' n)
          | Some O => S (countFrom r s' 0)
          | None => countFrom r s' 0
          end
      end
  end.

(** [s.replace(r, rep)] for a regex with the [g] flag and a
    replacement text without [$]: every successive match, found from
    the end of the previous one, is replaced.  After an empty match
    the engine moves one character on. *)
Fixpoint replaceFrom (r : regex) (rep : string) (s : string)
         (skip : nat) : string :=
  match s with
  | EmptyString =>
      match skip, matchAt r s with
      | O, Some _ => rep
      | _, _ => EmptyString
      end
  | String c s' =>
      match skip with
      | S n => replaceFrom r rep s' n
      | O =>
          match matchAt r s with
          | Some (S n) => rep +:+ replaceFrom r rep s' n
          | Some O => rep +:+ String c (replaceFrom r rep s' 0)
          | None => String c (replaceFrom r rep s' 0)
          end
      end
  end.

Definition replaceAll (r : regex) (rep s : string) : string :=
  replaceFrom r rep s 0.

End Matcher.

End Re.

(** ** What a regular expression matches *)

Module ReSpec.
Import Re.

(** [Matches ci r m]: the whole text [m] matches [r] (with the [i]
    flag when [ci]).  The iterations of a star are not empty. *)
Inductive Matches (ci : bool) : regex -> string -> Prop :=
  | MEps : Matches ci Eps EmptyString
  | MChr (c x : ascii) :
      chr_ok ci c x = true -> Matches ci (Chr c) (String x EmptyString)
  | MCls (p : ascii -> bool) (x : ascii) :
      cls_ok ci p x = true -> Matches ci (Cls p) (String x EmptyString)
  | MSeq (r1 r2 : regex) (m1 m2 : string) :
      Matches ci r1 m1 -> Matches ci r2 m2 -> Matches ci (Seq r1 r2) (m1 +:+ m2)
  | MAltL (r1 r2 : regex) (m : string) :
      Matches ci r1 m -> Matches ci (Alt r1 r2) m
  | MAltR (r1 r2 : regex) (m : string) :
      Matches ci r2 m -> Matches ci (Alt r1 r2) m
  | MStarNil (r : regex) : Matches ci (Star r) EmptyString
  | MStarCons (r : regex) (m1 m2 : string) :
      Matches ci r m1 -> m1 <> EmptyString -> Matches ci (Star r) m2 ->
      Matches ci (Star r) (m1 +:+ m2).

(** [m] is the beginning of [s]. *)
Definition beginsWith (m s : string) : Prop := exists rest, s = m +:+ rest.

(** The 256 code units. *)
Definition allChars : list ascii := map ascii_of_nat (seq 0 256).

(** Every character that [r] can consume satisfies [ok]. *)
Fixpoint consumesOnly (ci : bool) (ok : ascii -> bool) (r : regex) : bool :=
  match r with
  | Eps => true
  | Chr c => forallb (fun x => implb (chr_ok ci c x) (ok x)) allChars
  | Cls p => forallb (fun x => implb (cls_ok ci p x) (ok x)) allChars
  | Seq r1 r2 => consumesOnly ci ok r1 && consumesOnly ci ok r2
  | Alt r1 r2 => consumesOnly ci ok r1 && consumesOnly ci ok r2
  | Star r1 => consumesOnly ci ok r1
  end.

(** The length of the shortest match. *)
Fixpoint minLen (r : regex) : nat :=
  match r with
  | Eps => 0
  | Chr _ => 1
  | Cls _ => 1
  | Seq r1 r2 => minLen r1 + minLen r2
  | Alt r1 r2 => Nat.min (minLen r1) (minLen r2)
  | Star _ => 0
  end.

(** The length of the longest beginning of [s] made of [ok]
    characters. *)
Fixpoint okRun (ok : ascii -> bool) (s : string) : nat :=
  match s with
  | EmptyString => 0
  | String c s' => if ok c then S (okRun ok s') else 0
  end.

Fixpoint allOk (ok : ascii -> bool) (s : string) : bool :=
  match s with
  | EmptyString => true
  | String c s' => ok c && allOk ok s'
  end.

(** From whichever of its characters one starts in [rep], the [ok]
    characters stop before the end of [rep] and before [n] of them
    have been read; and [rep] starts with a character that is not
    [ok]. *)
Fixpoint sealedFrom (ok : ascii -> bool) (n : nat) (rep : string) : bool :=
  match rep with
  | EmptyString => true
  | String _ u =>
      (okRun ok rep <? Js.len rep)%nat && (okRun ok rep <? n)%nat
      && sealedFrom ok n u
  end.

Definition sealed (ok : ascii -> bool) (n : nat) (rep : string) : bool :=
  (okRun ok rep =? 0)%nat && negb (Js.len rep =? 0)%nat && sealedFrom ok n rep.

(** A character other than the two square brackets of the marker. *)
Definition notBracket (c : ascii) : bool :=
  negb (Ascii.eqb c "[") && negb (Ascii.eqb c "]").

End ReSpec.

(** ** Sanitizer: [redactSecrets] and [truncateDiff] *)

Module Sanitizer.
Import Re.

Definition seqs (rs : list regex) : regex := foldr Seq Eps rs.

Definition sp : regex := Cls Js.is_space.
Definition quote : regex :=
  Cls (fun c => Ascii.eqb c Js.dquote || Ascii.eqb c Js.squote).

(** The class [[A-Za-z0-9_\-\.]] (the same set as [[A-Za-z0-9\-_.]]). *)
Definition secretChar (c : ascii) : bool :=
  Js.is_upper_az c || Js.is_lower_az c || Js.is_digit c
  || Ascii.eqb c "_" || Ascii.eqb c "-" || Ascii.eqb c ".".

(** [/(api|secret|password|token|key)\s*[:=]\s*["']?[A-Za-z0-9_\-\.]{16,}["']?/gi] *)
Definition assignmentPattern : regex :=
  seqs [ alts [lit "api"; lit "secret"; lit "password"; lit "token"; lit "key"];
         Star sp;
         Cls (fun c => Ascii.eqb c ":" || Ascii.eqb c "=");
         Star sp;
         Opt quote;
         AtLeast 16 (Cls secretChar);
         Opt quote ].

(** [/(Bearer)\s+[A-Za-z0-9\-_.]{16,}/gi] *)
Definition bearerPattern : regex :=
  seqs [ lit "Bearer"; Plus sp; AtLeast 16 (Cls secretChar) ].

Definition secretPatterns : list regex := [assignmentPattern; bearerPattern].

Definition marker : string := "[REDACTED]".

(** The loop [for (const re of patterns) out = out.replace(re, marker)]. *)
Definition redactSecrets (input : string) : string :=
  foldl (fun out re => replaceAll true re marker out) input secretPatterns.

Definition truncateDiff (input : string) (maxChars : nat) : string :=
  if (Js.len input <=? maxChars)%nat then input else Js.take maxChars input.

End Sanitizer.

(** ** Cache key: [generateCacheKey] *)

Module CacheKey.

(** [ToInt32]: the signed 32-bit value of an integer. *)
Definition toInt32 (z : Z) : Z :=
  let m := z mod 2 ^ 32 in
  if m <? 2 ^ 31 then m else m - 2 ^ 32.

Definition charCode (c : ascii) : Z := Z.of_N (N_of_ascii c).

(** One turn of the loop body:
    [hash = ((hash << 5) - hash) + char; hash = hash & hash]. *)
Definition hashStep (hash : Z) (c : ascii) : Z :=
  let h1 := (toInt32 (Z.shiftl (toInt32 hash) 5) - hash) + charCode c in
  Z.land (toInt32 h1) (toInt32 h1).

Fixpoint hashLoop (hash : Z) (diff : string) : Z :=
  match diff with
  | EmptyString => hash
  | String c rest => hashLoop (hashStep hash c) rest
  end.

Definition generateCacheKey (diff : string) : string :=
  "commit_" +:+ pretty (Z.abs (hashLoop 0 diff)).

End CacheKey.

(** ** Diff analyzer: [analyzeDiff] *)

Module Analyzer.
Import Re.

Inductive ChangeType : Type :=
  | feature | bugFix | security | performance | refactor | styling
  | test | docs | config | database | api | chore.

Inductive Complexity : Type := low | medium | high.

Global Instance ChangeType_eq_dec : EqDecision ChangeType.
Proof. solve_decision. Defined.

Record DiffAnalysis : Type := mkAnalysis {
  fileName : string;
  fileExtension : string;
  addedLines : nat;
  removedLines : nat;
  totalChanges : nat;
  fileCount : nat;
  changeType : ChangeType;
  confidence : Q;
  complexity : Complexity;
  patterns : list ChangeType
}.

Definition words (ws : list string) : regex := alts (map lit ws).
Definition sp1 : regex := Plus (Cls Js.is_space).
Definition sp0 : regex := Star (Cls Js.is_space).
Definition w1 : regex := Plus (Cls Js.is_word).

(** The table [patterns]; every entry carries the [i] flag.  [chore]
    has no entry. *)
Definition pattern (t : ChangeType) : option regex :=
  match t with
  | bugFix => Some (words [".trim()"; ".toLowerCase()"; ".toUpperCase()";
                "null"; "undefined"; "error"; "exception"; "catch"; "try";
                "fix"; "bug"])
  | security => Some (words ["password"; "auth"; "token"; "secret"; "key";
                "encrypt"; "decrypt"; "hash"; "salt"; "jwt"; "oauth"])
  | performance => Some (words ["optimize"; "performance"; "speed"; "memory";
                "cache"; "lazy"; "memo"; "debounce"; "throttle"])
  | feature => Some (alts [
                Sanitizer.seqs [lit "const"; sp1; w1; sp0; lit "="];
                Sanitizer.seqs [lit "function"; sp1; w1];
                Sanitizer.seqs [lit "export"; sp1; lit "default"];
                lit "component"; lit "interface";
                Sanitizer.seqs [lit "class"; sp1; w1];
                Sanitizer.seqs [lit "new"; sp1; w1];
                lit "add"; lit "create"; lit "implement"])
  | refactor => Some (words ["refactor"; "clean"; "optimize"; "import";
                "require"; "restructure"; "reorganize"])
  | styling => Some (words ["style"; "format"; "lint"; "css"; "className";
                "class="; "color"; "font"; "margin"; "padding"])
  | test => Some (words ["test"; "spec"; ".test."; ".spec."; "describe";
                "it("; "expect"; "assert"])
  | docs => Some (words ["doc"; "readme"; "comment"; "//"; "/*"; "md"; ".md"])
  | config => Some (words ["config"; "package.json"; "dependencies";
                "webpack"; "babel"; "eslint"; "tsconfig"])
  | database => Some (words ["sql"; "query"; "database"; "db"; "migration";
                "schema"; "table"; "index"; "select"; "insert"; "update";
                "delete"])
  | api => Some (words ["api"; "endpoint"; "route"; "controller"; "service";
                "fetch"; "axios"; "http"])
  | chore => None
  end.

(** [Object.keys(patterns)]: the keys in the order of the literal. *)
Definition patternKeys : list ChangeType :=
  [bugFix; security; performance; feature; refactor; styling; test; docs;
   config; database; api].

Definition priorityOrder : list ChangeType :=
  [feature; bugFix; security; performance; refactor; styling; test; docs;
   config; database; api].

(** [patterns[type] && patterns[type].test(content)] *)
Definition patternTest (content : string) (t : ChangeType) : bool :=
  match pattern t with
  | Some re => Re.test true re content
  | None => false
  end.

(** The loop over [priorityOrder]: the state is the pair
    [(changeType, confidence)]; the [break] leaves the loop at the
    first type whose test succeeds.  [tst] is the test of one type. *)
Fixpoint classify (tst : ChangeType -> bool) (order : list ChangeType)
         (acc : ChangeType * Q) : ChangeType * Q :=
  match order with
  | [] => acc
  | t :: rest =>
      if tst t then (t, Qmin (9 # 10) (snd acc + (3 # 10)))
      else classify tst rest acc
  end.

Definition countPrefixed (p : string) (lines : list string) : nat :=
  length (List.filter (Js.startsWith p) lines).

(** [/diff --git a\/([^\s]+)/] (no flag) *)
Definition fileHeader : regex :=
  Seq (lit "diff --git a/") (Plus (Cls (fun c => negb (Js.is_space c)))).

Definition analyzeDiff (diff : string) : DiffAnalysis :=
  let lines := Js.split Js.newline diff in
  let added := countPrefixed "+" lines in
  let removed := countPrefixed "-" lines in
  let total := (added + removed)%nat in
  let name :=
    match Re.exec false fileHeader diff with
    | Some m => Js.drop 13 m
    | None => "unknown"
    end in
  let ext := default "" (Js.pop (Js.split "." name)) in
  let content := Js.toLowerCase diff in
  let '(ty, conf) :=
    classify (patternTest content) priorityOrder (chore, 1 # 2) in
  let cx0 := if (50 <? total)%nat then high
             else if (20 <? total)%nat then medium else low in
  let count := Re.countFrom false (lit "diff --git") diff 0 in
  let cx := if (1 <? count)%nat then high else cx0 in
  {| fileName := name;
     fileExtension := ext;
     addedLines := added;
     removedLines := removed;
     totalChanges := total;
     fileCount := count;
     changeType := ty;
     confidence := conf;
     complexity := cx;
     patterns := List.filter (patternTest content) patternKeys |}.

End Analyzer.

(** ** Local pattern-based generator: [generateLocalPatternBasedCommit] *)

Module LocalGenerator.
Import Analyzer.

Record Context : Type := mkContext {
  ctx_addedLines : list string;
  ctx_removedLines : list string;
  ctx_fileType : string;
  ctx_complexity : Complexity;
  ctx_patterns : list ChangeType;
  ctx_isNewFile : bool;
  ctx_isDeletion : bool;
  ctx_isModification : bool
}.

Definition prefixedLines (p : string) (lines : list string) : list string :=
  map Js.tail1 (List.filter (Js.startsWith p) lines).

Definition analyzeCommitContext (diff : string) (analysis : DiffAnalysis)
  : Context :=
  let lines := Js.split Js.newline diff in
  let added := prefixedLines "+" lines in
  let removed := prefixedLines "-" lines in
  {| ctx_addedLines := added;
     ctx_removedLines := removed;
     ctx_fileType := fileExtension analysis;
     ctx_complexity := complexity analysis;
     ctx_patterns := patterns analysis;
     ctx_isNewFile := (length removed =? 0)%nat && (5 <? length added)%nat;
     ctx_isDeletion := (length added =? 0)%nat && (0 <? length removed)%nat;
     ctx_isModification := (0 <? length added)%nat && (0 <? length removed)%nat |}.

(** [name.replace(/\.(js|jsx|ts|tsx)$/, '')]: the pattern is anchored
    at the end, so it removes one of the four suffixes. *)
Definition stripScriptExt (name : string) : string :=
  let cut n := Js.take (Js.len name - n) name in
  if Js.endsWith ".js" name then cut 3%nat
  else if Js.endsWith ".jsx" name then cut 4%nat
  else if Js.endsWith ".ts" name then cut 3%nat
  else if Js.endsWith ".tsx" name then cut 4%nat
  else name.

Definition extractComponentName (fileName : string) : string :=
  let base :=
    match Js.pop (Js.split "/" fileName) with
    | Some seg => stripScriptExt seg
    | None => EmptyString
    end in
  let name := if Js.truthy base then base else "component" in
  match name with
  | EmptyString => EmptyString
  | String c rest => String (Js.upper c) rest
  end.

Definition generateFeatureCommit (fileName : string) (context : Context)
  : string :=
  let isComponent :=
    Js.includes "component" fileName
    || existsb (fun line => Js.includes "const " line && Js.includes "=" line
                            && Js.includes "{" line)
               (ctx_addedLines context) in
  if isComponent then
    "feat: implement " +:+ extractComponentName fileName +:+ " component

- Add reusable component with props support
- Implement interactive functionality
- Enhance user experience with new features"
  else
    "feat: add new functionality to " +:+ fileName +:+ "

- Implement new feature as requested
- Add necessary components and logic
- Enhance user experience".

Definition generateBugFixCommit (fileName : string) (context : Context)
  : string :=
  let hasValidation :=
    existsb (fun line => Js.includes ".trim()" line
                         || Js.includes "validation" line
                         || Js.includes "check" line)
            (ctx_addedLines context) in
  if hasValidation then
    "fix: improve validation in " +:+ fileName +:+ "

- Add input sanitization to prevent edge cases
- Handle whitespace and formatting issues
- Improve data validation reliability"
  else
    "fix: resolve issue in " +:+ fileName +:+ "

- Address the problem identified in the code
- Improve error handling and validation
- Ensure proper functionality".

Definition generateRefactorCommit (fileName : string) (context : Context)
  : string :=
  "refactor: improve code structure in " +:+ fileName +:+ "

- Clean up code organization
- Optimize performance and readability
- Maintain existing functionality".

Definition generateStylingCommit (fileName : string) (context : Context)
  : string :=
  "style: update formatting and styling

- Apply consistent code formatting
- Fix linting issues
- Improve code readability".

Definition generateTestCommit (fileName : string) (context : Context)
  : string :=
  "test: add test coverage for " +:+ fileName +:+ "

- Add comprehensive test cases
- Ensure proper test coverage
- Validate functionality".

Definition generateDocsCommit (fileName : string) (context : Context)
  : string :=
  "docs: update documentation

- Improve code documentation
- Add helpful comments and examples
- Update README and guides".

Definition generateConfigCommit (fileName : string) (context : Context)
  : string :=
  "chore: update configuration and dependencies

- Update package dependencies
- Modify configuration settings
- Maintain project setup".

Definition generateDatabaseCommit (fileName : string) (context : Context)
  : string :=
  "db: update database schema or queries

- Modify database structure or queries
- Improve data handling and storage
- Optimize database performance".

Definition generateApiCommit (fileName : string) (context : Context)
  : string :=
  "api: update API endpoints or services

- Modify API functionality
- Improve request/response handling
- Enhance service integration".

Definition generateSecurityCommit (fileName : string) (context : Context)
  : string :=
  "security: enhance security in " +:+ fileName +:+ "

- Implement security improvements
- Address potential vulnerabilities
- Strengthen authentication/authorization".

Definition generatePerformanceCommit (fileName : string) (context : Context)
  : string :=
  "perf: optimize performance in " +:+ fileName +:+ "

- Improve code efficiency and speed
- Reduce memory usage and processing time
- Enhance overall application performance".

Definition generateChoreCommit (fileName : string) (context : Context)
  : string :=
  "chore: update " +:+ fileName +:+ "

- Make necessary changes to improve functionality
- Update code as required
- Maintain project standards".

(** The table [templates], indexed by [changeType]. *)
Definition generateLocalPatternBasedCommit (diff : string)
           (analysis : DiffAnalysis) : string :=
  let context := analyzeCommitContext diff analysis in
  let name := fileName analysis in
  match changeType analysis with
  | bugFix => generateBugFixCommit name context
  | security => generateSecurityCommit name context
  | performance => generatePerformanceCommit name context
  | feature => generateFeatureCommit name context
  | refactor => generateRefactorCommit name context
  | styling => generateStylingCommit name context
  | test => generateTestCommit name context
  | docs => generateDocsCommit name context
  | config => generateConfigCommit name context
  | database => generateDatabaseCommit name context
  | api => generateApiCommit name context
  | chore => generateChoreCommit name context
  end.

End LocalGenerator.

(** ** Health tracker: [providerHealth] and [updateProviderHealth] *)

Module Health.

Record ProviderHealth : Type := mkHealth {
  name : string;
  isHealthy : bool;
  successRate : Q;
  avgResponseTime : Q;
  lastSuccess : Z;
  consecutiveFailures : nat;
  priority : Z
}.

Definition CIRCUIT_BREAKER_THRESHOLD : nat := 3.
Definition MAX_RETRIES : nat := 2.

(** The literal [providerHealth]; [t0] is the reading of the clock when
    the module is loaded. *)
Definition initialHealth (t0 : Z) : gmap string ProviderHealth :=
  <["aiml" := mkHealth "AIML" true (95 # 100) 2500 t0 0 1]>
  (<["gemini" := mkHealth "Gemini" true (90 # 100) 3000 t0 0 2]>
  (<["huggingface" := mkHealth "HuggingFace" true (85 # 100) 5000 t0 0 3]>
  (<["freehf" := mkHealth "FreeHF" true (70 # 100) 4000 t0 0 4]>
  (<["openai" := mkHealth "OpenAI" true (95 # 100) 2000 t0 0 5]>
  (<["local" := mkHealth "LocalAI" true 1 100 t0 0 6]> ∅))))).

(** One call [updateProviderHealth(providerName, success, responseTime)];
    [at_] is the reading of the clock the success branch takes. *)
Record Report : Type := mkReport {
  rp_name : string;
  rp_success : bool;
  rp_responseTime : option Z;
  rp_at : Z
}.

Definition onSuccess (responseTime : option Z) (now : Z) (h : ProviderHealth)
  : ProviderHealth :=
  {| name := name h;
     isHealthy := true;
     successRate := Qmin 1 (successRate h + (1 # 100));
     avgResponseTime :=
       match responseTime with
       | Some rt => if (rt =? 0)%Z then avgResponseTime h
                    else (avgResponseTime h + inject_Z rt) / 2
       | None => avgResponseTime h
       end;
     lastSuccess := now;
     consecutiveFailures := 0;
     priority := priority h |}.

Definition onFailure (h : ProviderHealth) : ProviderHealth :=
  let failures := S (consecutiveFailures h) in
  {| name := name h;
     isHealthy :=
       if (CIRCUIT_BREAKER_THRESHOLD <=? failures)%nat then false
       else isHealthy h;
     successRate := Qmax 0 (successRate h - (5 # 100));
     avgResponseTime := avgResponseTime h;
     lastSuccess := lastSuccess h;
     consecutiveFailures := failures;
     priority := priority h |}.

Definition updateProviderHealth (r : Report)
           (health : gmap string ProviderHealth) : gmap string ProviderHealth :=
  match health !! rp_name r with
  | None => health
  | Some h =>
      <[rp_name r :=
          if rp_success r then onSuccess (rp_responseTime r) (rp_at r) h
          else onFailure h]> health
  end.

Definition applyReports (rs : list Report)
           (health : gmap string ProviderHealth) : gmap string ProviderHealth :=
  foldl (fun h r => updateProviderHealth r h) health rs.

(** The filter of [healthyProviders] (its result is only logged). *)
Definition eligible (cooldown : gmap string Z) (nowTs : Z) (key : string)
           (h : ProviderHealth) : bool :=
  isHealthy h
  && (consecutiveFailures h <? CIRCUIT_BREAKER_THRESHOLD)%nat
  && match cooldown !! key with
     | None => true
     | Some c => (c =? 0)%Z || (c <? nowTs)%Z
     end.

End Health.

(** ** Provider adapters and the retry executor *)

Module Providers.
Import Analyzer Health.

(** What one [fetch] of an adapter comes to.  [Threw]: the fetch
    rejects, the timer of [fetchWithTimeout] wins, or reading the body
    throws.  [NotOk]: a response whose [ok] is false.  [Ok b]: a
    response with a JSON body, of which the adapters read one text
    through a chain of optional accesses. *)
Inductive Body : Type :=
  | NoList            (* the top-level field (choices, candidates) is absent *)
  | NoText            (* the chain of accesses ends in undefined *)
  | Text (s : string)  (* the chain ends in this string *).

Inductive Reply : Type :=
  | Threw
  | NotOk (status : Z)
  | Ok (b : Body).

(** The result of one call of an adapter. *)
Inductive Attempt : Type :=
  | Returned (text : string)
  | Thrown.

(** [x?.trim() || ''] *)
Definition trimmedOrEmpty (b : Body) : string :=
  match b with
  | Text s => Js.trim s
  | _ => EmptyString
  end.

(** [tryOpenAI]: [data.choices[0]?.message?.content?.trim() || '']; the
    access [data.choices[0]] throws when [choices] is absent. *)
Definition tryOpenAI (reply : Reply) : Attempt :=
  match reply with
  | Threw => Thrown
  | NotOk _ => Thrown
  | Ok NoList => Thrown
  | Ok b => Returned (trimmedOrEmpty b)
  end.

(** [tryAIML]: throws when the content is missing or empty. *)
Definition tryAIML (reply : Reply) : Attempt :=
  match reply with
  | Threw => Thrown
  | NotOk _ => Thrown
  | Ok b =>
      let content := trimmedOrEmpty b in
      if Js.truthy content then Returned content else Thrown
  end.

(** [tryGemini]: [data.candidates?.[0]?.content?.parts?.[0]?.text?.trim() || ''] *)
Definition tryGemini (reply : Reply) : Attempt :=
  match reply with
  | Threw => Thrown
  | NotOk _ => Thrown
  | Ok b => Returned (trimmedOrEmpty b)
  end.

(** [tryHuggingFaceModels]: the loop over [HUGGING_FACE_MODEL_ORDER];
    [replies] are the replies of the models in that order. *)
Fixpoint tryHuggingFaceModels (replies : list Reply) : Attempt :=
  match replies with
  | [] => Thrown
  | reply :: rest =>
      match reply with
      | Ok b =>
          let text := trimmedOrEmpty b in
          if Js.truthy text then Returned text else tryHuggingFaceModels rest
      | _ => tryHuggingFaceModels rest
      end
  end.

(** [tryFreeHuggingFace]: the loop over [FREE_HF_MODELS]. *)
Fixpoint tryFreeHuggingFace (diff : string) (replies : list Reply) : Attempt :=
  match replies with
  | [] => Thrown
  | reply :: rest =>
      match reply with
      | Ok b =>
          let prompt := "Generate commit message for: " +:+ Js.take 500 diff in
          let generatedText := trimmedOrEmpty b in
          if Js.truthy generatedText then
            let cleaned :=
              default EmptyString
                (head (Js.split Js.newline
                         (Js.trim (Js.removeFirst prompt generatedText)))) in
            if (10 <? Js.len cleaned)%nat then Returned cleaned
            else tryFreeHuggingFace diff rest
          else tryFreeHuggingFace diff rest
      | _ => tryFreeHuggingFace diff rest
      end
  end.

(** What the outside world does to one launched task: the replies of
    the fetches of each attempt (attempt 1, attempt 2; three fetches at
    most per attempt, a fetch without a reply counts as one that
    throws), the time each attempt measures, and the reading
    of the clock when the task settles, which also orders the tasks of
    a race. *)
Record TaskRun : Type := mkRun {
  tr_replies : nat -> list Reply;
  tr_elapsed : nat -> Z;
  tr_settledAt : Z
}.

(** The adapter a provider name is launched with. *)
Definition adapter (provider : string) (diff : string) (replies : list Reply)
  : Attempt :=
  if String.eqb provider "aiml" then tryAIML (default Threw (head replies))
  else if String.eqb provider "gemini" then tryGemini (default Threw (head replies))
  else if String.eqb provider "huggingface" then tryHuggingFaceModels (take 3 replies)
  else if String.eqb provider "freehf" then tryFreeHuggingFace diff (take 3 replies)
  else if String.eqb provider "openai" then tryOpenAI (default Threw (head replies))
  else Thrown.

(** What a launched task comes to when it settles: the promise of
    [executeWithRetry] is fulfilled with [{ provider, result }] or
    rejected, and the reports it has made to the health tracker by
    then. *)
Record Task : Type := mkTask {
  task_provider : string;
  task_result : option string;
  task_reports : list Report;
  task_at : Z
}.

(** [executeWithRetry]: the loop [for (attempt = 1; attempt <=
    MAX_RETRIES; attempt++)]; [todo] turns are left, the next one has
    number [attempt]; [fn] is the adapter call of a given attempt.  The
    [throw] after the loop reports nothing. *)
Fixpoint retryLoop (providerName : string) (fn : nat -> Attempt)
         (run : TaskRun) (todo attempt : nat) : Task :=
  match todo with
  | O => mkTask providerName None [] (tr_settledAt run)
  | S todo' =>
      match fn attempt with
      | Returned result =>
          mkTask providerName (Some result)
            [mkReport providerName true (Some (tr_elapsed run attempt))
                      (tr_settledAt run)]
            (tr_settledAt run)
      | Thrown =>
          if (attempt =? MAX_RETRIES)%nat then
            mkTask providerName None
              [mkReport providerName false None (tr_settledAt run)]
              (tr_settledAt run)
          else retryLoop providerName fn run todo' (S attempt)
      end
  end.

Definition executeWithRetry (providerName : string) (diff : string)
           (run : TaskRun) : Task :=
  retryLoop providerName
    (fun attempt => adapter providerName diff (tr_replies run attempt))
    run MAX_RETRIES 1.

End Providers.

(** ** The route: cache, race coordinator and [POST] *)

Module Route.
Import Analyzer Health Providers.

(** [process.env]: whether each credential is set (truthy). *)
Record Env : Type := mkEnv {
  AIML_API_KEY : bool;
  GEMINI_API_KEY : bool;
  HUGGING_FACE_TOKEN : bool;
  OPENAI_API_KEY : bool
}.

Record CacheEntry : Type := mkEntry {
  response : string;
  timestamp : Z;
  analysis : DiffAnalysis
}.

Definition CACHE_TTL : Z := 5 * 60 * 1000.

(** [!providerCooldownUntil[key] || providerCooldownUntil[key] < nowTs] *)
Definition notCooled (cooldown : gmap string Z) (key : string) (nowTs : Z)
  : bool :=
  match cooldown !! key with
  | None => true
  | Some c => (c =? 0)%Z || (c <? nowTs)%Z
  end.

(** One launch condition [process.env.K && providerHealth.p.isHealthy
    && cooled]: [None] when reading [isHealthy] of a missing entry
    throws. *)
Definition condition (key : bool) (h : option ProviderHealth) (cooled : bool)
  : option bool :=
  if key then
    match h with
    | Some h => Some (isHealthy h && cooled)
    | None => None
    end
  else Some false.

Definition launchConditions (env : Env) (health : gmap string ProviderHealth)
           (cooldown : gmap string Z) (nowTs : Z)
  : list (string * option bool) :=
  [ ("aiml", condition (AIML_API_KEY env) (health !! "aiml") true);
    ("gemini", condition (GEMINI_API_KEY env) (health !! "gemini") true);
    ("huggingface", condition (HUGGING_FACE_TOKEN env) (health !! "huggingface") true);
    ("freehf", condition true (health !! "freehf") true);
    ("openai", condition (OPENAI_API_KEY env) (health !! "openai")
                    (notCooled cooldown "openai" nowTs)) ].

(** The five [if (...) promises.push(...)] in order: the providers
    launched, and whether a condition threw (the tasks pushed before
    it are launched all the same). *)
Fixpoint launchAll (conds : list (string * option bool))
  : list string * bool :=
  match conds with
  | [] => ([], false)
  | (p, g) :: rest =>
      match g with
      | None => ([], true)
      | Some false => launchAll rest
      | Some true => let '(l, threw) := launchAll rest in (p :: l, threw)
      end
  end.

Fixpoint insertByTime (t : Task) (ts : list Task) : list Task :=
  match ts with
  | [] => [t]
  | u :: rest =>
      if (task_at t <? task_at u)%Z then t :: ts
      else u :: insertByTime t rest
  end.

(** The launched tasks in the order in which they settle.  The clock
    does not order two tasks that settle at the same reading; of those
    the one launched later is taken first. *)
Definition bySettlement (ts : list Task) : list Task :=
  foldr insertByTime [] ts.

(** [Promise.any]: run through the tasks as they settle; rejections are
    swallowed, the first fulfilled task wins with its [{ provider,
    result }], the tasks after it are still in flight. *)
Fixpoint raceLoop (ts : list Task)
  : list Report * option (string * string) * list Task :=
  match ts with
  | [] => ([], None, [])
  | t :: rest =>
      match task_result t with
      | Some result => (task_reports t, Some (task_provider t, result), rest)
      | None =>
          let '(rs, w, late) := raceLoop rest in (task_reports t ++ rs, w, late)
      end
  end.

Record Outcome : Type := mkOutcome {
  out_result : string;
  out_provider : string;
  out_reports : list Report;
  out_late : list Task
}.

(** [runs p] is what happens to the task of provider [p]; [nowWin] is
    the clock read by the coordinator's own report for the winner. *)
Definition executeIntelligentAIStrategy
           (env : Env) (health : gmap string ProviderHealth)
           (cooldown : gmap string Z) (nowTs : Z)
           (runs : string -> TaskRun) (nowWin : Z)
           (diff : string) (analysis : DiffAnalysis)
  : Outcome + list Task :=
  let '(launched, threw) := launchAll (launchConditions env health cooldown nowTs) in
  let tasks := map (fun p => executeWithRetry p diff (runs p)) launched in
  if threw then inr tasks
  else
    let '(reports, winner, late) := raceLoop (bySettlement tasks) in
    match winner with
    | Some (provider, result) =>
        inl {| out_result := result;
               out_provider := provider;
               out_reports := reports ++ [mkReport provider true None nowWin];
               out_late := late |}
    | None =>
        inl {| out_result :=
                 LocalGenerator.generateLocalPatternBasedCommit diff analysis;
               out_provider := "local";
               out_reports := reports;
               out_late := late |}
    end.

(** [cleanupCache]: entries with [now - timestamp > CACHE_TTL] are
    deleted. *)
Definition cleanupCache (now : Z) (cache : gmap string CacheEntry)
  : gmap string CacheEntry :=
  filter (fun kv => ¬ (CACHE_TTL < now - timestamp kv.2)%Z) cache.

(** A value of the [diff] field that is not a string, by what the
    handler does with it.  [Falsy]: [null], [false] or [0], which
    [!diff] rejects.  [Countless]: a truthy value on which the loop of
    [generateCacheKey] runs no turn, because its [length] is absent
    or, taken as a number, not above 0 (a number other than 0, [true],
    an empty array, an object without such a [length]); its key is
    that of the hash 0.  [Counted]: a truthy value whose [length] is,
    taken as a number, above 0 (an array that is not empty, an object
    with such a field), on which the first turn of the loop throws,
    [charCodeAt] being no function. *)
Inductive OtherValue : Type :=
  | Falsy
  | Countless
  | Counted.

(** The body of a request as [req.json()] delivers it.  [BadJson]: no
    JSON at all, [req.json()] rejects.  [Fields d]: a value from which
    [diff] can be read and is absent ([None]: an object without the
    field, or a number, a string, a boolean or an array) or a string.
    [NullJson]: the JSON text [null], at which the destructuring
    throws.  [OtherDiff v]: an object whose [diff] is no string. *)
Inductive ReqBody : Type :=
  | BadJson
  | Fields (diff : option string)
  | NullJson
  | OtherDiff (v : OtherValue).

(** What one request reads from outside: the environment, the clock at
    each [Date.now()], and the runs of the provider tasks. *)
Record Inputs : Type := mkInputs {
  in_env : Env;
  in_nowCheck : Z;
  in_nowTs : Z;
  in_runs : string -> TaskRun;
  in_nowWin : Z;
  in_nowWrite : Z;
  in_nowClean : Z
}.

Inductive Response : Type :=
  | ErrorResponse (status : Z) (error : string)
  | CachedResponse (commitMessage : string) (cachedAnalysis : DiffAnalysis)
  | FreshResponse (commitMessage : string) (freshAnalysis : DiffAnalysis)
                  (provider : string).

(** A request that is suspended at the [await] of its race: the diff
    it received, what it reads from outside, and the tasks it has
    launched that have not settled, in the order in which they
    settle. *)
Record Pending : Type := mkPending {
  pd_diff : string;
  pd_inp : Inputs;
  pd_tasks : list Task
}.

(** The module-level variables, the provider tasks that were launched
    by a request that has been answered and have not settled yet, and
    the requests that are suspended at their race. *)
Record State : Type := mkState {
  providerHealth : gmap string ProviderHealth;
  providerCooldownUntil : gmap string Z;
  responseCache : gmap string CacheEntry;
  inflight : list Task;
  pending : list Pending
}.

Definition initialState (t0 : Z) : State :=
  mkState (initialHealth t0) ∅ ∅ [] [].

(** [cached && (Date.now() - cached.timestamp) < CACHE_TTL] *)
Definition freshEntry (st : State) (cacheKey : string) (now : Z)
  : option CacheEntry :=
  match responseCache st !! cacheKey with
  | Some cached =>
      if (now - timestamp cached <? CACHE_TTL)%Z then Some cached else None
  | None => None
  end.

(** The text handed to the providers. *)
Definition safeDiffOf (diff : string) : string :=
  Sanitizer.truncateDiff (Sanitizer.redactSecrets diff) (12 * 1000).

(** The race a request runs after a cache miss. *)
Definition raceOf (st : State) (diff : string) (inp : Inputs)
  : Outcome + list Task :=
  let safeDiff := safeDiffOf diff in
  executeIntelligentAIStrategy (in_env inp) (providerHealth st)
    (providerCooldownUntil st) (in_nowTs inp) (in_runs inp) (in_nowWin inp)
    safeDiff (analyzeDiff safeDiff).

(** [POST], for a request that no other event overlaps.  A [diff]
    that is no string and is not rejected by [!diff] makes
    [generateCacheKey] throw at once ([Counted]) or gives the key of
    the hash 0, which is that of the empty text ([Countless]); with
    that key the cache is looked up, and after a miss [redactSecrets]
    throws, [replace] being no function.  What is thrown is caught at
    the end of the handler. *)
Definition POST (st : State) (body : ReqBody) (inp : Inputs)
  : Response * State :=
  match body with
  | BadJson => (ErrorResponse 500 "Failed to generate commit message", st)
  | NullJson => (ErrorResponse 500 "Failed to generate commit message", st)
  | OtherDiff Falsy => (ErrorResponse 400 "Git diff is required", st)
  | OtherDiff Counted =>
      (ErrorResponse 500 "Failed to generate commit message", st)
  | OtherDiff Countless =>
      match freshEntry st (CacheKey.generateCacheKey EmptyString)
                       (in_nowCheck inp) with
      | Some cached =>
          (CachedResponse (response cached) (analysis cached), st)
      | None => (ErrorResponse 500 "Failed to generate commit message", st)
      end
  | Fields None => (ErrorResponse 400 "Git diff is required", st)
  | Fields (Some EmptyString) => (ErrorResponse 400 "Git diff is required", st)
  | Fields (Some diff) =>
      let cacheKey := CacheKey.generateCacheKey diff in
      match freshEntry st cacheKey (in_nowCheck inp) with
      | Some cached =>
          (CachedResponse (response cached) (analysis cached), st)
      | None =>
          match raceOf st diff inp with
          | inr late =>
              (ErrorResponse 500 "Failed to generate commit message",
               mkState (providerHealth st) (providerCooldownUntil st)
                       (responseCache st) (inflight st ++ late) (pending st))
          | inl o =>
              let entry :=
                mkEntry (out_result o) (in_nowWrite inp)
                        (analyzeDiff (safeDiffOf diff)) in
              (FreshResponse (out_result o) (analyzeDiff (safeDiffOf diff))
                             (out_provider o),
               mkState (applyReports (out_reports o) (providerHealth st))
                       (providerCooldownUntil st)
                       (cleanupCache (in_nowClean inp)
                          (<[cacheKey := entry]> (responseCache st)))
                       (inflight st ++ out_late o) (pending st))
          end
      end
  end.

(** The tasks the five [if (...) promises.push(...)] of the coordinator
    launch for a request in a state, and whether a condition threw. *)
Definition launchedTasks (st : State) (safeDiff : string) (inp : Inputs)
  : list Task * bool :=
  let '(launched, threw) :=
    launchAll (launchConditions (in_env inp) (providerHealth st)
                 (providerCooldownUntil st) (in_nowTs inp)) in
  (map (fun p => executeWithRetry p safeDiff (in_runs inp p)) launched, threw).

(** The request as it is suspended at [await Promise.any(wrapped)]:
    [None] when it does not get there or does not wait there (it is
    answered before, a launch condition throws, or nothing was
    launched, in which case [Promise.any] rejects at once). *)
Definition awaited (st : State) (body : ReqBody) (inp : Inputs)
  : option Pending :=
  match body with
  | Fields (Some (String c d)) =>
      let diff := String c d in
      match freshEntry st (CacheKey.generateCacheKey diff) (in_nowCheck inp) with
      | Some _ => None
      | None =>
          let '(tasks, threw) := launchedTasks st (safeDiffOf diff) inp in
          if threw then None
          else match bySettlement tasks with
               | [] => None
               | t :: ts => Some (mkPending diff inp (t :: ts))
               end
      end
  | _ => None
  end.

(** The handler of a suspended request from the end of its race on:
    [responseCache.set], [cleanupCache] and the answer. *)
Definition resume (st : State) (pd : Pending)
           (health : gmap string ProviderHealth) (message : string)
           (late : list Task) (others : list Pending) : State :=
  let diff := pd_diff pd in
  let entry :=
    mkEntry message (in_nowWrite (pd_inp pd)) (analyzeDiff (safeDiffOf diff)) in
  mkState health (providerCooldownUntil st)
          (cleanupCache (in_nowClean (pd_inp pd))
             (<[CacheKey.generateCacheKey diff := entry]> (responseCache st)))
          (inflight st ++ late) others.

(** The next task of the [i]-th suspended request settles and makes
    its reports.  When it is fulfilled the race is decided: the
    coordinator reports the winner once more and the handler goes on,
    the tasks left stay in flight.  When it is rejected and was the
    last one, [Promise.any] rejects and the handler goes on with the
    text of the local generator.  Otherwise the request stays
    suspended. *)
Definition advance (st : State) (i : nat) : State :=
  match pending st !! i with
  | None => st
  | Some pd =>
      match pd_tasks pd with
      | [] => st
      | t :: rest =>
          let health := applyReports (task_reports t) (providerHealth st) in
          match task_result t, rest with
          | Some result, _ =>
              resume st pd
                (applyReports
                   [mkReport (task_provider t) true None (in_nowWin (pd_inp pd))]
                   health)
                result rest (delete i (pending st))
          | None, [] =>
              let safeDiff := safeDiffOf (pd_diff pd) in
              resume st pd health
                (LocalGenerator.generateLocalPatternBasedCommit
                   safeDiff (analyzeDiff safeDiff))
                [] (delete i (pending st))
          | None, _ :: _ =>
              mkState health (providerCooldownUntil st) (responseCache st)
                      (inflight st)
                      (<[i := mkPending (pd_diff pd) (pd_inp pd) rest]>
                         (pending st))
          end
      end
  end.

(** The events of the process.  [Request]: a request is handled from
    its arrival to its answer with no other event in between.
    [Settle]: the [i]-th task in flight settles and makes its
    reports.  [Arrive]: a request arrives; it is answered at once, or
    suspended at its race.  [Advance]: the next task of the [i]-th
    suspended request settles. *)
Inductive Event : Type :=
  | Request (body : ReqBody) (inp : Inputs)
  | Settle (i : nat)
  | Arrive (body : ReqBody) (inp : Inputs)
  | Advance (i : nat).

Definition step (st : State) (e : Event) : State :=
  match e with
  | Request body inp => snd (POST st body inp)
  | Settle i =>
      match inflight st !! i with
      | None => st
      | Some t =>
          mkState (applyReports (task_reports t) (providerHealth st))
                  (providerCooldownUntil st) (responseCache st)
                  (delete i (inflight st)) (pending st)
      end
  | Arrive body inp =>
      match awaited st body inp with
      | Some pd =>
          mkState (providerHealth st) (providerCooldownUntil st)
                  (responseCache st) (inflight st) (pending st ++ [pd])
      | None => snd (POST st body inp)
      end
  | Advance i => advance st i
  end.

Definition run (st : State) (es : list Event) : State := foldl step st es.

(** The providers a request launches in a state. *)
Definition launchedBy (st : State) (inp : Inputs) : list string :=
  fst (launchAll (launchConditions (in_env inp) (providerHealth st)
                    (providerCooldownUntil st) (in_nowTs inp))).

End Route.

(** ** Notions used to state the properties *)

Module Trace.
Import Analyzer Health Providers Route.

(** The reports made to the health tracker while a request is handled
    without being suspended. *)
Definition requestReports (st : State) (body : ReqBody) (inp : Inputs)
  : list Report :=
  match body with
  | Fields (Some (String c d)) =>
      let diff := String c d in
      match freshEntry st (CacheKey.generateCacheKey diff) (in_nowCheck inp) with
      | Some _ => []
      | None =>
          match raceOf st diff inp with
          | inl o => out_reports o
          | inr _ => []
          end
      end
  | _ => []
  end.

(** The reports made to the health tracker while an event is handled. *)
Definition stepReports (st : State) (e : Event) : list Report :=
  match e with
  | Request body inp => requestReports st body inp
  | Settle i =>
      match inflight st !! i with
      | Some t => task_reports t
      | None => []
      end
  | Arrive body inp =>
      match awaited st body inp with
      | Some _ => []
      | None => requestReports st body inp
      end
  | Advance i =>
      match pending st !! i with
      | Some pd =>
          match pd_tasks pd with
          | t :: _ =>
              task_reports t
              ++ match task_result t with
                 | Some _ => [mkReport (task_provider t) true None
                                       (in_nowWin (pd_inp pd))]
                 | None => []
                 end
          | [] => []
          end
      | None => []
      end
  end.

(** The message sent, while an event is handled, to a request that came
    with [diff]: by the request handled as one event, by the request
    that is answered at its arrival, or by the suspended request that
    goes on. *)
Definition answered (st : State) (e : Event) (diff : string) : option string :=
  match e with
  | Request (Fields (Some d)) inp =>
      if String.eqb d diff
      then match POST st (Fields (Some d)) inp with
           | (CachedResponse m _, _) => Some m
           | (FreshResponse m _ _, _) => Some m
           | _ => None
           end
      else None
  | Arrive (Fields (Some d)) inp =>
      if String.eqb d diff
      then match awaited st (Fields (Some d)) inp with
           | Some _ => None
           | None =>
               match POST st (Fields (Some d)) inp with
               | (CachedResponse m _, _) => Some m
               | (FreshResponse m _ _, _) => Some m
               | _ => None
               end
           end
      else None
  | Advance i =>
      match pending st !! i with
      | Some pd =>
          if String.eqb (pd_diff pd) diff
          then match pd_tasks pd with
               | t :: rest =>
                   match task_result t, rest with
                   | Some result, _ => Some result
                   | None, [] =>
                       Some (LocalGenerator.generateLocalPatternBasedCommit
                               (safeDiffOf diff) (analyzeDiff (safeDiffOf diff)))
                   | None, _ :: _ => None
                   end
               | [] => None
               end
          else None
      | None => None
      end
  | _ => None
  end.

(** The providers that take part in a race, read off what the
    coordinator makes of it: those that have reported when the race is
    decided, and those whose tasks are still in flight then. *)
Definition racedProviders (race : Outcome + list Task) : list string :=
  match race with
  | inl o => map rp_name (out_reports o) ++ map task_provider (out_late o)
  | inr late => map task_provider late
  end.

(** The health flag of a provider in a state. *)
Definition healthyIn (st : State) (p : string) : option bool :=
  isHealthy <$> providerHealth st !! p.

Definition successFor (p : string) (r : Report) : bool :=
  String.eqb (rp_name r) p && rp_success r.

(** No success is reported for [p] while the events [es] are handled
    from [st]. *)
Fixpoint quiet (p : string) (st : State) (es : list Event) : Prop :=
  match es with
  | [] => True
  | e :: es' =>
      forallb (fun r => negb (successFor p r)) (stepReports st e) = true
      /\ quiet p (step st e) es'
  end.

(** Every report that a task in flight is going to make is about a
    provider that satisfies [P], and so is every task a suspended
    request waits for, with the reports it is going to make. *)
Definition tasksNamed (P : string -> Prop) (st : State) : Prop :=
  Forall (fun t => Forall (fun r => P (rp_name r)) (task_reports t))
         (inflight st)
  /\ Forall (fun pd =>
               Forall (fun t => P (task_provider t)
                                /\ Forall (fun r => P (rp_name r))
                                          (task_reports t))
                      (pd_tasks pd))
            (pending st).

(** No task in flight is going to report about [p], and no suspended
    request waits for a task of [p]. *)
Definition nothingPending (p : string) (st : State) : Prop :=
  tasksNamed (fun q => q <> p) st.




Definition messageOf (r : Response) : option string :=
  match r with
  | ErrorResponse _ _ => None
  | CachedResponse m _ => Some m
  | FreshResponse m _ _ => Some m
  end.


(** The five provider entries the launch conditions read. *)
Definition racers : list string :=
  ["aiml"; "gemini"; "huggingface"; "freehf"; "openai"].

Definition healthComplete (health : gmap string ProviderHealth) : Prop :=
  Forall (fun p => is_Some (health !! p)) racers.

End Trace.

(** ** Concrete runs of the route *)

Module Examples.
Import Analyzer Health Providers Route.

(** Runs of one provider task. *)
Definition unavailable (settled : Z) : TaskRun :=
  mkRun (fun _ => [NotOk 503; NotOk 503; NotOk 503]) (fun _ => 0) settled.

Definition rateLimited (settled : Z) : TaskRun :=
  mkRun (fun _ => [NotOk 429]) (fun _ => 0) settled.

Definition answers (text : string) (elapsed settled : Z) : TaskRun :=
  mkRun (fun _ => [Ok (Text text)]) (fun _ => elapsed) settled.

(** A 200 reply whose body carries no text. *)
Definition answersNothing (elapsed settled : Z) : TaskRun :=
  mkRun (fun _ => [Ok NoText]) (fun _ => elapsed) settled.

(** A request that arrives at [arrival] and is answered at [answered]. *)
Definition inputsAt (env : Env) (runs : string -> TaskRun)
           (arrival answered : Z) : Inputs :=
  mkInputs env arrival arrival runs answered answered answered.

Definition noKeys : Env := mkEnv false false false false.
Definition geminiOnly : Env := mkEnv false true false false.
Definition tokenOnly : Env := mkEnv false false true false.
Definition openaiOnly : Env := mkEnv false false false true.

(** *** Gemini answers 200 without text *)

Definition typoDiff : string :=
  "diff --git a/README.md b/README.md
--- a/README.md
+++ b/README.md
@@ -1 +1 @@
-Teh project
+The project".

Definition emptyRuns (p : string) : TaskRun :=
  if String.eqb p "gemini" then answersNothing 700 1700 else unavailable 4000.

Definition emptyInputs : Inputs := inputsAt geminiOnly emptyRuns 1000 1700.

(** *** OpenAI answers 429 *)

Definition limitedRuns (p : string) : TaskRun :=
  if String.eqb p "openai" then rateLimited 3100 else unavailable 3000.

Definition limitedInputs : Inputs := inputsAt openaiOnly limitedRuns 1000 3100.
Definition nextInputs : Inputs := inputsAt openaiOnly limitedRuns 3200 5300.

(** *** A slow Hugging Face task outlives three failing ones *)

(** The first two models run into the 20 s timer, the third answers. *)
Definition slowRuns (p : string) : TaskRun :=
  if String.eqb p "huggingface"
  then mkRun (fun _ => [Threw; Threw; Ok (Text "fix: handle empty input in parser")])
             (fun _ => 45000) 46000
  else answers "feat: add input validation helper" 900 1900.

Definition failingRuns (arrival : Z) (p : string) : TaskRun :=
  if String.eqb p "huggingface" then unavailable (arrival + 2500)
  else answers "chore: update project files" 3000 (arrival + 3000).

Definition slowRequest : Event :=
  Request (Fields (Some "+const a = 1")) (inputsAt tokenOnly slowRuns 1000 1900).

Definition failingRequest (diff : string) (arrival : Z) : Event :=
  Request (Fields (Some diff))
          (inputsAt tokenOnly (failingRuns arrival) arrival (arrival + 3000)).

Definition trippingTrace : list Event :=
  [ slowRequest;
    failingRequest "+const b = 2" 5000;
    failingRequest "+const c = 3" 10000;
    failingRequest "+const d = 4" 15000 ].

Definition laterInputs : Inputs :=
  inputsAt tokenOnly (failingRuns 50000) 50000 53000.

(** The state after the three failing requests, once the slow task has
    settled as well. *)
Definition settledTrace : list Event := trippingTrace ++ [Settle 0].

(** *** Two diffs that differ only in a secret *)


Definition firstInputs : Inputs :=
  inputsAt noKeys (fun _ => answers "chore: add api key placeholder" 800 1800)
           1000 1800.


(** *** Secrets *)

Definition secretValue : string := "sk-aaaaaaaaaaaaaaaaaaaaaaaa".
Definition secretAssignment : string := "OPENAI_API_KEY=" +:+ secretValue.

Definition envFileDiff : string :=
  "diff --git a/.env b/.env
--- a/.env
+++ b/.env
@@ -0,0 +1 @@
+" +:+ secretAssignment.

Definition deployDiff : string :=
  "diff --git a/deploy.yml b/deploy.yml
--- a/deploy.yml
+++ b/deploy.yml
@@ -7,0 +8 @@
+      - key: NEXT_PUBLIC_" +:+ secretAssignment.

(** The prompt of the free Hugging Face adapter for [deployDiff], and
    a model that repeats the prompt before its text. *)
Definition echoedPrompt : string :=
  "Generate commit message for: diff --git a/deploy.yml b/deploy.yml
--- a/deploy.yml
+++ b/deploy.yml
@@ -7,0 +8 @@
+      - [REDACTED]=" +:+ secretValue.

Definition echoRuns (p : string) : TaskRun :=
  if String.eqb p "freehf"
  then answers (echoedPrompt +:+ " chore: add deploy key to workflow") 900 1900
  else unavailable 4000.

Definition echoInputs : Inputs := inputsAt noKeys echoRuns 1000 1900.

(** *** A diff that matches the feature and the database pattern *)

Definition featureAndDatabaseDiff : string :=
  "diff --git a/src/x.ts b/src/x.ts
+const x = () => {}
+SELECT id FROM users".

(** *** States and runs the properties are tried on *)

(** Three failing requests from the start: Hugging Face is tripped and
    nothing is in flight. *)
Definition trippedState : State := run (initialState 0) (drop 1 trippingTrace).

Definition trippedEntry : ProviderHealth :=
  mkHealth "HuggingFace" false
    (Qmax 0 (Qmax 0 (Qmax 0 ((85 # 100) - (5 # 100)) - (5 # 100)) - (5 # 100)))
    5000 0 3 3.

(** The same diff again, one minute and five minutes after the answer
    to [firstInputs]. *)
Definition againInputs : Inputs :=
  inputsAt noKeys (fun _ => answers "chore: rotate the api key value" 800 61800)
           61000 61800.


Definition firstMessage : string := "chore: add api key placeholder".

(** *** Requests that overlap *)






(** The race of [slowRequest]: free Hugging Face wins. *)
Definition slowDiff : string := safeDiffOf "+const a = 1".

Definition slowOutcome : Outcome :=
  {| out_result := "feat: add input validation helper";
     out_provider := "freehf";
     out_reports := [ mkReport "freehf" true (Some 900%Z) 1900;
                      mkReport "freehf" true None 1900 ];
     out_late := [ mkTask "huggingface" (Some "fix: handle empty input in parser")
                          [mkReport "huggingface" true (Some 45000%Z) 46000]
                          46000 ] |}.


End Examples.

(** ** Further notions used to state properties *)

Module Notions.
Import Re ReSpec.

(** The length of the longest run of [ok] characters anywhere in [s]. *)
Fixpoint longestRun (ok : ascii -> bool) (s : string) : nat :=
  match s with
  | EmptyString => 0
  | String _ s' => Nat.max (okRun ok s) (longestRun ok s')
  end.

(** A length that some run of [ok] characters reaches in every match
    of [r]: the length of the shortest match where [r] consumes [ok]
    characters only, and otherwise what the parts of [r] guarantee. *)
Fixpoint needsRun (ci : bool) (ok : ascii -> bool) (r : regex) : nat :=
  if consumesOnly ci ok r then minLen r
  else match r with
       | Seq r1 r2 => Nat.max (needsRun ci ok r1) (needsRun ci ok r2)
       | Alt r1 r2 => Nat.min (needsRun ci ok r1) (needsRun ci ok r2)
       | _ => 0
       end.

(** The polynomial hash with multiplier 31, without any wrap-around. *)
Fixpoint polyFrom (h : Z) (s : string) : Z :=
  match s with
  | EmptyString => h
  | String c s' => polyFrom (31 * h + CacheKey.charCode c) s'
  end.

Definition notSpace (c : ascii) : bool := negb (Js.is_space c).
Definition notDot (c : ascii) : bool := negb (Ascii.eqb c ".").
Definition notNewline (c : ascii) : bool := negb (Ascii.eqb c Js.newline).

(** The type that opens the subject line of a conventional commit
    message, for each change type. *)
Definition typePrefix (t : Analyzer.ChangeType) : string :=
  match t with
  | Analyzer.feature => "feat: "
  | Analyzer.bugFix => "fix: "
  | Analyzer.security => "security: "
  | Analyzer.performance => "perf: "
  | Analyzer.refactor => "refactor: "
  | Analyzer.styling => "style: "
  | Analyzer.test => "test: "
  | Analyzer.docs => "docs: "
  | Analyzer.config => "chore: "
  | Analyzer.database => "db: "
  | Analyzer.api => "api: "
  | Analyzer.chore => "chore: "
  end.

(** A subject line, an empty line and three bullet lines. *)
Definition conventionalShape (prefix message : string) : Prop :=
  exists subject b1 b2 b3,
    Js.split Js.newline message
    = [subject; EmptyString; "- " +:+ b1; "- " +:+ b2; "- " +:+ b3]
    /\ Js.startsWith prefix subject = true.

(** What every entry of the health tracker satisfies: the rate is a
    fraction, and the flag is up exactly while the failure count is
    below the threshold. *)
Definition entryOk (h : Health.ProviderHealth) : Prop :=
  (0 <= Health.successRate h <= 1)%Q
  /\ (Health.isHealthy h = true
      <-> (Health.consecutiveFailures h < Health.CIRCUIT_BREAKER_THRESHOLD)%nat).

(** Every entry is sound and carries the name and the priority of the
    entry the process started with. *)
Definition healthOk (t0 : Z) (health : gmap string Health.ProviderHealth)
  : Prop :=
  forall p h,
    health !! p = Some h ->
    entryOk h
    /\ exists h0, Health.initialHealth t0 !! p = Some h0
                  /\ Health.name h = Health.name h0
                  /\ Health.priority h = Health.priority h0.

(** Every report that a task in flight is going to make names one of
    [names], and so does every task a suspended request waits for. *)
Definition inflightFrom (names : list string) (st : Route.State) : Prop :=
  Trace.tasksNamed (fun q => q ∈ names) st.

(** The tasks are listed by the reading of the clock at which they
    settle. *)
Fixpoint settleOrdered (ts : list Providers.Task) : Prop :=
  match ts with
  | [] => True
  | t :: rest =>
      Forall (fun u => (Providers.task_at t <= Providers.task_at u)%Z) rest
      /\ settleOrdered rest
  end.

(** The credential the launch condition of a provider reads; the free
    Hugging Face endpoint needs none. *)
Definition credentialOf (env : Route.Env) (p : string) : bool :=
  if String.eqb p "aiml" then Route.AIML_API_KEY env
  else if String.eqb p "gemini" then Route.GEMINI_API_KEY env
  else if String.eqb p "huggingface" then Route.HUGGING_FACE_TOKEN env
  else if String.eqb p "freehf" then true
  else if String.eqb p "openai" then Route.OPENAI_API_KEY env
  else false.

(** The text does not begin with white space. *)
Definition startsClean (s : string) : bool :=
  match s with
  | EmptyString => true
  | String c _ => negb (Js.is_space c)
  end.

End Notions.

(** ** The page that calls the route *)

Module Page.
Import Route Trace.

(** The state of [DiffPage]; [commitMessage] is [None] when it has been
    set to [undefined]. *)
Record PageState : Type := mkPage {
  commitMessage : option string;
  isLoading : bool;
  diffInput : string;
  copied : bool
}.

(** What becomes of the [fetch]: the request does not reach the server,
    the server handles it but its answer is lost, or the answer
    arrives. *)
Inductive Network : Type :=
  | Unreachable
  | AnswerLost
  | Delivered.

Definition errorText : string :=
  "Error: Could not generate a commit message. Please check the console for details.".

(** [response.ok]: the status is in the range 200-299; the answers with
    a message have status 200. *)
Definition responseOk (r : Response) : bool :=
  match r with
  | ErrorResponse status _ => (200 <=? status)%Z && (status <=? 299)%Z
  | _ => true
  end.

(** [handleGenerate], from the click to the end of its [finally]: the
    state of the page and of the server afterwards. *)
Definition handleGenerate (ps : PageState) (network : Network)
           (server : State) (inp : Inputs) : PageState * State :=
  if Js.truthy (Js.trim (diffInput ps)) then
    let failed := mkPage (Some errorText) false (diffInput ps) (copied ps) in
    let '(response, server') :=
      POST server (Fields (Some (diffInput ps))) inp in
    match network with
    | Unreachable => (failed, server)
    | AnswerLost => (failed, server')
    | Delivered =>
        if responseOk response then
          (mkPage (messageOf response) false (diffInput ps) (copied ps),
           server')
        else (failed, server')
    end
  else (ps, server).

End Page.

(** ** The earlier route: a message from fixed templates *)

Module MockRoute.

(** [diff.match(/diff --git a\/([^\s]+)/)]: the last segment of the
    captured path, [file] when there is none. *)
Definition extractFileName (diff : string) : string :=
  match Re.exec false Analyzer.fileHeader diff with
  | Some m =>
      match Js.pop (Js.split "/" (Js.drop 13 m)) with
      | Some seg => if Js.truthy seg then seg else "file"
      | None => "file"
      end
  | None => "file"
  end.

(** [lines.includes(w1) || lines.includes(w2) || ...] *)
Definition includesAny (ws : list string) (lines : string) : bool :=
  existsb (fun w => Js.includes w lines) ws.

Definition fixNeedles : list string :=
  [".trim()"; ".toLowerCase()"; ".toUpperCase()"; "null"; "undefined";
   "error"; "exception"; "catch"; "try"].
Definition featNeedles : list string :=
  ["function"; "const "; "export"; "component"; "interface"; "class"].
Definition refactorNeedles : list string :=
  ["refactor"; "clean"; "optimize"; "import"; "require"].
Definition styleNeedles : list string :=
  ["style"; "format"; "lint"; "css"; "className"; "class="].
Definition testNeedles : list string :=
  ["test"; "spec"; ".test."; ".spec."].
Definition docsNeedles : list string :=
  ["doc"; "readme"; "comment"; "//"; "/*"].
Definition configNeedles : list string :=
  ["config"; "package.json"; "dependencies"; "webpack"; "babel"; "eslint"].

Definition fixMessage (name : string) : string :=
  "fix: improve " +:+ name +:+ " validation

- Add input sanitization to prevent edge cases
- Handle whitespace and formatting issues
- Improve data validation reliability".

Definition featMessage (name : string) : string :=
  "feat: add new functionality to " +:+ name +:+ "

- Implement new feature as requested
- Add necessary components and logic
- Enhance user experience".

Definition refactorMessage (name : string) : string :=
  "refactor: improve code structure in " +:+ name +:+ "

- Clean up code organization
- Optimize performance and readability
- Maintain existing functionality".

Definition styleMessage : string :=
  "style: update formatting and styling

- Apply consistent code formatting
- Fix linting issues
- Improve code readability".

Definition testMessage (name : string) : string :=
  "test: add test coverage for " +:+ name +:+ "

- Add comprehensive test cases
- Ensure proper test coverage
- Validate functionality".

Definition docsMessage : string :=
  "docs: update documentation

- Improve code documentation
- Add helpful comments and examples
- Update README and guides".

Definition configMessage : string :=
  "chore: update configuration and dependencies

- Update package dependencies
- Modify configuration settings
- Maintain project setup".

Definition defaultMessage (name : string) : string :=
  "chore: update " +:+ name +:+ "

- Make necessary changes to improve functionality
- Update code as required
- Maintain project standards".

Definition generateMockCommitMessage (diff : string) : string :=
  let lines := Js.toLowerCase diff in
  let name := extractFileName diff in
  if Js.includes "+" lines && Js.includes "-" lines then
    if includesAny fixNeedles lines then fixMessage name
    else if includesAny featNeedles lines then featMessage name
    else if includesAny refactorNeedles lines then refactorMessage name
    else if includesAny styleNeedles lines then styleMessage
    else if includesAny testNeedles lines then testMessage name
    else if includesAny docsNeedles lines then docsMessage
    else if includesAny configNeedles lines then configMessage
    else defaultMessage name
  else defaultMessage name.

Inductive MockResponse : Type :=
  | MockError (status : Z) (error : string)
  | MockMessage (commitMessage : string).

(** A [diff] that is no string and is not rejected by [!diff] makes
    [diff.toLowerCase()] throw. *)
Definition POST (body : Route.ReqBody) : MockResponse :=
  match body with
  | Route.BadJson => MockError 500 "Failed to generate commit message"
  | Route.NullJson => MockError 500 "Failed to generate commit message"
  | Route.OtherDiff Route.Falsy => MockError 400 "Git diff is required"
  | Route.OtherDiff _ => MockError 500 "Failed to generate commit message"
  | Route.Fields None => MockError 400 "Git diff is required"
  | Route.Fields (Some EmptyString) => MockError 400 "Git diff is required"
  | Route.Fields (Some diff) => MockMessage (generateMockCommitMessage diff)
  end.

End MockRoute.

(** * Properties *)

Import Sanitizer CacheKey Analyzer Health Providers Route Trace Examples.

(** ** The health tracker *)

Lemma update_lookup_same (r : Report) (health : gmap string ProviderHealth)
      (h : ProviderHealth) :
  health !! rp_name r = Some h ->
  updateProviderHealth r health !! rp_name r
  = Some (if rp_success r then onSuccess (rp_responseTime r) (rp_at r) h
          else onFailure h).
Proof.
  intros Hh. unfold updateProviderHealth. rewrite Hh.
  apply lookup_insert_eq.
Qed.

Lemma update_lookup_other (r : Report) (health : gmap string ProviderHealth)
      (p : string) :
  rp_name r <> p ->
  updateProviderHealth r health !! p = health !! p.
Proof.
  intros Hne. unfold updateProviderHealth.
  destruct (health !! rp_name r); [|done].
  by rewrite lookup_insert_ne.
Qed.

Lemma update_is_Some (r : Report) (health : gmap string ProviderHealth)
      (p : string) :
  is_Some (updateProviderHealth r health !! p) <-> is_Some (health !! p).
Proof.
  destruct (decide (rp_name r = p)) as [<-|Hne].
  - unfold updateProviderHealth.
    destruct (health !! rp_name r) eqn:E.
    + rewrite lookup_insert_eq. split; eauto.
    + by rewrite E.
  - by rewrite update_lookup_other.
Qed.

Lemma applyReports_app (rs1 rs2 : list Report)
      (health : gmap string ProviderHealth) :
  applyReports (rs1 ++ rs2) health = applyReports rs2 (applyReports rs1 health).
Proof. unfold applyReports. apply foldl_app. Qed.

Lemma applyReports_is_Some (rs : list Report)
      (health : gmap string ProviderHealth) (p : string) :
  is_Some (applyReports rs health !! p) <-> is_Some (health !! p).
Proof.
  revert health. induction rs as [|r rs IH]; intros health; simpl; [done|].
  rewrite IH. apply update_is_Some.
Qed.

Lemma applyReports_other (rs : list Report)
      (health : gmap string ProviderHealth) (p : string) :
  Forall (fun r => rp_name r <> p) rs ->
  applyReports rs health !! p = health !! p.
Proof.
  revert health. induction rs as [|r rs IH]; intros health Hall; simpl; [done|].
  inversion Hall; subst. rewrite IH by done. by apply update_lookup_other.
Qed.

(** A tripped provider stays tripped under reports that are not a
    success for it. *)
Lemma update_keeps_unhealthy (r : Report)
      (health : gmap string ProviderHealth) (p : string) :
  successFor p r = false ->
  isHealthy <$> health !! p = Some false ->
  isHealthy <$> updateProviderHealth r health !! p = Some false.
Proof.
  intros Hq Hun. destruct (decide (rp_name r = p)) as [<-|Hne].
  - destruct (health !! rp_name r) as [h|] eqn:E; [|done].
    rewrite (update_lookup_same _ _ _ E). simpl in *.
    unfold successFor in Hq. rewrite String.eqb_refl in Hq. simpl in Hq.
    rewrite Hq. simpl in *. injection Hun as Hun. f_equal.
    rewrite Hun. by repeat case_match.
  - by rewrite update_lookup_other.
Qed.

Lemma applyReports_keeps_unhealthy (rs : list Report)
      (health : gmap string ProviderHealth) (p : string) :
  forallb (fun r => negb (successFor p r)) rs = true ->
  isHealthy <$> health !! p = Some false ->
  isHealthy <$> applyReports rs health !! p = Some false.
Proof.
  revert health. induction rs as [|r rs IH]; intros health Hq Hun; simpl in *;
    [done|].
  apply andb_prop in Hq as [Hr Hrs]. apply IH; [done|].
  apply update_keeps_unhealthy; [|done]. by apply negb_true_iff.
Qed.

(** ** What an event does to the state *)

Lemma step_health (st : State) (e : Event) :
  providerHealth (step st e) = applyReports (stepReports st e) (providerHealth st).
Proof.
  assert (Hpost : forall body inp,
             providerHealth (POST st body inp).2
             = applyReports (requestReports st body inp) (providerHealth st)).
  { intros body inp. destruct body as [|[[|c d]|]| |[| |]]; simpl; try done.
    - destruct (freshEntry _ _ _); [done|].
      destruct (raceOf _ _ _); done.
    - by destruct (freshEntry _ _ _). }
  destruct e as [body inp|i|body inp|i]; simpl.
  - apply Hpost.
  - destruct (inflight st !! i); done.
  - destruct (awaited st body inp); [done|apply Hpost].
  - unfold advance. destruct (pending st !! i) as [pd|]; [|done].
    destruct (pd_tasks pd) as [|t rest]; [done|].
    destruct (task_result t), rest; simpl; try done;
      by rewrite applyReports_app.
Qed.

Lemma step_cooldown (st : State) (e : Event) :
  providerCooldownUntil (step st e) = providerCooldownUntil st.
Proof.
  assert (Hpost : forall body inp,
             providerCooldownUntil (POST st body inp).2
             = providerCooldownUntil st).
  { intros body inp. destruct body as [|[[|c d]|]| |[| |]]; simpl; try done.
    - destruct (freshEntry _ _ _); [done|].
      destruct (raceOf _ _ _); done.
    - by destruct (freshEntry _ _ _). }
  destruct e as [body inp|i|body inp|i]; simpl.
  - apply Hpost.
  - destruct (inflight st !! i); done.
  - destruct (awaited st body inp); [done|apply Hpost].
  - unfold advance. destruct (pending st !! i) as [pd|]; [|done].
    destruct (pd_tasks pd) as [|t rest]; [done|].
    destruct (task_result t), rest; done.
Qed.

(** ** The launch conditions *)

Lemma launchAll_elem (conds : list (string * option bool)) (p : string) :
  p ∈ (launchAll conds).1 -> (p, Some true) ∈ conds.
Proof.
  induction conds as [|[q g] conds IH]; simpl; [by intros ?%elem_of_nil|].
  destruct g as [[|]|]; simpl.
  - destruct (launchAll conds) as [l t] eqn:E. simpl in *.
    intros [->|Hin]%elem_of_cons; [left|right; auto].
  - intros Hin. right. auto.
  - by intros ?%elem_of_nil.
Qed.

Lemma condition_true (key : bool) (h : option ProviderHealth) (cooled : bool) :
  condition key h cooled = Some true ->
  key = true /\ isHealthy <$> h = Some true /\ cooled = true.
Proof.
  unfold condition. destruct key; [|done]. destruct h as [h|]; [|done].
  simpl. intros [= H]. apply andb_prop in H as [-> ->]. done.
Qed.

(** A launched provider is one of the five racers, its credential is
    set (free Hugging Face needs none) and its flag is up. *)
Lemma launched_healthy (st : State) (inp : Inputs) (p : string) :
  p ∈ launchedBy st inp -> p ∈ racers /\ healthyIn st p = Some true.
Proof.
  intros Hin. apply launchAll_elem in Hin. unfold launchConditions in Hin.
  unfold healthyIn, racers.
  repeat (apply elem_of_cons in Hin as [Hin|Hin];
          [pose proof (f_equal fst Hin) as Hp; pose proof (f_equal snd Hin) as Hg;
           cbn [fst snd] in Hp, Hg; subst p; symmetry in Hg;
           apply condition_true in Hg as (_ & Hh & _); split; [set_solver|done]|]).
  by apply elem_of_nil in Hin.
Qed.

Lemma unhealthy_not_launched (st : State) (inp : Inputs) (p : string) :
  healthyIn st p = Some false -> p ∉ launchedBy st inp.
Proof.
  intros Hun Hin. apply launched_healthy in Hin as [_ Hin]. congruence.
Qed.

Lemma quiet_keeps_unhealthy (p : string) (es : list Event) (st : State) :
  healthyIn st p = Some false -> quiet p st es ->
  healthyIn (run st es) p = Some false.
Proof.
  revert st. induction es as [|e es IH]; intros st Hun Hq; simpl in *; [done|].
  destruct Hq as [He Hes]. apply IH; [|done].
  unfold healthyIn. rewrite step_health.
  by apply applyReports_keeps_unhealthy.
Qed.

(** ** The response cache *)

Lemma cleanup_lookup (now : Z) (cache : gmap string CacheEntry)
      (k : string) (e : CacheEntry) :
  cleanupCache now cache !! k = Some e
  <-> cache !! k = Some e /\ (now - timestamp e <= CACHE_TTL)%Z.
Proof.
  unfold cleanupCache. rewrite map_lookup_filter_Some. simpl. intuition lia.
Qed.


(** The three ways a request with a non-empty diff can end. *)
Lemma POST_cases (st : State) (c : ascii) (d : string) (inp : Inputs) :
  let diff := String c d in
  let key := generateCacheKey diff in
  (exists e, freshEntry st key (in_nowCheck inp) = Some e
             /\ POST st (Fields (Some diff)) inp
                = (CachedResponse (response e) (analysis e), st))
  \/ (exists o, freshEntry st key (in_nowCheck inp) = None
                /\ raceOf st diff inp = inl o
                /\ POST st (Fields (Some diff)) inp
                   = (FreshResponse (out_result o) (analyzeDiff (safeDiffOf diff))
                                    (out_provider o),
                      mkState (applyReports (out_reports o) (providerHealth st))
                        (providerCooldownUntil st)
                        (cleanupCache (in_nowClean inp)
                           (<[key := mkEntry (out_result o) (in_nowWrite inp)
                                       (analyzeDiff (safeDiffOf diff))]>
                              (responseCache st)))
                        (inflight st ++ out_late o) (pending st)))
  \/ (exists late, freshEntry st key (in_nowCheck inp) = None
                   /\ raceOf st diff inp = inr late
                   /\ POST st (Fields (Some diff)) inp
                      = (ErrorResponse 500 "Failed to generate commit message",
                         mkState (providerHealth st) (providerCooldownUntil st)
                           (responseCache st) (inflight st ++ late)
                           (pending st))).
Proof.
  intros diff key. unfold POST. fold diff. fold key.
  destruct (freshEntry st key (in_nowCheck inp)) as [e|] eqn:E.
  - left. eauto.
  - destruct (raceOf st diff inp) as [o|late] eqn:R.
    + right. left. eauto.
    + right. right. eauto.
Qed.


(** ** The retry executor and the race *)

Lemma retry_provider (p diff : string) (r : TaskRun) :
  task_provider (executeWithRetry p diff r) = p.
Proof.
  unfold executeWithRetry, MAX_RETRIES. simpl.
  repeat (case_match; simpl; try done).
Qed.

(** A task reports exactly once, under its own name: a success with the
    measured time when it is fulfilled, a failure when it is rejected. *)
Lemma retry_reports (p diff : string) (r : TaskRun) :
  match task_result (executeWithRetry p diff r) with
  | Some _ =>
      exists attempt,
        task_reports (executeWithRetry p diff r)
        = [mkReport p true (Some (tr_elapsed r attempt)) (tr_settledAt r)]
  | None =>
      task_reports (executeWithRetry p diff r)
      = [mkReport p false None (tr_settledAt r)]
  end.
Proof.
  unfold executeWithRetry, MAX_RETRIES. simpl.
  destruct (adapter p diff (tr_replies r 1)); simpl; [by exists 1%nat|].
  destruct (adapter p diff (tr_replies r 2)); simpl; [by exists 2%nat|done].
Qed.

Lemma retry_report_names (p diff : string) (r : TaskRun) :
  Forall (fun rp => rp_name rp = p) (task_reports (executeWithRetry p diff r)).
Proof.
  pose proof (retry_reports p diff r) as H.
  destruct (task_result _); [destruct H as [a ->]|rewrite H];
    by repeat constructor.
Qed.

Lemma insertByTime_perm (t : Task) (ts : list Task) :
  insertByTime t ts ≡ₚ t :: ts.
Proof.
  induction ts as [|u ts IH]; simpl; [done|].
  destruct (task_at t <? task_at u)%Z; [done|].
  rewrite IH. apply Permutation_swap.
Qed.

Lemma bySettlement_perm (ts : list Task) : bySettlement ts ≡ₚ ts.
Proof.
  induction ts as [|t ts IH]; simpl; [done|].
  unfold bySettlement in *. simpl. rewrite insertByTime_perm. by rewrite IH.
Qed.

Lemma raceLoop_winner (ts : list Task) (rs : list Report) (p result : string)
      (late : list Task) :
  raceLoop ts = (rs, Some (p, result), late) ->
  exists pre t,
    ts = pre ++ t :: late
    /\ Forall (fun u => task_result u = None) pre
    /\ task_result t = Some result /\ task_provider t = p
    /\ rs = concat (map task_reports pre) ++ task_reports t.
Proof.
  revert rs. induction ts as [|t ts IH]; intros rs; simpl; [done|].
  destruct (task_result t) as [res|] eqn:E.
  - intros [= <- <- <- <-]. exists [], t. simpl. by repeat split.
  - destruct (raceLoop ts) as [[rs' w] late'] eqn:R.
    intros [= <- -> ->].
    destruct (IH rs' eq_refl) as (pre & u & -> & Hpre & Hu & Hp & ->).
    exists (t :: pre), u. simpl. repeat split; try done.
    + by constructor.
    + by rewrite app_assoc.
Qed.

Lemma raceLoop_none (ts : list Task) (rs : list Report) (late : list Task) :
  raceLoop ts = (rs, None, late) ->
  Forall (fun u => task_result u = None) ts
  /\ rs = concat (map task_reports ts) /\ late = [].
Proof.
  revert rs. induction ts as [|t ts IH]; intros rs; simpl.
  - by intros [= <- <-].
  - destruct (task_result t) as [res|] eqn:E; [done|].
    destruct (raceLoop ts) as [[rs' w] late'] eqn:R.
    intros [= <- -> ->].
    destruct (IH rs' eq_refl) as (Hall & -> & ->).
    split_and!; [by constructor|done|done].
Qed.

Lemma launchAll_sublist (conds : list (string * option bool)) :
  sublist (launchAll conds).1 conds.*1.
Proof.
  induction conds as [|[q g] conds IH]; simpl; [done|].
  destruct g as [[|]|]; simpl.
  - destruct (launchAll conds) as [l t]. simpl in *. by apply sublist_skip.
  - by apply sublist_cons.
  - apply sublist_nil_l.
Qed.

Lemma launched_sublist (env : Env) (health : gmap string ProviderHealth)
      (cooldown : gmap string Z) (nowTs : Z) :
  sublist (launchAll (launchConditions env health cooldown nowTs)).1 racers.
Proof. apply (launchAll_sublist (launchConditions env health cooldown nowTs)). Qed.

Lemma racers_NoDup : NoDup racers.
Proof. apply (bool_decide_unpack _). by vm_compute. Qed.

Lemma launched_providers (diff : string) (runs : string -> TaskRun)
      (launched : list string) :
  map task_provider (map (fun p => executeWithRetry p diff (runs p)) launched)
  = launched.
Proof.
  induction launched as [|q l IH]; simpl; [done|].
  by rewrite retry_provider, IH.
Qed.

(** The shape of a race that has a winner. *)
Lemma strategy_winner (env : Env) (health : gmap string ProviderHealth)
      (cooldown : gmap string Z) (nowTs : Z) (runs : string -> TaskRun)
      (nowWin : Z) (diff : string) (a : DiffAnalysis) (o : Outcome) :
  executeIntelligentAIStrategy env health cooldown nowTs runs nowWin diff a
  = inl o ->
  out_provider o <> "local" ->
  let p := out_provider o in
  p ∈ (launchAll (launchConditions env health cooldown nowTs)).1
  /\ task_result (executeWithRetry p diff (runs p)) = Some (out_result o)
  /\ exists others,
       Forall (fun r => rp_name r <> p /\ rp_success r = false) others
       /\ out_reports o
          = others ++ task_reports (executeWithRetry p diff (runs p))
                   ++ [mkReport p true None nowWin].
Proof.
  unfold executeIntelligentAIStrategy.
  pose proof (launched_sublist env health cooldown nowTs) as Hsub.
  destruct (launchAll _) as [launched threw]. simpl in Hsub.
  destruct threw; [done|].
  set (tasks := map _ launched).
  destruct (raceLoop (bySettlement tasks)) as [[rs w] late] eqn:R.
  destruct w as [[p result]|]; intros [= <-]; simpl; [|done]. intros _.
  apply raceLoop_winner in R as (pre & t & Hsplit & Hpre & Ht & Hp & ->).
  assert (Hperm : pre ++ t :: late ≡ₚ tasks)
    by (rewrite <- Hsplit; apply bySettlement_perm).
  assert (Hnd : NoDup (map task_provider (pre ++ t :: late))).
  { rewrite Hperm. unfold tasks. rewrite launched_providers.
    eapply sublist_NoDup; [apply racers_NoDup|exact Hsub]. }
  assert (Hin : forall u, u ∈ pre ++ t :: late ->
                  u = executeWithRetry (task_provider u) diff (runs (task_provider u))
                  /\ task_provider u ∈ launched).
  { intros u Hu. rewrite Hperm in Hu. unfold tasks in Hu.
    apply list_elem_of_fmap in Hu as (q & -> & Hq).
    by rewrite retry_provider. }
  assert (Htin : t ∈ pre ++ t :: late) by (apply elem_of_app; right; left).
  destruct (Hin t Htin) as [Et Hlt]. rewrite Hp in Et, Hlt.
  split; [done|]. split; [by rewrite <- Et|].
  exists (concat (map task_reports pre)). split.
  - apply Forall_concat, Forall_fmap, Forall_forall. intros u Hu. simpl.
    assert (Huin : u ∈ pre ++ t :: late) by (apply elem_of_app; by left).
    destruct (Hin u Huin) as [Eu _].
    assert (Hne : task_provider u <> p).
    { rewrite fmap_app, fmap_cons in Hnd. apply NoDup_app in Hnd as (_ & Hd & _).
      intros Heq. apply (Hd (task_provider u)).
      - apply list_elem_of_fmap. eauto.
      - rewrite Hp, Heq. left. }
    rewrite Forall_forall in Hpre. specialize (Hpre u Hu).
    pose proof (retry_reports (task_provider u) diff (runs (task_provider u))) as Hr.
    rewrite <- Eu in Hr. rewrite Hpre in Hr. rewrite Hr.
    by repeat constructor.
  - rewrite <- Et. by rewrite <- app_assoc.
Qed.




(** ** Who is reported about *)

Lemma raceLoop_Forall (P : Report -> Prop) (ts : list Task)
      (rs : list Report) (w : option (string * string)) (late : list Task) :
  Forall (fun t => Forall P (task_reports t)) ts ->
  raceLoop ts = (rs, w, late) ->
  Forall P rs /\ Forall (fun t => Forall P (task_reports t)) late.
Proof.
  revert rs w late. induction ts as [|t ts IH]; intros rs w late Hall; simpl.
  - intros [= <- <- <-]. by split.
  - inversion Hall as [|? ? Ht Hts]; subst.
    destruct (task_result t).
    + intros [= <- <- <-]. by split.
    + destruct (raceLoop ts) as [[rs' w'] late'] eqn:R.
      intros [= <- <- <-]. destruct (IH _ _ _ Hts eq_refl) as [Hrs Hlate].
      split; [by apply Forall_app|done].
Qed.

(** Every report of a race, made at once or still to come, is about a
    provider the race has launched. *)
Lemma strategy_reports_launched
      (env : Env) (health : gmap string ProviderHealth)
      (cooldown : gmap string Z) (nowTs : Z) (runs : string -> TaskRun)
      (nowWin : Z) (diff : string) (a : DiffAnalysis) :
  let launched := (launchAll (launchConditions env health cooldown nowTs)).1 in
  let named := fun r : Report => rp_name r ∈ launched in
  match executeIntelligentAIStrategy env health cooldown nowTs runs nowWin
          diff a with
  | inl o => Forall named (out_reports o)
             /\ Forall (fun t => Forall named (task_reports t)) (out_late o)
  | inr late => Forall (fun t => Forall named (task_reports t)) late
  end.
Proof.
  intros launched named. unfold executeIntelligentAIStrategy.
  fold launched. destruct (launchAll _) as [l threw] eqn:E.
  simpl in launched. subst launched.
  set (tasks := map _ l).
  assert (Htasks : Forall (fun t => Forall named (task_reports t)) tasks).
  { apply Forall_fmap, Forall_forall. intros q Hq. simpl.
    eapply Forall_impl; [apply retry_report_names|].
    intros r Hr. unfold named. rewrite Hr. exact Hq. }
  destruct threw; [done|].
  destruct (raceLoop (bySettlement tasks)) as [[rs w] late] eqn:R.
  assert (Hsorted : Forall (fun t => Forall named (task_reports t))
                           (bySettlement tasks))
    by (by rewrite bySettlement_perm).
  destruct (raceLoop_Forall _ _ _ _ _ Hsorted R) as [Hrs Hlate].
  destruct w as [[p result]|]; simpl; [|done].
  split; [|done]. apply Forall_app. split; [done|].
  constructor; [|done]. unfold named. simpl.
  apply raceLoop_winner in R as (pre & t & Hsplit & _ & _ & Hp & _).
  assert (Ht : t ∈ tasks).
  { rewrite <- (bySettlement_perm tasks), Hsplit.
    apply elem_of_app. right. left. }
  apply list_elem_of_fmap in Ht as (q & -> & Hq).
  by rewrite retry_provider in Hp; subst.
Qed.

Lemma step_reports_launched (st : State) (body : ReqBody) (inp : Inputs) :
  Forall (fun r => rp_name r ∈ launchedBy st inp)
         (stepReports st (Request body inp))
  /\ exists late,
       inflight (step st (Request body inp)) = inflight st ++ late
       /\ Forall (fun t => Forall (fun r => rp_name r ∈ launchedBy st inp)
                                  (task_reports t)) late.
Proof.
  destruct body as [|[[|c d]|]| |[| |]];
    try (simpl; split; [done|]; exists []; by rewrite app_nil_r).
  2:{ simpl. destruct (freshEntry _ _ _);
        (split; [done|]; exists []; by rewrite app_nil_r). }
  simpl. destruct (freshEntry _ _ _).
  { split; [done|]. exists []. by rewrite app_nil_r. }
  unfold raceOf.
  pose proof (strategy_reports_launched (in_env inp) (providerHealth st)
                (providerCooldownUntil st) (in_nowTs inp) (in_runs inp)
                (in_nowWin inp) (safeDiffOf (String c d))
                (analyzeDiff (safeDiffOf (String c d)))) as H.
  simpl in H. fold (launchedBy st inp) in H.
  destruct (executeIntelligentAIStrategy _ _ _ _ _ _ _ _) as [o|late]; simpl.
  - destruct H as [Hr Hl]. split; [done|]. eauto.
  - split; [done|]. eauto.
Qed.

Lemma Forall_delete_list {A : Type} (P : A -> Prop) (l : list A) (i : nat) :
  Forall P l -> Forall P (delete i l).
Proof.
  intros H. revert i. induction H as [|x l Hx Hl IH]; intros [|i]; simpl;
    try done; by constructor.
Qed.

Lemma POST_pending (st : State) (body : ReqBody) (inp : Inputs) :
  pending (POST st body inp).2 = pending st.
Proof.
  destruct body as [|[[|c d]|]| |[| |]]; simpl; try done.
  - destruct (freshEntry _ _ _); [done|]. by destruct (raceOf _ _ _).
  - by destruct (freshEntry _ _ _).
Qed.

(** A request that is suspended has missed the cache, and waits for the
    tasks the launch conditions let through, in the order in which
    they settle. *)
Lemma awaited_Some (st : State) (body : ReqBody) (inp : Inputs) (pd : Pending) :
  awaited st body inp = Some pd ->
  exists c d,
    body = Fields (Some (String c d))
    /\ freshEntry st (generateCacheKey (String c d)) (in_nowCheck inp) = None
    /\ pd = mkPending (String c d) inp
                      (bySettlement
                         (map (fun p => executeWithRetry p (safeDiffOf (String c d))
                                          (in_runs inp p))
                              (launchedBy st inp)))
    /\ (launchAll (launchConditions (in_env inp) (providerHealth st)
                     (providerCooldownUntil st) (in_nowTs inp))).2 = false
    /\ pd_tasks pd <> [].
Proof.
  destruct body as [|[[|c d]|]| |[| |]]; try done.
  intros H. exists c, d. revert H. unfold awaited.
  destruct (freshEntry _ _ _) eqn:Hf; [done|].
  unfold launchedTasks, launchedBy.
  destruct (launchAll _) as [launched threw]. cbn [fst snd].
  destruct threw; [done|].
  destruct (bySettlement _) as [|t ts] eqn:E; [done|].
  intros [= <-]. by split_and!.
Qed.

(** The race in terms of the launched tasks in their order of
    settlement. *)
Lemma race_shape (env : Env) (health : gmap string ProviderHealth)
      (cooldown : gmap string Z) (nowTs : Z) (runs : string -> TaskRun)
      (nowWin : Z) (diff : string) (a : DiffAnalysis) (o : Outcome) :
  executeIntelligentAIStrategy env health cooldown nowTs runs nowWin diff a
  = inl o ->
  let launched := (launchAll (launchConditions env health cooldown nowTs)).1 in
  let tasks := map (fun p => executeWithRetry p diff (runs p)) launched in
  (exists pre t,
      bySettlement tasks = pre ++ t :: out_late o
      /\ Forall (fun u => task_result u = None) pre
      /\ task_result t = Some (out_result o)
      /\ task_provider t = out_provider o
      /\ out_reports o
         = concat (map task_reports pre) ++ task_reports t
                  ++ [mkReport (out_provider o) true None nowWin])
  \/ (Forall (fun u => task_result u = None) tasks
      /\ out_provider o = "local"
      /\ out_result o = LocalGenerator.generateLocalPatternBasedCommit diff a
      /\ out_reports o = concat (map task_reports (bySettlement tasks))
      /\ out_late o = []).
Proof.
  unfold executeIntelligentAIStrategy.
  destruct (launchAll _) as [launched threw]. simpl.
  destruct threw; [done|].
  set (tasks := map _ launched).
  destruct (raceLoop (bySettlement tasks)) as [[rs w] late] eqn:R.
  destruct w as [[p result]|]; intros [= <-]; simpl.
  - left. apply raceLoop_winner in R as (pre & t & Hsplit & Hpre & Ht & Hp & ->).
    exists pre, t. split_and!; try done. by rewrite <- app_assoc.
  - right. apply raceLoop_none in R as (Hall & -> & ->).
    rewrite bySettlement_perm in Hall. done.
Qed.

Lemma task_of_launched (diff : string) (runs : string -> TaskRun)
      (launched : list string) (u : Task) :
  u ∈ map (fun p => executeWithRetry p diff (runs p)) launched ->
  task_provider u ∈ launched
  /\ u = executeWithRetry (task_provider u) diff (runs (task_provider u)).
Proof.
  intros Hu. apply list_elem_of_fmap in Hu as (q & -> & Hq).
  by rewrite retry_provider.
Qed.

(** The names under which the tasks of a race report are the names of
    their providers. *)
Lemma retry_names (p diff : string) (r : TaskRun) :
  map rp_name (task_reports (executeWithRetry p diff r)) = [p].
Proof.
  pose proof (retry_reports p diff r) as H.
  destruct (task_result _); [destruct H as [a ->]|rewrite H]; done.
Qed.

Lemma reports_names (diff : string) (runs : string -> TaskRun) (l : list Task) :
  Forall (fun u => u = executeWithRetry (task_provider u) diff
                         (runs (task_provider u))) l ->
  map rp_name (concat (map task_reports l)) = map task_provider l.
Proof.
  induction 1 as [|u l Hu _ IH]; simpl; [done|].
  rewrite map_app, IH. rewrite Hu at 1. by rewrite retry_names.
Qed.

(** The providers that take part in a race, as its outcome shows them,
    are the providers the launch conditions let through. *)
Lemma raced_iff_launched (env : Env) (health : gmap string ProviderHealth)
      (cooldown : gmap string Z) (nowTs : Z) (runs : string -> TaskRun)
      (nowWin : Z) (diff : string) (a : DiffAnalysis) (q : string) :
  q ∈ racedProviders (executeIntelligentAIStrategy env health cooldown nowTs
                        runs nowWin diff a)
  <-> q ∈ (launchAll (launchConditions env health cooldown nowTs)).1.
Proof.
  destruct (executeIntelligentAIStrategy env health cooldown nowTs runs nowWin
              diff a) as [o|late] eqn:E.
  - pose proof (race_shape _ _ _ _ _ _ _ _ _ E) as Hshape.
    cbv zeta in Hshape.
    set (launched := (launchAll (launchConditions env health cooldown nowTs)).1)
      in *.
    set (tasks := map (fun p => executeWithRetry p diff (runs p)) launched) in *.
    assert (Hform : forall l, l ≡ₚ tasks ->
              Forall (fun u => u = executeWithRetry (task_provider u) diff
                                     (runs (task_provider u))) l).
    { intros l Hl. apply Forall_forall. intros u Hu. rewrite Hl in Hu.
      by apply task_of_launched in Hu as [_ ?]. }
    assert (Hall : forall l, l ≡ₚ tasks ->
              (q ∈ map task_provider l <-> q ∈ launched)).
    { intros l Hl. rewrite Hl. unfold tasks. by rewrite launched_providers. }
    destruct Hshape
      as [(pre & t & Hsplit & _ & _ & Hp & Hreports)
         |(_ & _ & _ & Hreports & Hlate)]; cbn [racedProviders].
    + assert (Hperm : pre ++ t :: out_late o ≡ₚ tasks)
        by (rewrite <- Hsplit; apply bySettlement_perm).
      pose proof (Hform _ Hperm) as Hf.
      apply Forall_app in Hf as [Hpre Hrest].
      apply Forall_cons in Hrest as [Ht _].
      rewrite <- (Hall _ Hperm). rewrite Hreports, !map_app.
      rewrite (reports_names diff runs pre Hpre).
      rewrite Ht at 1. rewrite retry_names. cbn [map rp_name].
      rewrite !elem_of_app, !elem_of_cons, !elem_of_nil.
      rewrite Hp. tauto.
    + rewrite Hlate, Hreports. cbn [map]. rewrite app_nil_r.
      rewrite (reports_names diff runs _ (Hform _ (bySettlement_perm tasks))).
      apply Hall, bySettlement_perm.
  - revert E. unfold executeIntelligentAIStrategy.
    destruct (launchAll _) as [launched threw]. simpl.
    destruct threw.
    + intros [= <-]. simpl. by rewrite launched_providers.
    + by destruct (raceLoop _) as [[rs [[p result]|]] late'].
Qed.

(** C5: the circuit breaker.  A reported success sets the failure count
    of the provider to 0 and its flag to true; a reported failure that
    brings the count to the threshold 3 (or beyond) sets the flag to
    false, so three failures in a row always do; and a provider whose
    flag is false takes part in no race, in whatever state the process
    is after events among which no success was reported for it: the
    launch conditions do not let it through, the outcome of the race
    the coordinator runs for a request shows neither a report nor a
    task of it, and a request that is suspended at its race waits for
    no task of it. *)
Theorem C5_circuit_breaker (st : State) (p : string) (h : ProviderHealth)
        (Hh : providerHealth st !! p = Some h) :
  (forall rt now,
      exists h', updateProviderHealth (mkReport p true rt now) (providerHealth st) !! p
                 = Some h'
                 /\ consecutiveFailures h' = 0%nat /\ isHealthy h' = true)
  /\ (forall now,
      (CIRCUIT_BREAKER_THRESHOLD <= S (consecutiveFailures h))%nat ->
      exists h', updateProviderHealth (mkReport p false None now) (providerHealth st) !! p
                 = Some h'
                 /\ consecutiveFailures h' = S (consecutiveFailures h)
                 /\ isHealthy h' = false)
  /\ CIRCUIT_BREAKER_THRESHOLD = 3%nat
  /\ (forall t1 t2 t3,
        isHealthy <$> applyReports [mkReport p false None t1;
                                    mkReport p false None t2;
                                    mkReport p false None t3]
                                   (providerHealth st) !! p
        = Some false)
  /\ (isHealthy h = false ->
      forall es inp,
        quiet p st es ->
        (p ∉ launchedBy (run st es) inp)
        /\ (forall diff, p ∉ racedProviders (raceOf (run st es) diff inp))
        /\ (forall body pd,
              awaited (run st es) body inp = Some pd ->
              p ∉ map task_provider (pd_tasks pd))).
Proof.
  split_and!.
  - intros rt now. eexists. split.
    + by apply (update_lookup_same (mkReport p true rt now)).
    + done.
  - intros now Hth. eexists. split.
    + by apply (update_lookup_same (mkReport p false None now)).
    + cbn [rp_success onFailure consecutiveFailures isHealthy]. split; [done|].
      destruct (CIRCUIT_BREAKER_THRESHOLD <=? S (consecutiveFailures h))%nat eqn:E;
        [done|].
      apply Nat.leb_gt in E. lia.
  - done.
  - intros t1 t2 t3. simpl.
    pose proof (update_lookup_same (mkReport p false None t1) _ _ Hh) as H1.
    pose proof (update_lookup_same (mkReport p false None t2) _ _ H1) as H2.
    pose proof (update_lookup_same (mkReport p false None t3) _ _ H2) as H3.
    cbn [rp_name rp_success] in H1, H2, H3. by rewrite H3.
  - intros Hun es inp Hq.
    assert (Hnot : p ∉ launchedBy (run st es) inp).
    { apply unhealthy_not_launched.
      apply quiet_keeps_unhealthy; [|done].
      unfold healthyIn. by rewrite Hh, <- Hun. }
    split_and!; [done| |].
    + intros diff Hin. apply Hnot. unfold raceOf in Hin.
      by apply raced_iff_launched in Hin.
    + intros body pd Hpd Hin. apply Hnot.
      apply awaited_Some in Hpd as (c & d & _ & _ & -> & _ & _).
      simpl in Hin. rewrite bySettlement_perm in Hin.
      by rewrite launched_providers in Hin.
Qed.

Lemma Forall_insert_list {A : Type} (P : A -> Prop) (l : list A) (i : nat)
      (x : A) :
  Forall P l -> P x -> Forall P (<[i := x]> l).
Proof.
  intros H Hx. revert i. induction H as [|y l Hy Hl IH]; intros [|i]; simpl;
    try done; by constructor.
Qed.

(** What an event does to the tasks: when every provider a request can
    launch satisfies [P] and so do the tasks under way, every report
    the event makes is about such a provider, and so are the tasks
    under way afterwards. *)
Lemma step_named (P : string -> Prop) (st : State) (e : Event) :
  tasksNamed P st ->
  (forall inp q, q ∈ launchedBy st inp -> P q) ->
  Forall (fun r => P (rp_name r)) (stepReports st e)
  /\ tasksNamed P (step st e).
Proof.
  intros [Hfl Hpd] Hlaunch.
  assert (Hreq : forall body inp,
             Forall (fun r => P (rp_name r)) (requestReports st body inp)
             /\ tasksNamed P (POST st body inp).2).
  { intros body inp.
    destruct (step_reports_launched st body inp) as (Hr & late & Hin & Hlate).
    simpl in Hr, Hin. split.
    - eapply Forall_impl; [exact Hr|]. simpl. eauto.
    - split; [|by rewrite POST_pending].
      rewrite Hin. apply Forall_app. split; [done|].
      eapply Forall_impl; [exact Hlate|]. simpl. intros t Ht.
      eapply Forall_impl; [exact Ht|]. simpl. eauto. }
  destruct e as [body inp|i|body inp|i]; simpl.
  - apply Hreq.
  - destruct (inflight st !! i) as [t|] eqn:E; simpl; [|by split].
    split.
    + rewrite Forall_forall in Hfl. apply Hfl. by eapply list_elem_of_lookup_2.
    + split; [by apply Forall_delete_list|done].
  - destruct (awaited st body inp) as [pd|] eqn:E; [|apply Hreq].
    split; [done|]. split; [done|]. simpl.
    apply Forall_app. split; [done|]. constructor; [|done].
    apply awaited_Some in E as (c & d & _ & _ & -> & _ & _). simpl.
    rewrite bySettlement_perm. apply Forall_fmap, Forall_forall.
    intros q Hq. simpl. rewrite retry_provider. split; [by eapply Hlaunch|].
    eapply Forall_impl; [apply retry_report_names|].
    simpl. intros r ->. by eapply Hlaunch.
  - unfold advance. destruct (pending st !! i) as [pd|] eqn:E; [|by split].
    assert (Hts : Forall (fun t => P (task_provider t)
                                   /\ Forall (fun r => P (rp_name r))
                                             (task_reports t)) (pd_tasks pd)).
    { rewrite Forall_forall in Hpd. apply Hpd. by eapply list_elem_of_lookup_2. }
    destruct (pd_tasks pd) as [|t rest] eqn:Et; [by split|].
    apply Forall_cons in Hts as [[Hp Hr] Hrest].
    assert (Hlate : Forall (fun u => Forall (fun r => P (rp_name r))
                                            (task_reports u)) rest).
    { eapply Forall_impl; [exact Hrest|]. simpl. by intros u [_ ?]. }
    destruct (task_result t) as [result|], rest as [|u rest']; simpl.
    + split; [apply Forall_app; split; [done|by constructor]|].
      split; simpl; [by rewrite app_nil_r|by apply Forall_delete_list].
    + split; [apply Forall_app; split; [done|by constructor]|].
      split; simpl; [by apply Forall_app|by apply Forall_delete_list].
    + split; [by rewrite app_nil_r|].
      split; simpl; [by rewrite app_nil_r|by apply Forall_delete_list].
    + split; [by rewrite app_nil_r|].
      split; simpl; [done|]. by apply Forall_insert_list.
Qed.

Lemma step_keeps_tripped (p : string) (st : State) (e : Event) :
  healthyIn st p = Some false -> nothingPending p st ->
  Forall (fun r => rp_name r <> p) (stepReports st e)
  /\ healthyIn (step st e) p = Some false
  /\ nothingPending p (step st e).
Proof.
  intros Hun Hnp.
  destruct (step_named (fun q => q <> p) st e Hnp) as [Hr Hp].
  { intros inp q Hq ->. by apply (unhealthy_not_launched st inp p Hun). }
  split; [done|]. split; [|done].
  unfold healthyIn in *. rewrite step_health. by rewrite applyReports_other.
Qed.

Lemma names_quiet (p : string) (rs : list Report) :
  Forall (fun r => rp_name r <> p) rs ->
  forallb (fun r => negb (successFor p r)) rs = true.
Proof.
  induction 1 as [|r rs Hne _ IH]; simpl; [done|].
  rewrite IH, andb_true_r. unfold successFor.
  apply String.eqb_neq in Hne. by rewrite Hne.
Qed.

(** C10 (as amended): a tripped circuit and the tasks in flight.  If
    the flag of a provider is false and no task in flight is going to
    report about it (nor does a suspended request wait for a task of
    it), then in whatever way the process goes on, requests
    overlapping or not, the provider is never launched, nothing at all
    is reported about it (so no success), no task of it comes in
    flight, and its flag stays false.  (A task of the provider that was
    launched before the flag fell and is still in flight is the one way
    back: its success raises the flag again.) *)
Theorem C10_tripped_stays_tripped (p : string) (st : State)
        (Hdown : healthyIn st p = Some false)
        (Hnone : nothingPending p st) :
  forall (es : list Event) (inp : Inputs),
    quiet p st es
    /\ healthyIn (run st es) p = Some false
    /\ nothingPending p (run st es)
    /\ p ∉ launchedBy (run st es) inp.
Proof.
  intros es inp. revert st Hdown Hnone.
  induction es as [|e es IH]; intros st Hdown Hnone; simpl.
  - split_and!; try done. by apply unhealthy_not_launched.
  - destruct (step_keeps_tripped p st e Hdown Hnone) as (Hr & Hd & Hn).
    destruct (IH _ Hd Hn) as (Hq & Hd' & Hn' & Hl).
    split_and!; try done. by apply names_quiet.
Qed.

(** ** The cache across events *)








(** The entry a fresh answer writes is in the cache after the request
    when the clean-up reads the clock within the time to live. *)
Lemma POST_writes_entry (st : State) (diff : string) (inp : Inputs)
      (m : string) (a : DiffAnalysis) (p : string) :
  (POST st (Fields (Some diff)) inp).1 = FreshResponse m a p ->
  (in_nowClean inp - in_nowWrite inp <= CACHE_TTL)%Z ->
  responseCache (POST st (Fields (Some diff)) inp).2 !! generateCacheKey diff
  = Some (mkEntry m (in_nowWrite inp) a).
Proof.
  intros Hr Hc. destruct diff as [|c d]; [done|].
  destruct (POST_cases st c d inp)
    as [(e0 & _ & Hp)|[(o & _ & _ & Hp)|(l & _ & _ & Hp)]];
    rewrite Hp in Hr |- *; simpl in *; try done.
  injection Hr as <- <- <-. apply cleanup_lookup. simpl.
  split; [apply lookup_insert_eq|done].
Qed.

(** ** The local generator and the fallback *)

Lemma local_generator_nonempty (diff : string) (a : DiffAnalysis) :
  LocalGenerator.generateLocalPatternBasedCommit diff a <> EmptyString.
Proof.
  unfold LocalGenerator.generateLocalPatternBasedCommit.
  destruct (changeType a); try done.
  - unfold LocalGenerator.generateFeatureCommit. by case_match.
  - unfold LocalGenerator.generateBugFixCommit. by case_match.
Qed.

Lemma local_not_racer : "local" ∉ racers.
Proof. apply (bool_decide_unpack _). by vm_compute. Qed.

Lemma launchAll_no_throw (conds : list (string * option bool)) :
  Forall (fun g => is_Some g.2) conds -> (launchAll conds).2 = false.
Proof.
  induction 1 as [|[q g] conds [b Hb] _ IH]; simpl in *; [done|].
  subst g. destruct b; [|done]. by destruct (launchAll conds).
Qed.

Lemma condition_is_Some (key : bool) (h : option ProviderHealth) (cooled : bool) :
  is_Some h -> is_Some (condition key h cooled).
Proof. intros [x ->]. unfold condition. destruct key; eauto. Qed.

Lemma complete_no_throw (env : Env) (health : gmap string ProviderHealth)
      (cooldown : gmap string Z) (nowTs : Z) :
  healthComplete health ->
  (launchAll (launchConditions env health cooldown nowTs)).2 = false.
Proof.
  intros Hc. apply launchAll_no_throw. unfold healthComplete, racers in Hc.
  repeat (apply Forall_cons in Hc as [? Hc]).
  unfold launchConditions.
  repeat (apply List.Forall_cons; [by apply condition_is_Some|]).
  apply List.Forall_nil.
Qed.

(** With the five entries in place the race always comes to an outcome:
    the winner's text, or the text of the local generator when no
    launched task is fulfilled. *)
Lemma strategy_outcome (env : Env) (health : gmap string ProviderHealth)
      (cooldown : gmap string Z) (nowTs : Z) (runs : string -> TaskRun)
      (nowWin : Z) (diff : string) (a : DiffAnalysis) :
  healthComplete health ->
  exists o,
    executeIntelligentAIStrategy env health cooldown nowTs runs nowWin diff a
    = inl o
    /\ ((out_provider o = "local"
         /\ out_result o
            = LocalGenerator.generateLocalPatternBasedCommit diff a
         /\ Forall (fun p => task_result (executeWithRetry p diff (runs p)) = None)
                   (launchAll (launchConditions env health cooldown nowTs)).1)
        \/ (out_provider o ∈ racers
            /\ task_result (executeWithRetry (out_provider o) diff
                              (runs (out_provider o)))
               = Some (out_result o))).
Proof.
  intros Hc. pose proof (complete_no_throw env health cooldown nowTs Hc) as Hno.
  pose proof (launched_sublist env health cooldown nowTs) as Hsub.
  destruct (executeIntelligentAIStrategy env health cooldown nowTs runs nowWin
              diff a) as [o|late] eqn:E.
  - exists o. split; [done|].
    destruct (decide (out_provider o = "local")) as [Hl|Hw].
    + left. split; [done|]. revert E. unfold executeIntelligentAIStrategy.
      destruct (launchAll _) as [launched threw]. simpl in *. subst threw.
      destruct (raceLoop _) as [[rs w] late] eqn:R.
      destruct w as [[p result]|].
      * intros [= <-]. simpl in Hl. subst p.
        apply raceLoop_winner in R as (pre & t & Hsplit & _ & _ & Hp & _).
        assert (Ht : t ∈ map (fun p => executeWithRetry p diff (runs p)) launched).
        { rewrite <- (bySettlement_perm _), Hsplit.
          apply elem_of_app. right. left. }
        apply list_elem_of_fmap in Ht as (q & -> & Hq).
        rewrite retry_provider in Hp. subst q.
        apply (elem_of_sublist _ _ _ Hq) in Hsub.
        by apply local_not_racer in Hsub.
      * intros [= <-]. simpl. split; [done|].
        apply raceLoop_none in R as (Hall & _ & _).
        rewrite bySettlement_perm in Hall.
        by apply Forall_fmap in Hall.
    + right. destruct (strategy_winner _ _ _ _ _ _ _ _ _ E Hw) as (Hin & Hr & _).
      split; [|done]. exact (elem_of_sublist _ _ _ Hin Hsub).
  - revert E. unfold executeIntelligentAIStrategy.
    destruct (launchAll _) as [launched threw]. simpl in *. subst threw.
    destruct (raceLoop _) as [[rs [[p result]|]] late']; done.
Qed.

Lemma healthComplete_initial (t0 : Z) : healthComplete (initialHealth t0).
Proof. unfold healthComplete, racers. repeat constructor; by eexists. Qed.

Lemma healthComplete_run (es : list Event) (st : State) :
  healthComplete (providerHealth st) ->
  healthComplete (providerHealth (run st es)).
Proof.
  revert st. induction es as [|e es IH]; intros st Hc; simpl; [done|].
  apply IH. rewrite step_health. unfold healthComplete in *.
  eapply Forall_impl; [exact Hc|]. simpl. intros p Hp.
  by apply applyReports_is_Some.
Qed.

(** A request with a non-empty diff is answered with a message (never
    with an error) in every state that has the five provider entries;
    the message of the fallback is that of the local generator and is
    not empty. *)
Lemma POST_answers (st : State) (diff : string) (inp : Inputs) :
  healthComplete (providerHealth st) -> diff <> EmptyString ->
  exists m, messageOf (POST st (Fields (Some diff)) inp).1 = Some m.
Proof.
  intros Hc Hne. destruct diff as [|c d]; [done|].
  destruct (POST_cases st c d inp)
    as [(e0 & _ & ->)|[(o & _ & _ & ->)|(l & _ & Hr & _)]]; simpl; eauto.
  unfold raceOf in Hr.
  destruct (strategy_outcome (in_env inp) (providerHealth st)
              (providerCooldownUntil st) (in_nowTs inp) (in_runs inp)
              (in_nowWin inp) (safeDiffOf (String c d))
              (analyzeDiff (safeDiffOf (String c d))) Hc) as (o & Ho & _).
  congruence.
Qed.

Lemma POST_fallback_nonempty (st : State) (diff : string) (inp : Inputs)
      (m : string) (a : DiffAnalysis) :
  (POST st (Fields (Some diff)) inp).1 = FreshResponse m a "local" ->
  healthComplete (providerHealth st) ->
  m = LocalGenerator.generateLocalPatternBasedCommit (safeDiffOf diff)
        (analyzeDiff (safeDiffOf diff))
  /\ m <> EmptyString.
Proof.
  intros Hr Hc. destruct diff as [|c d]; [done|].
  destruct (POST_cases st c d inp)
    as [(e0 & _ & Hp)|[(o & _ & Ho & Hp)|(l & _ & _ & Hp)]];
    rewrite Hp in Hr; simpl in Hr; try done.
  injection Hr as <- <- Hl. unfold raceOf in Ho.
  destruct (strategy_outcome (in_env inp) (providerHealth st)
              (providerCooldownUntil st) (in_nowTs inp) (in_runs inp)
              (in_nowWin inp) (safeDiffOf (String c d))
              (analyzeDiff (safeDiffOf (String c d))) Hc)
    as (o' & Ho' & [(_ & Hres & _)|(Hin & _)]);
    rewrite Ho in Ho'; injection Ho' as <-.
  - rewrite Hres. split; [done|]. apply local_generator_nonempty.
  - rewrite Hl in Hin. by apply local_not_racer in Hin.
Qed.

(** The adapters of AIML and of both Hugging Face providers never
    return an empty text. *)
Lemma checked_adapters_nonempty (p diff : string) (replies : list Reply)
      (text : string) :
  p ∈ ["aiml"; "huggingface"; "freehf"] ->
  adapter p diff replies = Returned text -> text <> EmptyString.
Proof.
  intros Hp. unfold adapter.
  assert (Hhf : forall l, tryHuggingFaceModels l = Returned text -> text <> "").
  { induction l as [|r l IH]; simpl; [done|].
    destruct r as [| |b]; try done.
    destruct (Js.truthy (trimmedOrEmpty b)) eqn:T; [|done].
    intros [= <-]. by destruct (trimmedOrEmpty b). }
  assert (Hfr : forall l, tryFreeHuggingFace diff l = Returned text -> text <> "").
  { induction l as [|r l IH]; simpl; [done|].
    destruct r as [| |b]; try done.
    destruct (Js.truthy (trimmedOrEmpty b)); [|done].
    destruct (10 <? _)%nat eqn:L; [|done].
    intros [= <-]. intros Heq. rewrite Heq in L. done. }
  apply elem_of_cons in Hp as [->|Hp].
  { simpl. unfold tryAIML.
    destruct (default Threw (head replies)) as [| |b]; try done.
    destruct (Js.truthy (trimmedOrEmpty b)) eqn:T; [|done].
    intros [= <-]. by destruct (trimmedOrEmpty b). }
  apply elem_of_cons in Hp as [->|Hp]; [simpl; apply Hhf|].
  apply elem_of_cons in Hp as [->|Hp]; [simpl; apply Hfr|].
  by apply elem_of_nil in Hp.
Qed.

(** No event writes a cool-down: the dictionary stays as it was. *)
Lemma cooldown_never_set (es : list Event) (st : State) :
  providerCooldownUntil (run st es) = providerCooldownUntil st.
Proof.
  revert st. induction es as [|e es IH]; intros st; simpl; [done|].
  by rewrite IH, step_cooldown.
Qed.

(** ** A request as one event, and as the events it is made of *)

(** The tasks [ts] of a suspended request settle one after the other
    with nothing in between: what is left is what [raceLoop] and the
    rest of the handler make of them. *)
Lemma advance_through (diff : string) (inp : Inputs) (ts : list Task) :
  ts <> [] ->
  forall (st : State) (others : list Pending),
    pending st = others ++ [mkPending diff inp ts] ->
    exists n,
      run st (replicate n (Advance (length others)))
      = match raceLoop ts with
        | (reports, winner, late) =>
            let safeDiff := safeDiffOf diff in
            let message :=
              match winner with
              | Some (_, result) => result
              | None => LocalGenerator.generateLocalPatternBasedCommit
                          safeDiff (analyzeDiff safeDiff)
              end in
            let all :=
              match winner with
              | Some (provider, _) =>
                  reports ++ [mkReport provider true None (in_nowWin inp)]
              | None => reports
              end in
            mkState (applyReports all (providerHealth st))
                    (providerCooldownUntil st)
                    (cleanupCache (in_nowClean inp)
                       (<[generateCacheKey diff
                          := mkEntry message (in_nowWrite inp)
                                     (analyzeDiff safeDiff)]>
                          (responseCache st)))
                    (inflight st ++ late) others
        end.
Proof.
  induction ts as [|t rest IH]; [done|]. intros _ st others Hpd.
  assert (Hi : pending st !! length others = Some (mkPending diff inp (t :: rest)))
    by (rewrite Hpd; by apply list_lookup_middle).
  assert (Hdel : delete (length others) (pending st) = others)
    by (rewrite Hpd, delete_middle; apply app_nil_r).
  destruct (task_result t) as [result|] eqn:Et.
  - exists 1%nat. simpl. unfold advance. rewrite Hi. simpl. rewrite Et.
    unfold resume. simpl. rewrite Hdel. by rewrite applyReports_app.
  - destruct rest as [|u rest'].
    + exists 1%nat. simpl. unfold advance. rewrite Hi. simpl. rewrite Et.
      unfold resume. simpl. by rewrite Hdel, !app_nil_r.
    + set (st' := mkState (applyReports (task_reports t) (providerHealth st))
                          (providerCooldownUntil st) (responseCache st)
                          (inflight st)
                          (<[length others := mkPending diff inp (u :: rest')]>
                             (pending st))).
      assert (Hpd' : pending st' = others ++ [mkPending diff inp (u :: rest')]).
      { unfold st'. cbn [pending]. rewrite Hpd.
        rewrite insert_app_r_alt by lia. by rewrite Nat.sub_diag. }
      destruct (IH ltac:(done) st' others Hpd') as [n Hn].
      exists (S n).
      assert (Hstep : step st (Advance (length others)) = st').
      { simpl. unfold advance. rewrite Hi. simpl. by rewrite Et. }
      change (run st (replicate (S n) (Advance (length others))))
        with (run (step st (Advance (length others)))
                  (replicate n (Advance (length others)))).
      rewrite Hstep, Hn.
      change (raceLoop (t :: u :: rest'))
        with (match task_result t with
              | Some result =>
                  (task_reports t, Some (task_provider t, result), u :: rest')
              | None =>
                  let '(rs, w, late) := raceLoop (u :: rest') in
                  (task_reports t ++ rs, w, late)
              end).
      rewrite Et.
      destruct (raceLoop (u :: rest')) as [[rs w] late].
      unfold st'.
      cbn [providerHealth providerCooldownUntil responseCache inflight].
      destruct w as [[p result]|]; cbv zeta;
        by rewrite <- ?app_assoc, (applyReports_app (task_reports t)).
Qed.

(** The state after a request that would be suspended, when it is
    handled as one event. *)
Lemma POST_suspended (st : State) (body : ReqBody) (inp : Inputs)
      (pd : Pending) :
  awaited st body inp = Some pd ->
  (POST st body inp).2
  = match raceLoop (pd_tasks pd) with
    | (reports, winner, late) =>
        let safeDiff := safeDiffOf (pd_diff pd) in
        let message :=
          match winner with
          | Some (_, result) => result
          | None => LocalGenerator.generateLocalPatternBasedCommit
                      safeDiff (analyzeDiff safeDiff)
          end in
        let all :=
          match winner with
          | Some (provider, _) =>
              reports ++ [mkReport provider true None (in_nowWin inp)]
          | None => reports
          end in
        mkState (applyReports all (providerHealth st))
                (providerCooldownUntil st)
                (cleanupCache (in_nowClean inp)
                   (<[generateCacheKey (pd_diff pd)
                      := mkEntry message (in_nowWrite inp)
                                 (analyzeDiff safeDiff)]>
                      (responseCache st)))
                (inflight st ++ late) (pending st)
    end.
Proof.
  destruct body as [|[[|c d]|]| |[| |]]; try done.
  unfold awaited, POST.
  destruct (freshEntry _ _ _); [done|].
  unfold launchedTasks, raceOf, executeIntelligentAIStrategy.
  destruct (launchAll _) as [launched threw].
  destruct threw; [done|].
  destruct (bySettlement _) as [|t ts]; [done|].
  intros [= <-]. cbn [pd_tasks pd_diff].
  destruct (raceLoop (t :: ts)) as [[rs w] late].
  by destruct w as [[p result]|].
Qed.

(** A request that no other event overlaps: handling it as one event is
    its arrival followed by the settlements of its tasks, in the order
    in which they settle. *)
Lemma request_as_events (st : State) (body : ReqBody) (inp : Inputs) :
  exists n,
    run st (Arrive body inp :: replicate n (Advance (length (pending st))))
    = step st (Request body inp).
Proof.
  destruct (awaited st body inp) as [pd|] eqn:E.
  - pose proof (POST_suspended st body inp pd E) as Hpost.
    pose proof E as E'.
    apply awaited_Some in E' as (c & d & _ & _ & Hpd & _ & Hne).
    destruct pd as [df ip ts]. injection Hpd as -> -> _.
    cbn [pd_tasks pd_diff] in *.
    set (st' := mkState (providerHealth st) (providerCooldownUntil st)
                        (responseCache st) (inflight st)
                        (pending st ++ [mkPending (String c d) inp ts])).
    destruct (advance_through (String c d) inp ts Hne st' (pending st) eq_refl)
      as [n Hn].
    exists n.
    change (run st (Arrive body inp
                    :: replicate n (Advance (length (pending st)))))
      with (run (step st (Arrive body inp))
                (replicate n (Advance (length (pending st))))).
    assert (Hstep : step st (Arrive body inp) = st')
      by (cbn [step]; by rewrite E).
    rewrite Hstep, Hn. cbn [step]. by rewrite Hpost.
  - exists 0%nat. simpl. by rewrite E.
Qed.

(** ** The analyzer *)

Lemma classify_first (tst : ChangeType -> bool) (pre post : list ChangeType)
      (t : ChangeType) (acc : ChangeType * Q) :
  (forall u, u ∈ pre -> tst u = false) -> tst t = true ->
  classify tst (pre ++ t :: post) acc
  = (t, Qmin (9 # 10) (snd acc + (3 # 10))).
Proof.
  intros Hpre Ht. induction pre as [|u pre IH]; simpl.
  - by rewrite Ht.
  - rewrite (Hpre u) by left. apply IH. intros v Hv. apply Hpre. by right.
Qed.

Lemma classify_none (tst : ChangeType -> bool) (order : list ChangeType)
      (acc : ChangeType * Q) :
  (forall u, u ∈ order -> tst u = false) -> classify tst order acc = acc.
Proof.
  intros Hall. induction order as [|u order IH]; simpl; [done|].
  rewrite (Hall u) by left. apply IH. intros v Hv. apply Hall. by right.
Qed.

Lemma analyzeDiff_classify (diff : string) :
  (changeType (analyzeDiff diff), confidence (analyzeDiff diff))
  = classify (patternTest (Js.toLowerCase diff)) priorityOrder (chore, 1 # 2).
Proof.
  unfold analyzeDiff.
  by destruct (classify (patternTest (Js.toLowerCase diff)) priorityOrder
                        (chore, 1 # 2)).
Qed.

(** C4: first match wins.  The patterns are tried in the order feature,
    bugFix, security, performance, refactor, styling, test, docs,
    config, database, api against the lower-cased diff.  The first type
    whose pattern matches is the change type, whatever the patterns
    after it do (any test that agrees with the patterns up to that type
    gives the same result); so a diff that matches the feature pattern
    is a feature also when it matches the database pattern, and a diff
    that matches no pattern is a chore. *)
Theorem C4_first_match_wins (diff : string) :
  let matches := patternTest (Js.toLowerCase diff) in
  priorityOrder = [feature; bugFix; security; performance; refactor; styling;
                   test; docs; config; database; api]
  /\ (forall pre t post,
        priorityOrder = pre ++ t :: post ->
        (forall u, u ∈ pre -> matches u = false) ->
        matches t = true ->
        changeType (analyzeDiff diff) = t
        /\ forall other : ChangeType -> bool,
             (forall u, u ∈ pre ++ [t] -> other u = matches u) ->
             fst (classify other priorityOrder (chore, 1 # 2)) = t)
  /\ (matches feature = true -> matches database = true ->
      changeType (analyzeDiff diff) = feature)
  /\ ((forall u, u ∈ priorityOrder -> matches u = false) ->
      changeType (analyzeDiff diff) = chore).
Proof.
  intros matches.
  assert (Hty : changeType (analyzeDiff diff)
                = fst (classify matches priorityOrder (chore, 1 # 2)))
    by (unfold matches; by rewrite <- analyzeDiff_classify).
  split; [done|]. split; [|split].
  - intros pre t post Hsplit Hpre Ht. rewrite Hty, Hsplit. split.
    + by rewrite classify_first.
    + intros other Hagree. rewrite classify_first; [done| |].
      * intros u Hu. rewrite Hagree; [by apply Hpre|].
        apply elem_of_app. by left.
      * rewrite Hagree; [done|]. apply elem_of_app. right. left.
  - intros Hf _. rewrite Hty.
    change priorityOrder with ([] ++ feature :: tail priorityOrder).
    rewrite classify_first; [done| |done]. by intros u ?%elem_of_nil.
  - intros Hnone. rewrite Hty. by rewrite classify_none.
Qed.

(** ** The defects, evaluated *)

(** C1: a request with a non-empty diff answered with an empty message.
    From the initial state, with only the Gemini credential set, Gemini
    answers 200 with a body that has no text and the free Hugging Face
    models are unavailable: the request for [typoDiff] is answered
    with the empty message, attributed to gemini (and not with the
    message of the local generator, which is never empty). *)
Theorem C1_empty_message_served :
  typoDiff <> EmptyString
  /\ healthComplete (providerHealth (initialState 0))
  /\ (POST (initialState 0) (Fields (Some typoDiff)) emptyInputs).1
     = FreshResponse EmptyString (analyzeDiff (safeDiffOf typoDiff)) "gemini"
  /\ messageOf (POST (initialState 0) (Fields (Some typoDiff)) emptyInputs).1
     = Some EmptyString.
Proof.
  split; [done|]. split; [apply healthComplete_initial|].
  split; by vm_compute.
Qed.

(** C3: a task that resolves with the empty string wins the race.  The
    adapters of Gemini and OpenAI turn a body without text (or with
    blank text) into the empty string, the retry executor fulfils its
    promise with it, and the coordinator returns it as the result. *)
Theorem C3_empty_text_wins :
  tryGemini (Ok NoText) = Returned EmptyString
  /\ tryGemini (Ok (Text "   ")) = Returned EmptyString
  /\ tryOpenAI (Ok NoText) = Returned EmptyString
  /\ task_result (executeWithRetry "gemini" (safeDiffOf typoDiff)
                    (emptyRuns "gemini")) = Some EmptyString
  /\ exists o,
       executeIntelligentAIStrategy geminiOnly (initialHealth 0) ∅ 1000
         emptyRuns 1700 (safeDiffOf typoDiff) (analyzeDiff (safeDiffOf typoDiff))
       = inl o
       /\ out_provider o = "gemini" /\ out_result o = EmptyString.
Proof.
  split_and!; try by vm_compute.
  eexists. split; [by vm_compute|]. by split.
Qed.

(** C6: a rate-limited provider is put on no cool-down.  From the
    initial state, with only the OpenAI credential set, OpenAI answers
    429 to both attempts: the request falls back to the local
    generator, the cool-down dictionary is still empty afterwards, and
    the request that arrives 100 ms later launches openai again. *)
Theorem C6_rate_limit_sets_no_cooldown :
  let st1 := (POST (initialState 0) (Fields (Some typoDiff)) limitedInputs).2 in
  tryOpenAI (NotOk 429) = Thrown
  /\ launchedBy (initialState 0) limitedInputs = ["freehf"; "openai"]
  /\ providerCooldownUntil st1 = ∅
  /\ (in_nowTs nextInputs - in_nowWin limitedInputs = 100)%Z
  /\ launchedBy st1 nextInputs = ["freehf"; "openai"].
Proof.
  intros st1. split; [done|]. split; [by vm_compute|].
  split; [|split; by vm_compute].
  unfold st1. change (POST (initialState 0) (Fields (Some typoDiff)) limitedInputs).2
    with (run (initialState 0) [Request (Fields (Some typoDiff)) limitedInputs]).
  by rewrite cooldown_never_set.
Qed.

(** The cool-down that is read.  Only the launch of openai consults the
    dictionary: a cool-down of openai that lies ahead keeps it out of
    the race, a cool-down of another provider does not. *)
Lemma openai_cooled_not_launched (st : State) (inp : Inputs) (c : Z) :
  providerCooldownUntil st !! "openai" = Some c ->
  (0 <= in_nowTs inp < c)%Z ->
  "openai" ∉ launchedBy st inp.
Proof.
  intros Hc Hnow Hin. apply launchAll_elem in Hin. unfold launchConditions in Hin.
  repeat (apply elem_of_cons in Hin as [Hin|Hin]; [by inversion Hin|]).
  apply elem_of_cons in Hin as [Hin|Hin]; [|by apply elem_of_nil in Hin].
  pose proof (f_equal snd Hin) as Hg. cbn [snd] in Hg. symmetry in Hg.
  apply condition_true in Hg as (_ & _ & Hcool). unfold notCooled in Hcool.
  rewrite Hc in Hcool. apply orb_prop in Hcool as [H0|Hlt].
  - apply Z.eqb_eq in H0. lia.
  - apply Z.ltb_lt in Hlt. lia.
Qed.

Lemma gemini_cooled_still_launched :
  launchedBy (mkState (initialHealth 0) {["gemini" := 9000%Z]} ∅ [] [])
             emptyInputs
  = ["gemini"; "freehf"].
Proof. by vm_compute. Qed.


(** ** Counterexamples to the claims as they are worded *)


(** C10 as worded fails: the flag of Hugging Face falls while a task of
    it, launched by an earlier request, is still in flight; no request
    launches it then; the task settles with a success, the flag is up
    again and the next request launches the provider. *)
Lemma C10_counterexample :
  let tripped := run (initialState 0) trippingTrace in
  let settled := run (initialState 0) settledTrace in
  healthyIn tripped "huggingface" = Some false
  /\ launchedBy tripped laterInputs = ["freehf"]
  /\ map task_provider (inflight tripped) = ["huggingface"]
  /\ stepReports tripped (Settle 0)
     = [mkReport "huggingface" true (Some 45000%Z) 46000]
  /\ settled = step tripped (Settle 0)
  /\ healthyIn settled "huggingface" = Some true
  /\ launchedBy settled laterInputs = ["huggingface"; "freehf"].
Proof. by vm_compute. Qed.

(** ** The theorems at concrete inputs *)


Lemma C4_first_match_wins_witness :
  changeType (analyzeDiff featureAndDatabaseDiff) = feature
  /\ changeType (analyzeDiff "zzz") = chore.
Proof.
  destruct (C4_first_match_wins featureAndDatabaseDiff) as (_ & _ & Hboth & _).
  destruct (C4_first_match_wins "zzz") as (_ & _ & _ & Hnone).
  split.
  - apply Hboth; by vm_compute.
  - apply Hnone.
    intros u Hu. unfold priorityOrder in Hu.
    repeat (apply elem_of_cons in Hu as [->|Hu]; [by vm_compute|]).
    by apply elem_of_nil in Hu.
Defined.

Lemma C5_circuit_breaker_witness :
  let later := run trippedState [failingRequest "+const e = 5" 20000] in
  providerHealth trippedState !! "huggingface" = Some trippedEntry
  /\ ("huggingface" ∉ launchedBy later laterInputs)
  /\ ("huggingface" ∉ racedProviders (raceOf later "+const f = 6" laterInputs)).
Proof.
  cbv zeta.
  assert (Hh : providerHealth trippedState !! "huggingface" = Some trippedEntry)
    by (vm_compute; reflexivity).
  destruct (C5_circuit_breaker trippedState "huggingface" trippedEntry Hh)
    as (_ & _ & _ & _ & Hstay).
  destruct (Hstay eq_refl [failingRequest "+const e = 5" 20000] laterInputs)
    as (Hout & Hrace & _).
  { vm_compute. split; reflexivity. }
  split_and!; [exact Hh|exact Hout|apply Hrace].
Defined.



Lemma C10_tripped_stays_tripped_witness :
  healthyIn (run trippedState [failingRequest "+const e = 5" 20000; Settle 0])
            "huggingface" = Some false
  /\ "huggingface"
     ∉ launchedBy (run trippedState [failingRequest "+const e = 5" 20000; Settle 0])
                  laterInputs.
Proof.
  assert (Hdown : healthyIn trippedState "huggingface" = Some false)
    by (by vm_compute).
  assert (Hnone : nothingPending "huggingface" trippedState)
    by (vm_compute; split; constructor).
  destruct (C10_tripped_stays_tripped "huggingface" trippedState Hdown Hnone
              [failingRequest "+const e = 5" 20000; Settle 0] laterInputs)
    as (_ & Hflag & _ & Hout).
  by split.
Defined.

(** ** Regular expressions: the matcher against what it matches *)

Import Re ReSpec.

Lemma append_cons (x : ascii) (a b : string) :
  String x a +:+ b = String x (a +:+ b).
Proof. reflexivity. Qed.

Lemma append_nil_l (b : string) : EmptyString +:+ b = b.
Proof. reflexivity. Qed.

Ltac sapp := rewrite ?append_cons, ?append_nil_l.

Lemma append_assoc_s (a b c : string) : (a +:+ b) +:+ c = a +:+ (b +:+ c).
Proof. induction a as [|x a IH]; sapp; [done|]. by rewrite IH. Qed.

Lemma append_nil_r_s (a : string) : a +:+ EmptyString = a.
Proof. induction a as [|x a IH]; sapp; [done|]. by rewrite IH. Qed.

Lemma len_append (a b : string) : Js.len (a +:+ b) = (Js.len a + Js.len b)%nat.
Proof.
  induction a as [|x a IH]; sapp; [done|].
  unfold Js.len in *. simpl. by rewrite IH.
Qed.

Lemma len_zero (a : string) : Js.len a = 0%nat -> a = EmptyString.
Proof. by destruct a. Qed.

Section MatcherTheory.
Variable ci : bool.
Variable A : Type.

Lemma starLoop_sound (r : regex)
      (step : string -> (string -> option A) -> option A)
      (k : string -> option A) :
  (forall s k' a, step s k' = Some a ->
     exists m rest, s = m +:+ rest /\ Matches ci r m /\ k' rest = Some a) ->
  forall fuel s a,
    Re.starLoop step k fuel s = Some a ->
    exists m rest, s = m +:+ rest /\ Matches ci (Star r) m /\ k rest = Some a.
Proof.
  intros Hstep. induction fuel as [|fuel IH]; intros s a; simpl.
  - intros Hk. exists EmptyString, s. split_and!; [done|constructor|done].
  - destruct (step s _) as [a0|] eqn:E.
    + intros [= ->]. apply Hstep in E as (m1 & s' & -> & Hm1 & Hk').
      destruct (Js.len s' <? Js.len (m1 +:+ s'))%nat eqn:L; [|done].
      apply Nat.ltb_lt in L. rewrite len_append in L.
      apply IH in Hk' as (m2 & rest & -> & Hm2 & Hk).
      exists (m1 +:+ m2), rest. split_and!; [by rewrite append_assoc_s| |done].
      constructor; [done| |done]. intros ->.
      unfold Js.len in L. simpl in L. lia.
    + intros Hk. exists EmptyString, s. split_and!; [done|constructor|done].
Qed.

Lemma run_sound (r : regex) :
  forall s (k : string -> option A) a,
    Re.run ci r s k = Some a ->
    exists m rest, s = m +:+ rest /\ Matches ci r m /\ k rest = Some a.
Proof.
  induction r as [|c|p|r1 IH1 r2 IH2|r1 IH1 r2 IH2|r1 IH1]; intros s k a; simpl.
  - intros Hk. exists EmptyString, s. split_and!; [done|constructor|done].
  - destruct s as [|x s']; [done|]. destruct (Re.chr_ok ci c x) eqn:E; [|done].
    intros Hk. exists (String x EmptyString), s'.
    split_and!; [done|by constructor|done].
  - destruct s as [|x s']; [done|]. destruct (Re.cls_ok ci p x) eqn:E; [|done].
    intros Hk. exists (String x EmptyString), s'.
    split_and!; [done|by constructor|done].
  - intros H. apply IH1 in H as (m1 & rest1 & -> & Hm1 & H).
    apply IH2 in H as (m2 & rest & -> & Hm2 & Hk).
    exists (m1 +:+ m2), rest. split_and!; [by rewrite append_assoc_s| |done].
    by constructor.
  - destruct (Re.run ci r1 s k) as [a1|] eqn:E.
    + intros [= ->]. apply IH1 in E as (m & rest & -> & Hm & Hk).
      exists m, rest. split_and!; [done|by apply MAltL|done].
    + intros H. apply IH2 in H as (m & rest & -> & Hm & Hk).
      exists m, rest. split_and!; [done|by apply MAltR|done].
  - apply starLoop_sound. intros s0 k' a0. apply IH1.
Qed.

Lemma starLoop_nil (step : string -> (string -> option A) -> option A)
      (k : string -> option A) (fuel : nat) (s : string) :
  is_Some (k s) -> is_Some (Re.starLoop step k fuel s).
Proof. intros Hk. destruct fuel; simpl; [done|]. by destruct (step s _). Qed.

Lemma run_complete (r : regex) (m : string) :
  Matches ci r m ->
  (forall rest (k : string -> option A),
     is_Some (k rest) -> is_Some (Re.run ci r (m +:+ rest) k))
  /\ (forall r1, r = Star r1 ->
      forall fuel rest (k : string -> option A),
        (Js.len (m +:+ rest) <= fuel)%nat -> is_Some (k rest) ->
        is_Some (Re.starLoop (Re.run ci r1) k fuel (m +:+ rest))).
Proof.
  induction 1 as [|c x Hx|p x Hx|r1 r2 m1 m2 H1 [IH1 _] H2 [IH2 _]
                  |r1 r2 m H1 [IH1 _]|r1 r2 m H2 [IH2 _]
                  |r1|r1 m1 m2 H1 [IH1 _] Hne H2 [_ IH2]].
  - split; [|done]. intros rest k Hk. exact Hk.
  - split; [|done]. intros rest k Hk. sapp. simpl. by rewrite Hx.
  - split; [|done]. intros rest k Hk. sapp. simpl. by rewrite Hx.
  - split; [|done]. intros rest k Hk. simpl. rewrite append_assoc_s.
    apply IH1. by apply IH2.
  - split; [|done]. intros rest k Hk. simpl.
    destruct (IH1 rest k Hk) as [a ->]. eauto.
  - split; [|done]. intros rest k Hk. simpl.
    destruct (Re.run ci r1 (m +:+ rest) k); [eauto|]. by apply IH2.
  - split.
    + intros rest k Hk. sapp. simpl. by apply starLoop_nil.
    + intros r [= <-] fuel rest k _ Hk. sapp. by apply starLoop_nil.
  - assert (Hloop : forall fuel rest (k : string -> option A),
               (Js.len ((m1 +:+ m2) +:+ rest) <= fuel)%nat -> is_Some (k rest) ->
               is_Some (Re.starLoop (Re.run ci r1) k fuel ((m1 +:+ m2) +:+ rest))).
    { intros fuel rest k Hfuel Hk. rewrite append_assoc_s in *.
      rewrite len_append in Hfuel.
      assert (Hpos : (0 < Js.len m1)%nat).
      { destruct m1; [done|]. unfold Js.len. simpl. lia. }
      destruct fuel as [|fuel]; [lia|]. simpl.
      match goal with
      | |- is_Some (match ?e with _ => _ end) =>
          assert (Hstep : is_Some e); [|by destruct Hstep as [a ->]]
      end.
      apply IH1.
      assert (L : (Js.len (m2 +:+ rest) <? Js.len (m1 +:+ m2 +:+ rest))%nat = true)
        by (apply Nat.ltb_lt; rewrite (len_append m1); lia).
      rewrite L. apply (IH2 r1 eq_refl); [lia|done]. }
    split.
    + intros rest k Hk. simpl. by apply Hloop.
    + intros r [= <-]. apply Hloop.
Qed.

End MatcherTheory.

Lemma matchAt_Some (ci : bool) (r : regex) (s : string) (n : nat) :
  Re.matchAt ci r s = Some n ->
  exists m, Matches ci r m /\ beginsWith m s /\ n = Js.len m.
Proof.
  unfold Re.matchAt. intros H.
  apply run_sound in H as (m & rest & -> & Hm & [= <-]).
  exists m. split_and!; [done|by exists rest|]. rewrite len_append. lia.
Qed.

Lemma matchAt_None (ci : bool) (r : regex) (s m : string) :
  Re.matchAt ci r s = None -> Matches ci r m -> ~ beginsWith m s.
Proof.
  intros Hnone Hm [rest ->]. unfold Re.matchAt in Hnone.
  destruct (run_complete ci nat r m Hm) as [Hc _].
  destruct (Hc rest (fun rest0 => Some (Js.len (m +:+ rest) - Js.len rest0)%nat))
    as [a Ha]; [by eexists|].
  congruence.
Qed.

(** ** What a match is made of *)

Lemma allChars_complete (x : ascii) : In x allChars.
Proof.
  unfold allChars. rewrite <- (ascii_nat_embedding x).
  apply in_map, in_seq. pose proof (nat_ascii_bounded x). lia.
Qed.

Lemma allOk_append (ok : ascii -> bool) (a b : string) :
  allOk ok (a +:+ b) = allOk ok a && allOk ok b.
Proof.
  induction a as [|x a IH]; sapp; simpl; [done|].
  by rewrite IH, andb_assoc.
Qed.

Lemma consumesOnly_allOk (ci : bool) (ok : ascii -> bool) (r : regex)
      (m : string) :
  Matches ci r m -> consumesOnly ci ok r = true -> allOk ok m = true.
Proof.
  induction 1 as [|c x Hx|p x Hx|r1 r2 m1 m2 H1 IH1 H2 IH2
                  |r1 r2 m H1 IH1|r1 r2 m H2 IH2
                  |r1|r1 m1 m2 H1 IH1 Hne H2 IH2];
    intros Hc; cbn [consumesOnly] in Hc; try done.
  - rewrite forallb_forall in Hc. specialize (Hc x (allChars_complete x)).
    rewrite Hx in Hc. simpl in Hc. simpl. by rewrite Hc.
  - rewrite forallb_forall in Hc. specialize (Hc x (allChars_complete x)).
    rewrite Hx in Hc. simpl in Hc. simpl. by rewrite Hc.
  - apply andb_prop in Hc as [Hc1 Hc2].
    by rewrite allOk_append, IH1, IH2.
  - apply andb_prop in Hc as [Hc1 _]. auto.
  - apply andb_prop in Hc as [_ Hc2]. auto.
  - rewrite allOk_append, IH1 by done. simpl. by apply IH2.
Qed.

Lemma minLen_le (ci : bool) (r : regex) (m : string) :
  Matches ci r m -> (minLen r <= Js.len m)%nat.
Proof.
  induction 1; simpl; rewrite ?len_append; unfold Js.len in *; simpl; lia.
Qed.

Lemma okRun_begins (ok : ascii -> bool) (m s : string) :
  allOk ok m = true -> beginsWith m s -> (Js.len m <= okRun ok s)%nat.
Proof.
  intros Hm [rest ->]. induction m as [|x m IH]; sapp; simpl.
  - unfold Js.len. simpl. lia.
  - simpl in Hm. apply andb_prop in Hm as [-> Hm].
    specialize (IH Hm). unfold Js.len in *. simpl. lia.
Qed.

(** A match needs a run of [ok] characters as long as the shortest
    match. *)
Lemma short_run_no_match (ci : bool) (ok : ascii -> bool) (r : regex)
      (s : string) :
  consumesOnly ci ok r = true ->
  (okRun ok s < minLen r)%nat ->
  Re.matchAt ci r s = None.
Proof.
  intros Hc Hshort. destruct (Re.matchAt ci r s) as [n|] eqn:E; [|done].
  apply matchAt_Some in E as (m & Hm & Hb & _).
  pose proof (minLen_le _ _ _ Hm).
  pose proof (okRun_begins ok m s (consumesOnly_allOk _ _ _ _ Hm Hc) Hb). lia.
Qed.

Lemma okRun_append (ok : ascii -> bool) (u t : string) :
  (okRun ok u < Js.len u)%nat -> okRun ok (u +:+ t) = okRun ok u.
Proof.
  induction u as [|x u IH]; sapp; simpl.
  - unfold Js.len. simpl. lia.
  - unfold Js.len in *. simpl. destruct (ok x); [|done].
    intros H. rewrite IH; [done|lia].
Qed.

Lemma test_cons (ci : bool) (r : regex) (c : ascii) (t : string) :
  Re.test ci r (String c t) = false
  <-> Re.matchAt ci r (String c t) = None /\ Re.test ci r t = false.
Proof.
  simpl. destruct (Re.matchAt ci r (String c t)); [|tauto].
  split; [done|]. by intros [? _].
Qed.

Lemma test_nil (ci : bool) (r : regex) :
  Re.test ci r EmptyString = false <-> Re.matchAt ci r EmptyString = None.
Proof. simpl. by destruct (Re.matchAt ci r EmptyString). Qed.

(** No match is found in a text that has none, after the marker is put
    in front of it. *)
Lemma sealed_prefix_clean (ci : bool) (ok : ascii -> bool) (r : regex)
      (rep t : string) :
  consumesOnly ci ok r = true ->
  sealedFrom ok (minLen r) rep = true ->
  Re.test ci r t = false ->
  Re.test ci r (rep +:+ t) = false.
Proof.
  intros Hc Hs Ht. induction rep as [|x u IH]; sapp; [done|].
  simpl in Hs. apply andb_prop in Hs as [Hs Hu].
  apply andb_prop in Hs as [Hin Hn].
  apply Nat.ltb_lt in Hin. apply Nat.ltb_lt in Hn.
  apply test_cons. split; [|by apply IH].
  apply (short_run_no_match ci ok); [done|].
  rewrite <- append_cons. by rewrite okRun_append.
Qed.

Section Replace.
Variable ci : bool.
Variables (ok : ascii -> bool) (r r2 : regex) (rep : string).
Hypothesis Hconsumes : consumesOnly ci ok r = true.
Hypothesis Hsealed : sealed ok (minLen r) rep = true.
Hypothesis Hlong : (1 <= minLen r)%nat.
Hypothesis Hlong2 : (1 <= minLen r2)%nat.

Lemma marker_blocks (m t : string) :
  allOk ok m = true -> beginsWith m (rep +:+ t) -> m = EmptyString.
Proof using All.
  intros Hm [rest Hrest]. unfold sealed in Hsealed.
  apply andb_prop in Hsealed as [Hs _]. apply andb_prop in Hs as [H0 Hne].
  apply Nat.eqb_eq in H0. destruct rep as [|b u]; [done|].
  destruct m as [|x m]; [done|]. revert Hrest. sapp. intros [= <- _].
  simpl in H0, Hm. apply andb_prop in Hm as [Hx _]. by rewrite Hx in H0.
Qed.

(** What is copied: a run of [ok] characters at the start of the
    replaced text stands at the start of the original text. *)
Lemma replace_copies (t m : string) :
  allOk ok m = true ->
  beginsWith m (Re.replaceFrom ci r2 rep t 0) -> beginsWith m t.
Proof using All.
  revert m. induction t as [|c t IH]; intros m Hm; simpl.
  - destruct (Re.matchAt ci r2 EmptyString).
    + intros Hb. rewrite <- (append_nil_r_s rep) in Hb.
      apply marker_blocks in Hb; [|done]. subst. by exists EmptyString.
    + intros [rest Hrest]. destruct m; [by exists EmptyString|done].
  - destruct (Re.matchAt ci r2 (String c t)) as [[|n]|].
    + intros Hb. apply marker_blocks in Hb; [|done]. subst. by eexists.
    + intros Hb. apply marker_blocks in Hb; [|done]. subst. by eexists.
    + intros [rest Hrest]. destruct m as [|x m]; [by eexists|].
      revert Hrest. sapp. intros [= <- Hrest]. simpl in Hm.
      apply andb_prop in Hm as [_ Hm].
      destruct (IH m Hm) as [rest' ->]; [by exists rest|].
      exists rest'. by sapp.
Qed.

(** Replacing the matches of [r2] leaves no match of [r], when every
    place of the text without a match of [r2] has no match of [r]
    either. *)
Lemma replace_clean (t : string) :
  (forall pre u, t = pre +:+ u ->
     Re.matchAt ci r2 u = None -> Re.matchAt ci r u = None) ->
  forall skip, Re.test ci r (Re.replaceFrom ci r2 rep t skip) = false.
Proof using All.
  assert (Hsf : sealedFrom ok (minLen r) rep = true).
  { unfold sealed in Hsealed. by apply andb_prop in Hsealed as [_ ?]. }
  assert (Hnil : Re.test ci r EmptyString = false).
  { apply test_nil, (short_run_no_match ci ok); [done|simpl; lia]. }
  induction t as [|c t IH]; intros Hkeep skip; simpl.
  - destruct skip; [|done]. destruct (Re.matchAt ci r2 EmptyString); [|done].
    rewrite <- (append_nil_r_s rep). by apply (sealed_prefix_clean ci ok).
  - assert (Hkeep' : forall pre u, t = pre +:+ u ->
              Re.matchAt ci r2 u = None -> Re.matchAt ci r u = None).
    { intros pre u -> Hu. apply (Hkeep (String c pre) u); [by sapp|done]. }
    destruct skip as [|n]; [|by apply IH].
    destruct (Re.matchAt ci r2 (String c t)) as [[|n]|] eqn:E.
    + apply matchAt_Some in E as (m & Hm & _ & Hlen).
      pose proof (minLen_le _ _ _ Hm). lia.
    + apply (sealed_prefix_clean ci ok); [done|done|]. by apply IH.
    + apply test_cons. split; [|by apply IH].
      destruct (Re.matchAt ci r (String c (Re.replaceFrom ci r2 rep t 0)))
        as [n|] eqn:E'; [|done].
      apply matchAt_Some in E' as (m & Hm & Hb & _).
      assert (Hok : allOk ok m = true)
        by (by eapply consumesOnly_allOk).
      assert (Hb' : beginsWith m (String c t)).
      { destruct m as [|x m]; [by eexists|].
        destruct Hb as [rest Hrest]. revert Hrest. sapp. intros [= <- Hrest].
        simpl in Hok. apply andb_prop in Hok as [_ Hok].
        destruct (replace_copies t m Hok) as [rest' ->]; [by exists rest|].
        exists rest'. by sapp. }
      exfalso. eapply matchAt_None; [|exact Hm|exact Hb'].
      by apply (Hkeep EmptyString (String c t)).
Qed.

End Replace.

Lemma test_suffix (ci : bool) (r : regex) (pre u : string) :
  Re.test ci r (pre +:+ u) = false -> Re.matchAt ci r u = None.
Proof.
  induction pre as [|x pre IH]; sapp.
  - destruct u; [by intros ?%test_nil|by intros [? _]%test_cons].
  - intros [_ H]%test_cons. auto.
Qed.

Lemma take_begins (n : nat) (t : string) : beginsWith (Js.take n t) t.
Proof.
  revert n. induction t as [|c t IH]; intros [|n]; simpl; try by eexists.
  destruct (IH n) as [rest Hrest]. exists rest. sapp. by rewrite <- Hrest.
Qed.

Lemma begins_trans (a b c : string) :
  beginsWith a b -> beginsWith b c -> beginsWith a c.
Proof.
  intros [r1 ->] [r2 ->]. exists (r1 +:+ r2). by rewrite append_assoc_s.
Qed.

(** No match appears by cutting the text short. *)
Lemma take_clean (ci : bool) (r : regex) (n : nat) (t : string) :
  Re.test ci r t = false -> Re.test ci r (Js.take n t) = false.
Proof.
  assert (Hat : forall n t, Re.matchAt ci r t = None ->
                            Re.matchAt ci r (Js.take n t) = None).
  { intros n0 t0 Hnone.
    destruct (Re.matchAt ci r (Js.take n0 t0)) as [k|] eqn:E; [|done].
    apply matchAt_Some in E as (m & Hm & Hb & _).
    exfalso. eapply matchAt_None; [exact Hnone|exact Hm|].
    eapply begins_trans; [exact Hb|apply take_begins]. }
  revert n. induction t as [|c t IH]; intros n Ht.
  - destruct n; simpl; exact Ht.
  - apply test_cons in Ht as [Hc Ht]. destruct n as [|n].
    + simpl. apply test_nil. apply (Hat 0%nat (String c t) Hc).
    + change (Js.take (S n) (String c t)) with (String c (Js.take n t)).
      apply test_cons. split; [|by apply IH].
      apply (Hat (S n) (String c t) Hc).
Qed.

(** ** The sanitizer *)

Lemma assignment_facts :
  consumesOnly true notBracket assignmentPattern = true
  /\ minLen assignmentPattern = 20%nat
  /\ sealed notBracket (minLen assignmentPattern) marker = true.
Proof. by vm_compute. Qed.

Lemma bearer_facts :
  consumesOnly true notBracket bearerPattern = true
  /\ minLen bearerPattern = 23%nat
  /\ sealed notBracket (minLen bearerPattern) marker = true.
Proof. by vm_compute. Qed.

Lemma redactSecrets_unfold (s : string) :
  redactSecrets s
  = Re.replaceAll true bearerPattern marker
      (Re.replaceAll true assignmentPattern marker s).
Proof. reflexivity. Qed.

(** Nothing in the redacted text matches a secret pattern. *)
Lemma redactSecrets_clean (s : string) :
  Re.test true assignmentPattern (redactSecrets s) = false
  /\ Re.test true bearerPattern (redactSecrets s) = false.
Proof.
  destruct assignment_facts as (Ha1 & Ha2 & Ha3).
  destruct bearer_facts as (Hb1 & Hb2 & Hb3).
  rewrite redactSecrets_unfold. unfold Re.replaceAll. split.
  - apply (replace_clean true notBracket assignmentPattern bearerPattern marker
             Ha1 Ha3); [lia|lia|].
    intros pre u Hsplit _. apply (test_suffix true assignmentPattern pre u).
    rewrite <- Hsplit.
    apply (replace_clean true notBracket assignmentPattern assignmentPattern
             marker Ha1 Ha3); [lia|lia|]. by intros.
  - apply (replace_clean true notBracket bearerPattern bearerPattern marker
             Hb1 Hb3); [lia|lia|]. by intros.
Qed.

(** No part of the text handed to the providers matches a secret
    pattern. *)
Lemma safeDiff_has_no_match (diff : string) (re : regex) :
  re ∈ secretPatterns -> Re.test true re (safeDiffOf diff) = false.
Proof.
  intros Hre. unfold safeDiffOf, truncateDiff.
  destruct (redactSecrets_clean diff) as [Ha Hb].
  assert (Hclean : Re.test true re (redactSecrets diff) = false).
  { unfold secretPatterns in Hre.
    apply elem_of_cons in Hre as [->|Hre]; [done|].
    apply elem_of_cons in Hre as [->|Hre]; [done|].
    by apply elem_of_nil in Hre. }
  destruct (_ <=? _)%nat; [done|]. by apply take_clean.
Qed.

(** C8: a secret that reaches the providers.  The diff [deployDiff]
    adds the line [- key: NEXT_PUBLIC_OPENAI_API_KEY=sk-a...a] and so
    contains the assignment [OPENAI_API_KEY=sk-a...a], whose part
    [KEY=sk-a...a] matches the assignment pattern.  The scan of
    [replace] finds the match that starts earlier, at [key:], which
    ends before the equals sign, and goes on after it: the marker
    replaces the name, the value stays.  The value is in the text
    handed to the providers and in the prompt of the free Hugging Face
    adapter; a model that repeats that prompt before its text has the
    prompt stripped from its reply, so the answer of the request shows
    that the adapter was called with the text that holds the value.
    (For [envFileDiff], where the assignment opens the line, the value
    is replaced.) *)
Theorem C8_secret_reaches_providers :
  Js.includes secretAssignment deployDiff = true
  /\ Re.matchAt true assignmentPattern ("KEY=" +:+ secretValue) = Some 31%nat
  /\ redactSecrets deployDiff
     = "diff --git a/deploy.yml b/deploy.yml
--- a/deploy.yml
+++ b/deploy.yml
@@ -7,0 +8 @@
+      - [REDACTED]=" +:+ secretValue
  /\ safeDiffOf deployDiff = redactSecrets deployDiff
  /\ Js.includes secretValue (safeDiffOf deployDiff) = true
  /\ echoedPrompt
     = "Generate commit message for: " +:+ Js.take 500 (safeDiffOf deployDiff)
  /\ Js.includes secretValue echoedPrompt = true
  /\ (POST (initialState 0) (Fields (Some deployDiff)) echoInputs).1
     = FreshResponse "chore: add deploy key to workflow"
                     (analyzeDiff (safeDiffOf deployDiff)) "freehf"
  /\ Js.includes secretAssignment envFileDiff = true
  /\ Js.includes secretValue (safeDiffOf envFileDiff) = false.
Proof. split_and!; vm_compute; reflexivity. Qed.

(** * Further properties *)

Import Notions.

(** ** The sanitizer, further *)

Lemma replace_identity (ci : bool) (r : regex) (rep t : string) :
  Re.test ci r t = false -> Re.replaceAll ci r rep t = t.
Proof.
  unfold Re.replaceAll. induction t as [|c t IH]; simpl.
  - by destruct (Re.matchAt ci r EmptyString).
  - destruct (Re.matchAt ci r (String c t)); [done|].
    intros Ht. by rewrite IH.
Qed.

Lemma redactSecrets_fixed (s : string) :
  Re.test true assignmentPattern s = false ->
  Re.test true bearerPattern s = false ->
  redactSecrets s = s.
Proof.
  intros Hassign Hbearer. rewrite redactSecrets_unfold.
  rewrite (replace_identity true assignmentPattern marker s Hassign).
  by apply replace_identity.
Qed.

(** X1: a text in which neither secret pattern has a match passes
    through [redactSecrets] unchanged. *)
Theorem X1_redact_identity_without_match (s : string)
        (Hassign : Re.test true assignmentPattern s = false)
        (Hbearer : Re.test true bearerPattern s = false) :
  redactSecrets s = s.
Proof. by apply redactSecrets_fixed. Qed.

(** X2: redacting twice is redacting once. *)
Theorem X2_redact_idempotent (s : string) :
  redactSecrets (redactSecrets s) = redactSecrets s.
Proof.
  destruct (redactSecrets_clean s) as [Ha Hb].
  rewrite (redactSecrets_unfold (redactSecrets s)).
  rewrite (replace_identity true assignmentPattern marker _ Ha).
  by apply replace_identity.
Qed.

Lemma begins_len (m s : string) : beginsWith m s -> (Js.len m <= Js.len s)%nat.
Proof. intros [rest ->]. rewrite len_append. lia. Qed.

Lemma len_cons (c : ascii) (x : string) : Js.len (String c x) = S (Js.len x).
Proof. reflexivity. Qed.

Lemma replace_not_longer (ci : bool) (r : regex) (rep : string) :
  (Js.len rep <= minLen r)%nat ->
  forall t skip,
    (skip <= Js.len t)%nat ->
    (Js.len (Re.replaceFrom ci r rep t skip) <= Js.len t - skip)%nat.
Proof.
  intros Hrep. induction t as [|c t IH]; intros skip Hskip.
  - simpl. destruct skip; [|unfold Js.len in *; simpl in *; lia].
    destruct (Re.matchAt ci r EmptyString) eqn:E; [|unfold Js.len; simpl; lia].
    apply matchAt_Some in E as (m & Hm & Hb & _).
    pose proof (minLen_le _ _ _ Hm). pose proof (begins_len _ _ Hb).
    change (Js.len EmptyString) with 0%nat in *. lia.
  - rewrite len_cons in *. simpl.
    destruct skip as [|n].
    + destruct (Re.matchAt ci r (String c t)) as [[|n]|] eqn:E.
      * apply matchAt_Some in E as (m & Hm & _ & Hl).
        pose proof (minLen_le _ _ _ Hm).
        assert (Hrep0 : Js.len rep = 0%nat) by lia.
        apply len_zero in Hrep0. subst rep. rewrite append_nil_l, len_cons.
        specialize (IH 0%nat). lia.
      * apply matchAt_Some in E as (m & Hm & Hb & Hl).
        pose proof (minLen_le _ _ _ Hm). pose proof (begins_len _ _ Hb).
        rewrite len_cons in *. rewrite len_append.
        specialize (IH n). lia.
      * rewrite len_cons. specialize (IH 0%nat). lia.
    + specialize (IH n). lia.
Qed.

Lemma take_len (n : nat) (t : string) : (Js.len (Js.take n t) <= n)%nat.
Proof.
  revert t. induction n as [|n IH]; intros [|c t]; simpl;
    rewrite ?len_cons; try (unfold Js.len; simpl; lia).
  specialize (IH t). lia.
Qed.

(** X3: redaction never makes a text longer, so the text handed to the
    providers is at most as long as the diff received and at most
    12000 characters long. *)
Theorem X3_sanitized_length (diff : string) :
  (Js.len (redactSecrets diff) <= Js.len diff)%nat
  /\ (Js.len (safeDiffOf diff) <= Nat.min (Js.len diff) (12 * 1000))%nat.
Proof.
  assert (Hr : (Js.len (redactSecrets diff) <= Js.len diff)%nat).
  { rewrite redactSecrets_unfold. unfold Re.replaceAll.
    pose proof (replace_not_longer true assignmentPattern marker) as H1.
    pose proof (replace_not_longer true bearerPattern marker) as H2.
    destruct assignment_facts as (_ & Ha & _).
    destruct bearer_facts as (_ & Hb & _).
    rewrite Ha in H1. rewrite Hb in H2.
    assert (Hm : Js.len marker = 10%nat) by done. rewrite Hm in *.
    specialize (H1 ltac:(lia) diff 0%nat ltac:(lia)).
    specialize (H2 ltac:(lia)
                  (Re.replaceFrom true assignmentPattern marker diff 0) 0%nat
                  ltac:(lia)).
    lia. }
  split; [done|].
  unfold safeDiffOf, truncateDiff. remember (12 * 1000)%nat as limit.
  destruct (Js.len (redactSecrets diff) <=? limit)%nat eqn:E.
  - apply Nat.leb_le in E. lia.
  - pose proof (begins_len _ _ (take_begins limit (redactSecrets diff))).
    pose proof (take_len limit (redactSecrets diff)). lia.
Qed.

Lemma okRun_le_longest (ok : ascii -> bool) (s : string) :
  (okRun ok s <= longestRun ok s)%nat.
Proof. destruct s; simpl; lia. Qed.

Lemma okRun_append_le (ok : ascii -> bool) (m rest : string) :
  (okRun ok m <= okRun ok (m +:+ rest))%nat.
Proof.
  induction m as [|c m IH]; sapp; simpl; [lia|]. destruct (ok c); lia.
Qed.

Lemma longestRun_append_l (ok : ascii -> bool) (m rest : string) :
  (longestRun ok m <= longestRun ok (m +:+ rest))%nat.
Proof.
  induction m as [|c m IH]; sapp; [simpl; lia|].
  pose proof (okRun_append_le ok (String c m) rest) as H.
  rewrite append_cons in H. cbn [longestRun]. lia.
Qed.

Lemma longestRun_append_r (ok : ascii -> bool) (pre u : string) :
  (longestRun ok u <= longestRun ok (pre +:+ u))%nat.
Proof. induction pre as [|c pre IH]; sapp; [lia|]. cbn [longestRun]. lia. Qed.

Lemma allOk_okRun (ok : ascii -> bool) (m : string) :
  allOk ok m = true -> okRun ok m = Js.len m.
Proof.
  induction m as [|c m IH]; [done|]. cbn [allOk okRun].
  intros [Hc Hm]%andb_prop. rewrite Hc, len_cons. by rewrite IH.
Qed.

Lemma needsRun_unfold (ci : bool) (ok : ascii -> bool) (r : regex) :
  needsRun ci ok r
  = if consumesOnly ci ok r then minLen r
    else match r with
         | Seq r1 r2 => Nat.max (needsRun ci ok r1) (needsRun ci ok r2)
         | Alt r1 r2 => Nat.min (needsRun ci ok r1) (needsRun ci ok r2)
         | _ => 0%nat
         end.
Proof. by destruct r. Qed.

(** Every match of [r] holds a run of [ok] characters of the length
    [needsRun] computes. *)
Lemma needsRun_le (ci : bool) (ok : ascii -> bool) (r : regex) (m : string) :
  Matches ci r m -> (needsRun ci ok r <= longestRun ok m)%nat.
Proof.
  assert (Hpure : forall r m, Matches ci r m -> consumesOnly ci ok r = true ->
                              (minLen r <= longestRun ok m)%nat).
  { intros r0 m0 Hm Hc. pose proof (minLen_le _ _ _ Hm).
    pose proof (allOk_okRun ok m0 (consumesOnly_allOk _ _ _ _ Hm Hc)).
    pose proof (okRun_le_longest ok m0). lia. }
  intros Hm. rewrite needsRun_unfold.
  destruct (consumesOnly ci ok r) eqn:Hc; [by apply Hpure|]. clear Hc.
  induction Hm as [|c x Hx|p x Hx|r1 r2 m1 m2 H1 IH1 H2 IH2
                   |r1 r2 m H1 IH1|r1 r2 m H2 IH2
                   |r1|r1 m1 m2 H1 IH1 Hne H2 IH2]; try lia.
  - pose proof (longestRun_append_l ok m1 m2).
    pose proof (longestRun_append_r ok m1 m2).
    assert (Hn1 : (needsRun ci ok r1 <= longestRun ok m1)%nat).
    { rewrite needsRun_unfold. destruct (consumesOnly ci ok r1) eqn:Hc1;
        [by apply Hpure|done]. }
    assert (Hn2 : (needsRun ci ok r2 <= longestRun ok m2)%nat).
    { rewrite needsRun_unfold. destruct (consumesOnly ci ok r2) eqn:Hc2;
        [by apply Hpure|done]. }
    lia.
  - assert (Hn1 : (needsRun ci ok r1 <= longestRun ok m)%nat).
    { rewrite needsRun_unfold. destruct (consumesOnly ci ok r1) eqn:Hc1;
        [by apply Hpure|done]. }
    lia.
  - assert (Hn2 : (needsRun ci ok r2 <= longestRun ok m)%nat).
    { rewrite needsRun_unfold. destruct (consumesOnly ci ok r2) eqn:Hc2;
        [by apply Hpure|done]. }
    lia.
Qed.

Lemma short_runs_no_match (ci : bool) (ok : ascii -> bool) (r : regex)
      (s : string) :
  (longestRun ok s < needsRun ci ok r)%nat -> Re.test ci r s = false.
Proof.
  assert (Hat : forall u, (longestRun ok u < needsRun ci ok r)%nat ->
                          Re.matchAt ci r u = None).
  { intros u Hu. destruct (Re.matchAt ci r u) as [n|] eqn:E; [|done].
    apply matchAt_Some in E as (m & Hm & [rest ->] & _).
    pose proof (needsRun_le ci ok r m Hm).
    pose proof (longestRun_append_l ok m rest). lia. }
  induction s as [|c s IH]; intros Hs.
  - by apply test_nil, Hat.
  - apply test_cons. split; [by apply Hat|].
    apply IH. cbn [longestRun] in Hs. lia.
Qed.

Lemma secret_run_needed :
  needsRun true secretChar assignmentPattern = 16%nat
  /\ needsRun true secretChar bearerPattern = 16%nat.
Proof. by vm_compute. Qed.

(** X4: values of fewer than 16 characters are never redacted: a text
    in which every run of characters of the secret alphabet (letters,
    digits, underscore, hyphen, dot) is shorter than 16 passes through
    [redactSecrets] unchanged, whatever keywords it contains. *)
Theorem X4_short_values_not_redacted (s : string)
        (Hshort : (longestRun secretChar s < 16)%nat) :
  redactSecrets s = s.
Proof.
  destruct secret_run_needed as [Ha Hb].
  apply redactSecrets_fixed;
    apply (short_runs_no_match true secretChar); by rewrite ?Ha, ?Hb.
Qed.

(** ** The cache key, further *)

Lemma toInt32_range (z : Z) : (- 2 ^ 31 <= toInt32 z < 2 ^ 31)%Z.
Proof.
  unfold toInt32. pose proof (Z.mod_pos_bound z (2 ^ 32) ltac:(lia)).
  destruct (z mod 2 ^ 32 <? 2 ^ 31)%Z eqn:E;
    [apply Z.ltb_lt in E|apply Z.ltb_ge in E]; lia.
Qed.

Lemma toInt32_mod (z : Z) : (toInt32 z mod 2 ^ 32 = z mod 2 ^ 32)%Z.
Proof.
  unfold toInt32. destruct (z mod 2 ^ 32 <? 2 ^ 31)%Z.
  - apply Z.mod_mod. lia.
  - rewrite <- (Z.mod_add _ 1) by lia.
    replace (z mod 2 ^ 32 - 2 ^ 32 + 1 * 2 ^ 32)%Z with (z mod 2 ^ 32)%Z by lia.
    apply Z.mod_mod. lia.
Qed.

Lemma toInt32_congr (a b : Z) :
  (a mod 2 ^ 32 = b mod 2 ^ 32)%Z -> toInt32 a = toInt32 b.
Proof. intros H. unfold toInt32. by rewrite H. Qed.

Lemma toInt32_wrap (z : Z) : exists k, (toInt32 z = z + k * 2 ^ 32)%Z.
Proof.
  unfold toInt32. pose proof (Z.mod_eq z (2 ^ 32) ltac:(lia)) as E.
  destruct (z mod 2 ^ 32 <? 2 ^ 31)%Z.
  - exists (- (z / 2 ^ 32))%Z. lia.
  - exists (- (z / 2 ^ 32) - 1)%Z. lia.
Qed.

Lemma hashStep_poly (h : Z) (c : ascii) :
  hashStep (toInt32 h) c = toInt32 (31 * h + charCode c).
Proof.
  unfold hashStep. rewrite Z.land_diag.
  rewrite Z.shiftl_mul_pow2 by lia.
  apply toInt32_congr.
  destruct (toInt32_wrap h) as [k Hk].
  destruct (toInt32_wrap (toInt32 (toInt32 h) * 2 ^ 5)) as [k1 Hk1].
  destruct (toInt32_wrap (toInt32 h)) as [k2 Hk2].
  rewrite Hk1, Hk2, Hk.
  replace (((h + k * 2 ^ 32 + k2 * 2 ^ 32) * 2 ^ 5 + k1 * 2 ^ 32
            - (h + k * 2 ^ 32) + charCode c))%Z
    with (31 * h + charCode c + (31 * k + 32 * k2 + k1) * 2 ^ 32)%Z by lia.
  apply Z.mod_add. lia.
Qed.

Lemma hashLoop_poly (s : string) (h : Z) :
  hashLoop (toInt32 h) s = toInt32 (polyFrom h s).
Proof.
  revert h. induction s as [|c s IH]; intros h; simpl; [done|].
  by rewrite hashStep_poly, IH.
Qed.

(** X5: the loop of [generateCacheKey] computes the polynomial hash
    with multiplier 31 of the code units, wrapped to a signed 32-bit
    integer; the number in the key is its absolute value, between 0 and
    2^31. *)
Theorem X5_cache_key_is_poly31 (diff : string) :
  hashLoop 0 diff = toInt32 (polyFrom 0 diff)
  /\ (0 <= Z.abs (hashLoop 0 diff) <= 2 ^ 31)%Z
  /\ generateCacheKey diff
     = "commit_" +:+ pretty (Z.abs (toInt32 (polyFrom 0 diff))).
Proof.
  pose proof (hashLoop_poly diff 0) as H. change (toInt32 0) with 0%Z in H.
  split; [done|]. split.
  - rewrite H. pose proof (toInt32_range (polyFrom 0 diff)). lia.
  - unfold generateCacheKey. by rewrite H.
Qed.

Lemma cache_key_eq (d1 d2 : string) :
  generateCacheKey d1 = generateCacheKey d2
  <-> Z.abs (hashLoop 0 d1) = Z.abs (hashLoop 0 d2).
Proof.
  unfold generateCacheKey. split.
  - intros H. repeat (rewrite append_cons in H). rewrite !append_nil_l in H.
    injection H as H. by apply (inj pretty) in H.
  - by intros ->.
Qed.

(** X6: the cache compares keys, not diffs.  Two diffs whose hashes
    agree up to the sign have the same key; then a fresh entry stored
    for the one answers a request for the other, with the message and
    the analysis of the first, and the state stays as it is. *)
Theorem X6_colliding_diff_served_from_cache
        (st : State) (d1 d2 : string) (inp : Inputs) (e : CacheEntry)
        (Hcollide : Z.abs (hashLoop 0 d1) = Z.abs (hashLoop 0 d2))
        (Hdiff : d2 <> EmptyString)
        (Hfresh : freshEntry st (generateCacheKey d1) (in_nowCheck inp) = Some e) :
  generateCacheKey d1 = generateCacheKey d2
  /\ POST st (Fields (Some d2)) inp
     = (CachedResponse (response e) (analysis e), st).
Proof.
  assert (Hk : generateCacheKey d1 = generateCacheKey d2) by (by apply cache_key_eq).
  split; [done|]. destruct d2 as [|c d]; [done|].
  unfold POST. by rewrite <- Hk, Hfresh.
Qed.

(** ** The analyzer, further *)

Lemma classify_cases (tst : ChangeType -> bool) (order : list ChangeType)
      (acc : ChangeType * Q) :
  (classify tst order acc = acc /\ forall u, u ∈ order -> tst u = false)
  \/ (exists t, t ∈ order /\ tst t = true
                /\ classify tst order acc
                   = (t, Qmin (9 # 10) (snd acc + (3 # 10)))).
Proof.
  induction order as [|u order IH]; simpl.
  - left. split; [done|]. by intros u ?%elem_of_nil.
  - destruct (tst u) eqn:E.
    + right. exists u. split_and!; [left|done|done].
    + destruct IH as [[Hacc Hall]|(t & Ht & Htst & Hc)].
      * left. split; [done|]. intros v [->|Hv]%elem_of_cons; auto.
      * right. exists t. split_and!; [by right|done|done].
Qed.

Lemma keys_are_priorities (t : ChangeType) :
  t ∈ patternKeys <-> t ∈ priorityOrder.
Proof.
  unfold patternKeys, priorityOrder. rewrite !elem_of_cons.
  rewrite !elem_of_nil. tauto.
Qed.

(** X7: the fields of an analysis agree with each other.  The change
    type is chore exactly when no pattern matched (the list of matched
    patterns is empty); otherwise the change type is one of the matched
    patterns.  The confidence is 0.5 for chore and 0.8 otherwise: the
    cap of 0.9 is never reached. *)
Theorem X7_analysis_fields_agree (diff : string) :
  let a := analyzeDiff diff in
  ((changeType a = chore) <-> (patterns a = []))
  /\ (changeType a <> chore -> changeType a ∈ patterns a)
  /\ (chore ∉ patterns a)
  /\ (changeType a = chore -> (confidence a == (1 # 2))%Q)
  /\ (changeType a <> chore -> (confidence a == (8 # 10))%Q).
Proof.
  intros a.
  assert (Hp : patterns a
               = List.filter (patternTest (Js.toLowerCase diff)) patternKeys).
  { unfold a, analyzeDiff.
    by destruct (classify (patternTest (Js.toLowerCase diff)) priorityOrder
                          (chore, 1 # 2)). }
  assert (Hin : forall t, t ∈ patterns a
                  <-> t ∈ priorityOrder /\ patternTest (Js.toLowerCase diff) t = true).
  { intros t. rewrite Hp, list_elem_of_In, filter_In, <- list_elem_of_In.
    by rewrite keys_are_priorities. }
  assert (Hnc : chore ∉ patterns a) by (rewrite Hin; by intros [_ ?]).
  pose proof (analyzeDiff_classify diff) as Hc. fold a in Hc.
  destruct (classify_cases (patternTest (Js.toLowerCase diff)) priorityOrder
              (chore, 1 # 2)) as [[Hacc Hall]|(t & Ht & Htst & Hcl)].
  - rewrite Hacc in Hc. injection Hc as Hty Hconf.
    assert (Hnil : patterns a = []).
    { destruct (patterns a) as [|u l] eqn:E; [done|].
      assert (Hu : u ∈ u :: l) by left.
      apply Hin in Hu as [Hu1 Hu2]. by rewrite Hall in Hu2. }
    split_and!; try done.
    + intros _. by rewrite Hconf.
  - rewrite Hcl in Hc. injection Hc as Hty Hconf.
    assert (Htp : t ∈ patterns a) by (by apply Hin).
    assert (Hne : t <> chore) by (intros ->; done).
    rewrite Hty. split_and!; try done.
    + split; [done|]. intros Hnil. rewrite Hnil in Htp. by apply elem_of_nil in Htp.
    + intros _. rewrite Hconf. by vm_compute.
Qed.

Lemma take_append_len (m rest : string) : Js.take (Js.len m) (m +:+ rest) = m.
Proof.
  induction m as [|c m IH]; sapp; [by destruct rest|].
  rewrite len_cons. simpl. by rewrite IH.
Qed.

Lemma startsWith_append (p post : string) : Js.startsWith p (p +:+ post) = true.
Proof.
  induction p as [|c p IH]; sapp; simpl; [done|].
  by rewrite Ascii.eqb_refl, IH.
Qed.

Lemma includes_middle (pre p post : string) :
  Js.includes p (pre +:+ p +:+ post) = true.
Proof.
  induction pre as [|c pre IH]; sapp.
  - destruct (p +:+ post) eqn:E; simpl; rewrite <- E, startsWith_append; done.
  - simpl. rewrite IH. apply orb_true_r.
Qed.

(** The leftmost match that [exec] returns is a match, and stands in
    the text. *)
Lemma exec_Some (ci : bool) (r : regex) (s x : string) :
  Re.exec ci r s = Some x ->
  Matches ci r x /\ exists pre post, s = pre +:+ x +:+ post.
Proof.
  induction s as [|c s IH]; simpl.
  - destruct (Re.matchAt ci r EmptyString) as [n|] eqn:E; [|done].
    intros [= <-]. apply matchAt_Some in E as (m & Hm & [rest Hrest] & ->).
    destruct m; [|done]. simpl. split; [done|]. by exists EmptyString, EmptyString.
  - destruct (Re.matchAt ci r (String c s)) as [n|] eqn:E.
    + intros [= <-]. apply matchAt_Some in E as (m & Hm & [rest Hrest] & ->).
      rewrite Hrest, take_append_len. split; [done|]. by exists EmptyString, rest.
    + intros H. apply IH in H as (Hm & pre & post & ->).
      split; [done|]. exists (String c pre), post. by sapp.
Qed.

Lemma exec_None (ci : bool) (r : regex) (s : string) :
  Re.exec ci r s = None <-> Re.test ci r s = false.
Proof.
  induction s as [|c s IH]; simpl.
  - by destruct (Re.matchAt ci r EmptyString).
  - by destruct (Re.matchAt ci r (String c s)).
Qed.

Lemma matches_lit (w m : string) : Matches false (lit w) m -> m = w.
Proof.
  revert m. induction w as [|c w IH]; intros m H; simpl in H.
  - by inversion H.
  - inversion H as [| | |r1 r2 m1 m2 H1 H2| | | |]; subst.
    inversion H1 as [|c0 x Hx| | | | | |]; subst.
    apply IH in H2 as ->. simpl in Hx. apply Ascii.eqb_eq in Hx as ->. by sapp.
Qed.

Lemma header_shape (m : string) :
  Matches false fileHeader m ->
  exists name, m = "diff --git a/" +:+ name
               /\ name <> EmptyString /\ allOk notSpace name = true.
Proof.
  intros H. unfold fileHeader in H.
  inversion H as [| | |r1 r2 m1 m2 H1 H2| | | |]; subst.
  apply (matches_lit "diff --git a/") in H1 as ->. exists m2. split; [done|].
  pose proof (minLen_le _ _ _ H2) as Hlen. simpl in Hlen.
  split; [intros ->; unfold Js.len in Hlen; simpl in Hlen; lia|].
  apply (consumesOnly_allOk false notSpace _ _ H2). by vm_compute.
Qed.

Lemma drop_append_len (p rest : string) : Js.drop (Js.len p) (p +:+ rest) = rest.
Proof. induction p as [|c p IH]; sapp; [by destruct rest|]. by rewrite len_cons. Qed.

Lemma fileName_analyzeDiff (diff : string) :
  fileName (analyzeDiff diff)
  = match Re.exec false fileHeader diff with
    | Some m => Js.drop 13 m
    | None => "unknown"
    end.
Proof.
  unfold analyzeDiff.
  by destruct (classify (patternTest (Js.toLowerCase diff)) priorityOrder
                        (chore, 1 # 2)).
Qed.

Lemma fileName_facts (diff : string) :
  let a := analyzeDiff diff in
  (Re.test false fileHeader diff = false -> fileName a = "unknown")
  /\ (Re.test false fileHeader diff = true ->
      Js.includes ("diff --git a/" +:+ fileName a) diff = true)
  /\ fileName a <> EmptyString
  /\ allOk notSpace (fileName a) = true.
Proof.
  intros a. unfold a. rewrite fileName_analyzeDiff.
  destruct (Re.exec false fileHeader diff) as [m|] eqn:E.
  - apply exec_Some in E as (Hm & pre & post & ->).
    apply header_shape in Hm as (name & -> & Hne & Hok).
    change 13%nat with (Js.len "diff --git a/"). rewrite drop_append_len.
    split_and!; try done.
    + intros Hn. apply exec_None in Hn.
      assert (Hsome : Re.exec false fileHeader
                        (pre +:+ ("diff --git a/" +:+ name) +:+ post) <> None).
      { intros Hnone. apply exec_None in Hnone.
        apply (test_suffix false fileHeader pre) in Hnone.
        eapply matchAt_None; [exact Hnone| |by exists post].
        unfold fileHeader. constructor.
        - clear. assert (H : forall w, Matches false (lit w) w).
          { induction w as [|c w IH]; simpl; [constructor|].
            change (String c w) with (String c EmptyString +:+ w).
            constructor; [|done]. constructor. simpl. apply Ascii.eqb_refl. }
          apply H.
        - clear -Hne Hok. destruct name as [|c name]; [done|].
          change (String c name) with (String c EmptyString +:+ name).
          simpl in Hok. apply andb_prop in Hok as [Hc Hok].
          constructor; [by constructor|].
          clear Hc Hne. induction name as [|x name IH]; [constructor|].
          simpl in Hok. apply andb_prop in Hok as [Hx Hok].
          change (String x name) with (String x EmptyString +:+ name).
          constructor; [by constructor|done|by apply IH]. }
      done.
    + intros _. apply includes_middle.
  - apply exec_None in E. split_and!; try done. intros Ht. congruence.
Qed.

(** X8: the file name of an analysis.  Without a header [diff --git
    a/...] followed by a character that is not white space the file
    name is [unknown]; with one, the file name is the run of
    characters up to the next white space after the first such header:
    it is not empty, holds no white space, and stands in the diff
    right after [diff --git a/]. *)
Theorem X8_file_name (diff : string) :
  let a := analyzeDiff diff in
  (Re.test false fileHeader diff = false -> fileName a = "unknown")
  /\ (Re.test false fileHeader diff = true ->
      Js.includes ("diff --git a/" +:+ fileName a) diff = true)
  /\ fileName a <> EmptyString
  /\ allOk notSpace (fileName a) = true.
Proof. apply fileName_facts. Qed.

Lemma split_length (sep : ascii) (s : string) :
  (0 < length (Js.split sep s))%nat.
Proof.
  induction s as [|c s IH]; simpl; [lia|].
  destruct (Ascii.eqb c sep); simpl; [lia|].
  destruct (Js.split sep s); simpl; lia.
Qed.

(** Splitting at a separator: the last piece holds no separator, and
    the text is that piece, or ends with the separator and that
    piece. *)
Lemma split_last (sep : ascii) (s : string) :
  exists e, Js.pop (Js.split sep s) = Some e
            /\ allOk (fun c => negb (Ascii.eqb c sep)) e = true
            /\ (s = e \/ exists stem, s = stem +:+ String sep e).
Proof.
  unfold Js.pop. induction s as [|c s (e & Hl & Hok & Hs)]; simpl.
  - exists EmptyString. split_and!; [done|done|by left].
  - destruct (Ascii.eqb c sep) eqn:E.
    + apply Ascii.eqb_eq in E as ->. exists e. split_and!; [|done|].
      * destruct (Js.split sep s); [done|]. by rewrite last_cons, Hl.
      * right. destruct Hs as [->|[stem ->]].
        -- by exists EmptyString.
        -- exists (String sep stem). by sapp.
    + destruct (Js.split sep s) as [|x xs] eqn:Sp; [done|].
      destruct xs as [|y ys].
      * simpl in Hl. injection Hl as ->. exists (String c e).
        split_and!; [done|simpl; by rewrite E, Hok|].
        left. destruct Hs as [->|[stem ->]]; [done|].
        exfalso. clear -Sp.
        assert (H : forall t, (1 < length (Js.split sep (t +:+ String sep e)))%nat).
        { induction t as [|a t IH]; sapp; simpl.
          - rewrite Ascii.eqb_refl. simpl.
            pose proof (split_length sep e). lia.
          - destruct (Ascii.eqb a sep); simpl.
            + lia.
            + destruct (Js.split sep (t +:+ String sep e)); simpl in *; lia. }
        specialize (H stem). rewrite Sp in H. simpl in H. lia.
      * exists e. split_and!; [exact Hl|done|].
        right. destruct Hs as [->|[stem ->]].
        -- exfalso. clear -Sp Hok.
           assert (H : forall t, allOk (fun c => negb (Ascii.eqb c sep)) t = true ->
                                 Js.split sep t = [t]).
           { induction t as [|a t IH]; simpl; [done|].
             intros [Ha Ht]%andb_prop. apply negb_true_iff in Ha.
             by rewrite Ha, IH. }
           rewrite (H e Hok) in Sp. done.
        -- exists (String c stem). by sapp.
Qed.

(** X9: the file extension of an analysis is the part of the file name
    after its last dot, and holds no dot; a file name without a dot is
    its own extension (so [unknown] has the extension [unknown], and
    [Makefile] the extension [Makefile]). *)
Theorem X9_file_extension (diff : string) :
  let a := analyzeDiff diff in
  allOk notDot (fileExtension a) = true
  /\ (fileName a = fileExtension a
      \/ exists stem, fileName a = stem +:+ "." +:+ fileExtension a)
  /\ (allOk notDot (fileName a) = true -> fileExtension a = fileName a).
Proof.
  intros a.
  assert (He : fileExtension a
               = default EmptyString (Js.pop (Js.split "." (fileName a)))).
  { unfold a, analyzeDiff.
    by destruct (classify (patternTest (Js.toLowerCase diff)) priorityOrder
                          (chore, 1 # 2)). }
  destruct (split_last "." (fileName a)) as (e & Hl & Hok & Hs).
  rewrite Hl in He. simpl in He. rewrite He.
  split_and!; [done|done|].
  intros Hnd. destruct Hs as [->|[stem Hs]]; [done|].
  exfalso. rewrite Hs in Hnd. rewrite allOk_append in Hnd.
  apply andb_prop in Hnd as [_ Hnd]. simpl in Hnd. done.
Qed.

(** ** The local generator, further *)

Lemma split_append_pure (x s : string) :
  allOk notNewline x = true ->
  Js.split Js.newline (x +:+ s)
  = match Js.split Js.newline s with
    | h :: t => (x +:+ h) :: t
    | [] => [x]
    end.
Proof.
  induction x as [|c x IH]; sapp.
  - intros _. destruct (Js.split Js.newline s) eqn:E; [|done].
    pose proof (split_length Js.newline s) as H. rewrite E in H. simpl in H. lia.
  - cbn [allOk]. intros [Hc Hx]%andb_prop. simpl.
    unfold notNewline in Hc. apply negb_true_iff in Hc. rewrite Hc, (IH Hx).
    by destruct (Js.split Js.newline s).
Qed.

Lemma startsWith_append_l (p a b : string) :
  Js.startsWith p a = true -> Js.startsWith p (a +:+ b) = true.
Proof.
  revert a. induction p as [|c p IH]; intros a; [done|].
  destruct a as [|x a]; [done|]. sapp. simpl.
  intros [-> H]%andb_prop. by rewrite IH.
Qed.

Lemma allOk_take (ok : ascii -> bool) (n : nat) (s : string) :
  allOk ok s = true -> allOk ok (Js.take n s) = true.
Proof.
  revert n. induction s as [|c s IH]; intros [|n]; simpl; try done.
  intros [-> H]%andb_prop. by apply IH.
Qed.

Lemma upper_keeps_line (c : ascii) :
  notNewline c = true -> notNewline (Js.upper c) = true.
Proof.
  assert (H : forallb (fun x => implb (notNewline x) (notNewline (Js.upper x)))
                      allChars = true) by (by vm_compute).
  rewrite forallb_forall in H. specialize (H c (allChars_complete c)).
  intros Hc. by rewrite Hc in H.
Qed.

Lemma component_name_one_line (name : string) :
  allOk notNewline name = true ->
  allOk notNewline (LocalGenerator.extractComponentName name) = true.
Proof.
  intros Hn. unfold LocalGenerator.extractComponentName.
  destruct (split_last "/" name) as (e & -> & _ & Hs).
  assert (He : allOk notNewline e = true).
  { destruct Hs as [->|[stem ->]]; [done|].
    rewrite allOk_append in Hn. apply andb_prop in Hn as [_ Hn].
    by simpl in Hn. }
  assert (Hb : allOk notNewline (LocalGenerator.stripScriptExt e) = true).
  { unfold LocalGenerator.stripScriptExt.
    repeat case_match; try done; by apply allOk_take. }
  destruct (Js.truthy (LocalGenerator.stripScriptExt e)); [|done].
  destruct (LocalGenerator.stripScriptExt e) as [|c rest]; [done|].
  simpl in *. apply andb_prop in Hb as [Hc Hr].
  by rewrite upper_keeps_line, Hr.
Qed.

Ltac shape_of_template :=
  unfold conventionalShape;
  repeat (rewrite split_append_pure by (done || (by apply component_name_one_line)));
  simpl; do 4 eexists; split; [reflexivity|];
  repeat (apply startsWith_append_l); reflexivity.

Lemma local_message_shape (diff : string) (a : DiffAnalysis) :
  allOk notNewline (fileName a) = true ->
  conventionalShape (typePrefix (changeType a))
    (LocalGenerator.generateLocalPatternBasedCommit diff a).
Proof.
  intros Hname. unfold LocalGenerator.generateLocalPatternBasedCommit.
  destruct (changeType a); cbn [typePrefix].
  - unfold LocalGenerator.generateFeatureCommit.
    case_match; shape_of_template.
  - unfold LocalGenerator.generateBugFixCommit.
    case_match; shape_of_template.
  - unfold LocalGenerator.generateSecurityCommit. shape_of_template.
  - unfold LocalGenerator.generatePerformanceCommit. shape_of_template.
  - unfold LocalGenerator.generateRefactorCommit. shape_of_template.
  - unfold LocalGenerator.generateStylingCommit. shape_of_template.
  - unfold LocalGenerator.generateTestCommit. shape_of_template.
  - unfold LocalGenerator.generateDocsCommit. shape_of_template.
  - unfold LocalGenerator.generateConfigCommit. shape_of_template.
  - unfold LocalGenerator.generateDatabaseCommit. shape_of_template.
  - unfold LocalGenerator.generateApiCommit. shape_of_template.
  - unfold LocalGenerator.generateChoreCommit. shape_of_template.
Qed.

(** X10: the shape of the fallback message.  For an analysis whose
    file name holds no line break, the message of the local generator
    is five lines: a subject line that opens with the conventional type
    of the change type ([feat: ], [fix: ], [security: ], [perf: ],
    [refactor: ], [style: ], [test: ], [docs: ], [db: ], [api: ], and
    [chore: ] for both config and chore), an empty line, and three
    lines that open with [- ]. *)
Theorem X10_fallback_message_shape (diff : string) (a : DiffAnalysis)
        (Hname : allOk notNewline (fileName a) = true) :
  conventionalShape (typePrefix (changeType a))
    (LocalGenerator.generateLocalPatternBasedCommit diff a).
Proof. by apply local_message_shape. Qed.

Lemma notSpace_notNewline (s : string) :
  allOk notSpace s = true -> allOk notNewline s = true.
Proof.
  assert (H : forallb (fun x => implb (notSpace x) (notNewline x)) allChars = true)
    by (by vm_compute).
  rewrite forallb_forall in H.
  induction s as [|c s IH]; simpl; [done|].
  intros [Hc Hs]%andb_prop. specialize (H c (allChars_complete c)).
  rewrite Hc in H. simpl in H. by rewrite H, IH.
Qed.

(** X11: every fallback message the route can produce has the
    conventional shape: the file name an analysis of [analyzeDiff]
    carries never holds a line break. *)
Theorem X11_route_fallback_shape (diff : string) :
  conventionalShape (typePrefix (changeType (analyzeDiff diff)))
    (LocalGenerator.generateLocalPatternBasedCommit diff (analyzeDiff diff)).
Proof.
  apply local_message_shape, notSpace_notNewline.
  by destruct (fileName_facts diff) as (_ & _ & _ & H).
Qed.

(** ** The health tracker, further *)

Lemma onSuccess_ok (rt : option Z) (now : Z) (h : ProviderHealth) :
  entryOk h -> entryOk (onSuccess rt now h).
Proof.
  intros [[Hlo Hhi] Hflag]. split; simpl.
  - split; [apply Q.min_glb; lra|apply Q.le_min_l].
  - unfold CIRCUIT_BREAKER_THRESHOLD. split; [lia|done].
Qed.

Lemma onFailure_ok (h : ProviderHealth) : entryOk h -> entryOk (onFailure h).
Proof.
  intros [[Hlo Hhi] Hflag].
  split; unfold onFailure; cbn [isHealthy consecutiveFailures successRate].
  - split; [apply Q.le_max_l|apply Q.max_lub; lra].
  - unfold CIRCUIT_BREAKER_THRESHOLD in *.
    destruct (3 <=? S (consecutiveFailures h))%nat eqn:E.
    + apply Nat.leb_le in E. split; [done|lia].
    + apply Nat.leb_gt in E. split; [lia|]. intros _. apply Hflag. lia.
Qed.

Lemma update_healthOk (t0 : Z) (r : Report)
      (health : gmap string ProviderHealth) :
  healthOk t0 health -> healthOk t0 (updateProviderHealth r health).
Proof.
  intros Hok p h. destruct (decide (rp_name r = p)) as [<-|Hne].
  - destruct (health !! rp_name r) as [h1|] eqn:E.
    + rewrite (update_lookup_same _ _ _ E). intros [= <-].
      destruct (Hok _ _ E) as (Hentry & h0 & Hh0 & Hname & Hprio).
      split; [destruct (rp_success r); [by apply onSuccess_ok|by apply onFailure_ok]|].
      exists h0. by destruct (rp_success r).
    + unfold updateProviderHealth. rewrite E. by rewrite E.
  - rewrite update_lookup_other by done. apply Hok.
Qed.

Lemma applyReports_healthOk (t0 : Z) (rs : list Report)
      (health : gmap string ProviderHealth) :
  healthOk t0 health -> healthOk t0 (applyReports rs health).
Proof.
  revert health. induction rs as [|r rs IH]; intros health Hok; simpl; [done|].
  by apply IH, update_healthOk.
Qed.

Lemma initial_healthOk (t0 : Z) : healthOk t0 (initialHealth t0).
Proof.
  intros p h Hh. split; [|by exists h].
  revert Hh. unfold initialHealth.
  repeat (rewrite lookup_insert; case_decide;
          [intros [= <-]; split; [split; unfold Qle; simpl; lia|];
           unfold CIRCUIT_BREAKER_THRESHOLD; simpl; split; [lia|done]|]).
  by rewrite lookup_empty.
Qed.

Lemma run_healthOk (t0 : Z) (es : list Event) (st : State) :
  healthOk t0 (providerHealth st) -> healthOk t0 (providerHealth (Route.run st es)).
Proof.
  revert st. induction es as [|e es IH]; intros st Hok; simpl; [done|].
  apply IH. rewrite step_health. by apply applyReports_healthOk.
Qed.

Lemma run_keys (es : list Event) (st : State) (p : string) :
  is_Some (providerHealth (Route.run st es) !! p) <-> is_Some (providerHealth st !! p).
Proof.
  revert st. induction es as [|e es IH]; intros st; simpl; [done|].
  rewrite IH, step_health. apply applyReports_is_Some.
Qed.

(** X12: what the health tracker keeps.  In every state the process
    can reach, the tracker has entries for exactly the six names it
    started with; each entry keeps its display name and its priority,
    its success rate is between 0 and 1, and its flag is up exactly
    while its count of consecutive failures is below 3. *)
Theorem X12_health_invariant (t0 : Z) (es : list Event) (p : string) :
  let health := providerHealth (Route.run (initialState t0) es) in
  (is_Some (health !! p)
   <-> p ∈ ["aiml"; "gemini"; "huggingface"; "freehf"; "openai"; "local"])
  /\ (forall h,
        health !! p = Some h ->
        (0 <= successRate h <= 1)%Q
        /\ (isHealthy h = true <-> (consecutiveFailures h < 3)%nat)
        /\ exists h0, initialHealth t0 !! p = Some h0
                      /\ name h = name h0 /\ priority h = priority h0).
Proof.
  intros health. split.
  - unfold health. rewrite run_keys. simpl. unfold initialHealth.
    rewrite !elem_of_cons, elem_of_nil.
    repeat (rewrite lookup_insert; case_decide; [split; [auto 10|by eexists]|]).
    rewrite lookup_empty. split; [by intros [? ?]|]. intros Hp.
    repeat (destruct Hp as [Hp|Hp]; [congruence|]). done.
  - intros h Hh.
    destruct (run_healthOk t0 es (initialState t0) (initial_healthOk t0) p h Hh)
      as ([Hrate Hflag] & Hseed).
    done.
Qed.

(** ** Who is reported about, further *)

Lemma step_names (st : State) (e : Event) :
  inflightFrom racers st ->
  Forall (fun r => rp_name r ∈ racers) (stepReports st e)
  /\ inflightFrom racers (step st e).
Proof.
  intros Hin. apply (step_named (fun q => q ∈ racers) st e Hin).
  intros inp q Hq. by apply launched_healthy in Hq as [? _].
Qed.

Lemma run_non_racer (p : string) (es : list Event) (st : State) :
  p ∉ racers -> inflightFrom racers st ->
  providerHealth (Route.run st es) !! p = providerHealth st !! p.
Proof.
  intros Hp. revert st. induction es as [|e es IH]; intros st Hin; simpl; [done|].
  destruct (step_names st e Hin) as [Hr Hin'].
  rewrite IH by done. rewrite step_health. apply applyReports_other.
  eapply Forall_impl; [exact Hr|]. simpl. intros r Hrn Heq. by rewrite Heq in Hrn.
Qed.

(** X13: only the five racing providers are ever reported about.  The
    entry of any other name, and so the entry [local] of the local
    generator, is in every state the process can reach what it was at
    the start: falling back to the local generator is not recorded in
    the tracker. *)
Theorem X13_only_racers_updated (t0 : Z) (es : list Event) (p : string)
        (Hother : p ∉ racers) :
  providerHealth (Route.run (initialState t0) es) !! p = initialHealth t0 !! p.
Proof.
  apply (run_non_racer p es (initialState t0) Hother).
  split; constructor.
Qed.

(** ** The retry loop, further *)

Lemma retry_at (p diff : string) (r : TaskRun) :
  task_at (executeWithRetry p diff r) = tr_settledAt r.
Proof.
  unfold executeWithRetry, MAX_RETRIES. simpl.
  repeat (case_match; simpl; try done).
Qed.

(** X14: what [executeWithRetry] makes of two attempts.  The task is
    fulfilled with the text of the first attempt when that returns, with
    the text of the second when the first throws and the second
    returns, and is rejected exactly when both throw.  It reports to
    the health tracker once, under its own name and with the reading
    of the clock at which it settles: a success when it is fulfilled,
    a failure when it is rejected; a first attempt that throws before
    a second that returns is not reported. *)
Theorem X14_retry_semantics (p diff : string) (r : TaskRun) :
  let first := adapter p diff (tr_replies r 1) in
  let second := adapter p diff (tr_replies r 2) in
  let task := executeWithRetry p diff r in
  (forall text,
      task_result task = Some text
      <-> first = Returned text \/ (first = Thrown /\ second = Returned text))
  /\ (task_result task = None <-> first = Thrown /\ second = Thrown)
  /\ exists report,
       task_reports task = [report]
       /\ rp_name report = p
       /\ rp_success report = bool_decide (is_Some (task_result task))
       /\ rp_at report = tr_settledAt r.
Proof.
  intros first second task. unfold task, first, second.
  unfold executeWithRetry, MAX_RETRIES. simpl.
  destruct (adapter p diff (tr_replies r 1)) as [t1|]; simpl.
  { split_and!.
    - intros text. split; [intros [= ->]; by left|].
      intros [[= ->]|[? _]]; done.
    - split; [done|by intros [? _]].
    - eexists. split_and!; try done. }
  destruct (adapter p diff (tr_replies r 2)) as [t2|]; simpl.
  { split_and!.
    - intros text. split; [intros [= ->]; by right|].
      intros [?|[_ [= ->]]]; done.
    - split; [done|by intros [_ ?]].
    - eexists. split_and!; try done. }
  split_and!.
  - intros text. split; [done|]. intros [?|[_ ?]]; done.
  - done.
  - eexists. split_and!; try done.
Qed.

(** ** The race, further *)

Lemma insertByTime_ordered (t : Task) (ts : list Task) :
  settleOrdered ts -> settleOrdered (insertByTime t ts).
Proof.
  induction ts as [|u ts IH]; simpl; [by intros _|].
  intros [Hu Hts]. destruct (task_at t <? task_at u)%Z eqn:E.
  - apply Z.ltb_lt in E. simpl. split_and!; [|done|done].
    constructor; [lia|]. eapply Forall_impl; [exact Hu|]. simpl. lia.
  - apply Z.ltb_ge in E. simpl. split; [|by apply IH].
    rewrite insertByTime_perm. by constructor.
Qed.

Lemma bySettlement_ordered (ts : list Task) : settleOrdered (bySettlement ts).
Proof.
  induction ts as [|t ts IH]; simpl; [done|].
  by apply insertByTime_ordered.
Qed.

Lemma ordered_after (pre : list Task) (t : Task) (post : list Task) :
  settleOrdered (pre ++ t :: post) ->
  Forall (fun u => (task_at t <= task_at u)%Z) post.
Proof.
  induction pre as [|u pre IH]; simpl; [by intros [? _]|].
  intros [_ H]. by apply IH.
Qed.

Lemma ordered_before (pre : list Task) (t : Task) (post : list Task) :
  settleOrdered (pre ++ t :: post) ->
  Forall (fun u => (task_at u <= task_at t)%Z) pre.
Proof.
  induction pre as [|u pre IH]; simpl; [by constructor|].
  intros [Hu H]. constructor; [|by apply IH].
  rewrite Forall_forall in Hu. apply Hu. apply elem_of_app. right. left.
Qed.

Lemma winner_not_local (env : Env) (health : gmap string ProviderHealth)
      (cooldown : gmap string Z) (nowTs : Z) (p : string) :
  p ∈ (launchAll (launchConditions env health cooldown nowTs)).1 ->
  p <> "local".
Proof.
  intros Hin ->.
  pose proof (launched_sublist env health cooldown nowTs) as Hsub.
  apply (elem_of_sublist _ _ _ Hin) in Hsub.
  by apply local_not_racer in Hsub.
Qed.

Lemma reports_of_member (ts : list Task) (u : Task) (r : Report) :
  u ∈ ts -> r ∈ task_reports u -> r ∈ concat (map task_reports ts).
Proof.
  induction ts as [|t ts IH]; simpl; [by intros ?%elem_of_nil|].
  intros Hu Hr. apply elem_of_app.
  apply elem_of_cons in Hu as [->|Hu]; [by left|right; by apply IH].
Qed.

(** X15: the first task to be fulfilled wins.  When the race has a
    winner, no launched task that is fulfilled settles before the
    winner; every launched task that settles before the winner is
    rejected and its failure is among the reports of the race; the
    tasks left in flight are launched tasks that settle no earlier than
    the winner. *)
Theorem X15_earliest_fulfilled_wins
        (env : Env) (health : gmap string ProviderHealth)
        (cooldown : gmap string Z) (nowTs : Z) (runs : string -> TaskRun)
        (nowWin : Z) (diff : string) (a : DiffAnalysis) (o : Outcome)
        (Hrace : executeIntelligentAIStrategy env health cooldown nowTs runs
                   nowWin diff a = inl o)
        (Hwin : out_provider o <> "local") :
  let launched := (launchAll (launchConditions env health cooldown nowTs)).1 in
  let settles := fun q => tr_settledAt (runs q) in
  let taskOf := fun q => executeWithRetry q diff (runs q) in
  out_provider o ∈ launched
  /\ task_result (taskOf (out_provider o)) = Some (out_result o)
  /\ (forall q, q ∈ launched -> is_Some (task_result (taskOf q)) ->
                (settles (out_provider o) <= settles q)%Z)
  /\ (forall q, q ∈ launched -> (settles q < settles (out_provider o))%Z ->
                task_result (taskOf q) = None
                /\ mkReport q false None (settles q) ∈ out_reports o)
  /\ Forall (fun t => task_provider t ∈ launched
                      /\ t = taskOf (task_provider t)
                      /\ (settles (out_provider o) <= task_at t)%Z)
            (out_late o).
Proof.
  intros launched settles taskOf.
  destruct (race_shape _ _ _ _ _ _ _ _ _ Hrace)
    as [(pre & t & Hsplit & Hpre & Ht & Hp & Hreports)|(_ & Hl & _)]; [|done].
  fold launched in Hsplit. set (tasks := map _ launched) in Hsplit.
  pose proof (bySettlement_ordered tasks) as Hord. rewrite Hsplit in Hord.
  pose proof (ordered_after _ _ _ Hord) as Hafter.
  assert (Hmem : forall u, u ∈ pre ++ t :: out_late o <-> u ∈ tasks)
    by (intros u; by rewrite <- Hsplit, bySettlement_perm).
  assert (Htin : t ∈ tasks) by (apply Hmem, elem_of_app; right; left).
  destruct (task_of_launched _ _ _ _ Htin) as [Hlt Et]. rewrite Hp in Hlt, Et.
  assert (Hat : task_at t = settles (out_provider o))
    by (rewrite Et; apply retry_at).
  assert (Hcase : forall q, q ∈ launched ->
            taskOf q ∈ pre \/ q = out_provider o
            \/ (settles (out_provider o) <= settles q)%Z).
  { intros q Hq.
    assert (Hqin : taskOf q ∈ tasks) by (apply list_elem_of_fmap; eauto).
    apply Hmem in Hqin. apply elem_of_app in Hqin as [Hin|Hin]; [by left|].
    apply elem_of_cons in Hin as [Heq|Hin].
    - right. left. rewrite <- Hp, <- Heq. unfold taskOf.
      by rewrite retry_provider.
    - right. right. rewrite Forall_forall in Hafter.
      specialize (Hafter _ Hin). rewrite Hat in Hafter.
      unfold taskOf in Hafter. by rewrite retry_at in Hafter. }
  split_and!.
  - done.
  - unfold taskOf. by rewrite <- Et.
  - intros q Hq [x Hx]. destruct (Hcase q Hq) as [Hin|[->|Hle]]; [|lia|done].
    rewrite Forall_forall in Hpre. specialize (Hpre _ Hin). congruence.
  - intros q Hq Hlt'. destruct (Hcase q Hq) as [Hin|[->|Hle]]; [|lia|lia].
    rewrite Forall_forall in Hpre. pose proof (Hpre _ Hin) as Hnone.
    split; [done|]. rewrite Hreports. apply elem_of_app. left.
    apply (reports_of_member _ _ _ Hin).
    pose proof (retry_reports q diff (runs q)) as Hr.
    unfold taskOf in Hnone |- *. rewrite Hnone in Hr. rewrite Hr. left.
  - apply Forall_forall. intros u Hu.
    assert (Huin : u ∈ tasks)
      by (apply Hmem, elem_of_app; right; right; done).
    destruct (task_of_launched _ _ _ _ Huin) as [Hul Eu].
    split_and!; [done|done|].
    rewrite Forall_forall in Hafter. rewrite <- Hat. by apply Hafter.
Qed.

Lemma rejected_reports (diff : string) (runs : string -> TaskRun)
      (launched : list string) :
  Forall (fun q => task_result (executeWithRetry q diff (runs q)) = None)
         launched ->
  concat (map task_reports
            (map (fun p => executeWithRetry p diff (runs p)) launched))
  = map (fun q => mkReport q false None (tr_settledAt (runs q))) launched.
Proof.
  induction 1 as [|q l Hq _ IH]; simpl; [done|].
  pose proof (retry_reports q diff (runs q)) as Hr. rewrite Hq in Hr.
  by rewrite Hr, IH.
Qed.

Lemma concat_reports_perm (l1 l2 : list Task) :
  l1 ≡ₚ l2 ->
  concat (map task_reports l1) ≡ₚ concat (map task_reports l2).
Proof.
  induction 1 as [|x l l' _ IH|x y l|l l' l'' _ IH1 _ IH2]; simpl.
  - done.
  - by rewrite IH.
  - rewrite !app_assoc. f_equiv. apply Permutation_app_comm.
  - by rewrite IH1.
Qed.

(** X16: the fallback.  A race that does not throw ends with the local
    generator exactly when every launched task is rejected (so also
    when none is launched).  Then the message is the text of the local
    generator, no task is left in flight, and the reports of the race
    are one failure for each launched provider. *)
Theorem X16_fallback_when_all_rejected
        (env : Env) (health : gmap string ProviderHealth)
        (cooldown : gmap string Z) (nowTs : Z) (runs : string -> TaskRun)
        (nowWin : Z) (diff : string) (a : DiffAnalysis) (o : Outcome)
        (Hrace : executeIntelligentAIStrategy env health cooldown nowTs runs
                   nowWin diff a = inl o) :
  let launched := (launchAll (launchConditions env health cooldown nowTs)).1 in
  let rejected :=
    Forall (fun q => task_result (executeWithRetry q diff (runs q)) = None)
           launched in
  (out_provider o = "local" <-> rejected)
  /\ (rejected ->
      out_result o = LocalGenerator.generateLocalPatternBasedCommit diff a
      /\ out_late o = []
      /\ out_reports o
         ≡ₚ map (fun q => mkReport q false None (tr_settledAt (runs q)))
                launched).
Proof.
  intros launched rejected.
  destruct (race_shape _ _ _ _ _ _ _ _ _ Hrace)
    as [(pre & t & Hsplit & Hpre & Ht & Hp & Hreports)
       |(Hall & Hl & Hres & Hreports & Hlate)].
  - fold launched in Hsplit.
    assert (Htin : t ∈ map (fun p => executeWithRetry p diff (runs p)) launched).
    { rewrite <- (bySettlement_perm _), Hsplit. apply elem_of_app. right. left. }
    destruct (task_of_launched _ _ _ _ Htin) as [Hlt Et].
    assert (Hnot : ~ rejected).
    { unfold rejected. rewrite Forall_forall. intros Hrej.
      specialize (Hrej _ Hlt). rewrite <- Et in Hrej. congruence. }
    split; [|done]. split; [|done].
    intros Hl. rewrite <- Hp in Hl. rewrite Hl in Hlt.
    by apply winner_not_local in Hlt.
  - fold launched in Hall, Hreports.
    assert (Hrej : rejected) by (by apply Forall_fmap in Hall).
    split; [done|]. intros _. split_and!; [done|done|].
    rewrite Hreports, (concat_reports_perm _ _ (bySettlement_perm _)).
    by rewrite rejected_reports.
Qed.

(** ** The launch conditions, further *)

Lemma launchAll_complete (conds : list (string * option bool)) (p : string) :
  Forall (fun g => is_Some g.2) conds ->
  (p, Some true) ∈ conds -> p ∈ (launchAll conds).1.
Proof.
  induction 1 as [|[q g] conds [b Hb] _ IH]; simpl in *;
    [by intros ?%elem_of_nil|].
  subst g. intros Hin. apply elem_of_cons in Hin as [Heq|Hin].
  - injection Heq as <- <-. destruct (launchAll conds). simpl. left.
  - destruct b; [|by apply IH].
    destruct (launchAll conds) as [l t] eqn:E. simpl in *. right. by apply IH.
Qed.

Lemma condition_Some_true (key : bool) (h : option ProviderHealth)
      (cooled : bool) :
  key = true -> isHealthy <$> h = Some true -> cooled = true ->
  condition key h cooled = Some true.
Proof.
  intros -> Hh ->. destruct h as [h|]; [|done]. simpl in *.
  injection Hh as ->. done.
Qed.

Lemma launched_iff (env : Env) (health : gmap string ProviderHealth)
      (cooldown : gmap string Z) (nowTs : Z) (p : string) :
  healthComplete health ->
  p ∈ (launchAll (launchConditions env health cooldown nowTs)).1
  <-> p ∈ racers
      /\ credentialOf env p = true
      /\ isHealthy <$> health !! p = Some true
      /\ (p = "openai" -> notCooled cooldown "openai" nowTs = true).
Proof.
  intros Hc. split.
  - intros Hin. apply launchAll_elem in Hin. unfold launchConditions in Hin.
    unfold racers.
    repeat (apply elem_of_cons in Hin as [Hin|Hin];
            [pose proof (f_equal fst Hin) as Hp;
             pose proof (f_equal snd Hin) as Hg;
             cbn [fst snd] in Hp, Hg; subst p; symmetry in Hg;
             apply condition_true in Hg as (Hk & Hh & Hcool);
             split_and!; [rewrite !elem_of_cons; auto 10|done|done|done]|]).
    by apply elem_of_nil in Hin.
  - intros (Hp & Hk & Hh & Hcool).
    apply launchAll_complete.
    { unfold healthComplete, racers in Hc.
      repeat (apply Forall_cons in Hc as [? Hc]).
      unfold launchConditions.
      repeat (apply List.Forall_cons; [by apply condition_is_Some|]).
      apply List.Forall_nil. }
    unfold racers in Hp. unfold launchConditions.
    rewrite !elem_of_cons in Hp. rewrite !elem_of_cons.
    destruct Hp as [->|[->|[->|[->|[->|Hp]]]]];
      [| | | | |by apply elem_of_nil in Hp].
    + left. f_equal. symmetry. by apply condition_Some_true.
    + right; left. f_equal. symmetry. by apply condition_Some_true.
    + do 2 right; left. f_equal. symmetry. by apply condition_Some_true.
    + do 3 right; left. f_equal. symmetry. by apply condition_Some_true.
    + do 4 right; left. f_equal. symmetry. apply condition_Some_true; auto.
Qed.

(** X17: who takes part in a race.  In every state the process can
    reach, the race the coordinator runs for a request involves a
    provider (it reports before the race is decided, or its task is
    left in flight) exactly when it is one of the five racers, its
    credential is set (the free Hugging Face endpoint needs none) and
    its health flag is up; these are the providers the launch
    conditions let through, in the order aiml, gemini, huggingface,
    freehf, openai, and a request that is suspended at its race waits
    for the tasks of exactly these.  The cool-down of OpenAI plays no
    part, because no cool-down is ever written. *)
Theorem X17_launch_conditions (t0 : Z) (es : list Event) (inp : Inputs)
        (p : string) :
  let st := Route.run (initialState t0) es in
  let allowed :=
    p ∈ racers
    /\ credentialOf (in_env inp) p = true
    /\ healthyIn st p = Some true in
  providerCooldownUntil st = ∅
  /\ (forall diff, p ∈ racedProviders (raceOf st diff inp) <-> allowed)
  /\ (forall body pd,
        awaited st body inp = Some pd ->
        (p ∈ map task_provider (pd_tasks pd) <-> allowed))
  /\ (p ∈ launchedBy st inp <-> allowed)
  /\ sublist (launchedBy st inp) racers.
Proof.
  intros st allowed.
  assert (Hcool : providerCooldownUntil st = ∅)
    by (unfold st; by rewrite cooldown_never_set).
  assert (Hlaunched : p ∈ launchedBy st inp <-> allowed).
  { unfold launchedBy, allowed, healthyIn.
    rewrite launched_iff
      by (apply healthComplete_run, healthComplete_initial).
    rewrite Hcool. unfold notCooled. rewrite lookup_empty. tauto. }
  split_and!; [done| | |done|apply launched_sublist].
  - intros diff. rewrite <- Hlaunched. unfold raceOf.
    apply raced_iff_launched.
  - intros body pd Hpd. rewrite <- Hlaunched.
    apply awaited_Some in Hpd as (c & d & _ & _ & -> & _ & _).
    cbn [pd_tasks]. rewrite bySettlement_perm.
    by rewrite launched_providers.
Qed.

(** ** The answers of the route, further *)

(** X18: which requests end in an error.  In every state the process
    can reach, a request is answered with status 400 exactly when its
    diff is absent, the empty text, or [null], [false] or [0]; it is
    answered with status 500 exactly when its body is not JSON or is
    the JSON text [null], or its diff is a truthy value that is no
    string, unless the hash loop runs no turn on that value and the
    cache holds a fresh entry under the key of the hash 0, which is
    then served.  A request whose diff is a text that is not empty is
    always answered with a message, so the error branch of the race is
    never taken.  A request that ends in an error leaves the state as
    it was. *)
Theorem X18_errors_only_for_bad_requests (t0 : Z) (es : list Event)
        (body : ReqBody) (inp : Inputs) :
  let st := Route.run (initialState t0) es in
  let answer := POST st body inp in
  let noEntry :=
    freshEntry st (generateCacheKey EmptyString) (in_nowCheck inp) = None in
  (answer.1 = ErrorResponse 400 "Git diff is required"
   <-> body = Fields None \/ body = Fields (Some EmptyString)
       \/ body = OtherDiff Falsy)
  /\ (answer.1 = ErrorResponse 500 "Failed to generate commit message"
      <-> body = BadJson \/ body = NullJson \/ body = OtherDiff Counted
          \/ (body = OtherDiff Countless /\ noEntry))
  /\ (messageOf answer.1 = None
      <-> answer.1 = ErrorResponse 400 "Git diff is required"
          \/ answer.1 = ErrorResponse 500 "Failed to generate commit message")
  /\ (forall diff,
        body = Fields (Some diff) -> diff <> EmptyString ->
        exists m, messageOf answer.1 = Some m)
  /\ (messageOf answer.1 = None -> answer.2 = st).
Proof.
  intros st answer noEntry. unfold answer, noEntry.
  assert (Hc : healthComplete (providerHealth st))
    by apply healthComplete_run, healthComplete_initial.
  destruct body as [|[[|c d]|]| |[| |]]; simpl;
    try (split_and!; [intuition (discriminate || congruence)..|done]).
  - change (match freshEntry st (generateCacheKey (String c d)) (in_nowCheck inp)
            with Some cached => _ | None => _ end)
      with (POST st (Fields (Some (String c d))) inp).
    destruct (POST_answers st (String c d) inp Hc) as [m Hm]; [done|].
    assert (Herr : forall status err,
               (POST st (Fields (Some (String c d))) inp).1
               <> ErrorResponse status err).
    { intros status err Heq. by rewrite Heq in Hm. }
    split_and!.
    + split; [by intros ?%Herr|intuition discriminate].
    + split; [by intros ?%Herr|intuition discriminate].
    + rewrite Hm. split; [done|]. intros [?%Herr|?%Herr]; done.
    + eauto.
    + by rewrite Hm.
  - destruct (freshEntry st (generateCacheKey EmptyString) (in_nowCheck inp));
      simpl;
      (split_and!; [intuition (discriminate || congruence)..|done]).
Qed.

(** X19: the clean-up of the cache.  It only deletes: what it leaves
    is part of the cache it was given, with the entries unchanged.
    Two clean-ups in a row leave what one clean-up at the later of the
    two readings leaves; so a clean-up at the same or an earlier
    reading changes nothing any more. *)
Theorem X19_cleanup_composes (n1 n2 : Z) (cache : gmap string CacheEntry) :
  cleanupCache n1 cache ⊆ cache
  /\ cleanupCache n2 (cleanupCache n1 cache)
     = cleanupCache (Z.max n1 n2) cache
  /\ ((n2 <= n1)%Z ->
      cleanupCache n2 (cleanupCache n1 cache) = cleanupCache n1 cache).
Proof.
  assert (Hcomp : forall a b, cleanupCache b (cleanupCache a cache)
                              = cleanupCache (Z.max a b) cache).
  { intros a b. apply map_eq. intros k. apply option_eq. intros e.
    rewrite !cleanup_lookup. intuition lia. }
  split_and!.
  - unfold cleanupCache. apply map_filter_subseteq.
  - apply Hcomp.
  - intros Hle. rewrite Hcomp. by rewrite Z.max_l.
Qed.

(** ** The text an adapter returns *)

Lemma startsClean_fixed (s : string) :
  startsClean s = true -> Js.trimStart s = s.
Proof.
  destruct s as [|c s]; simpl; [done|]. by intros ->%negb_true_iff.
Qed.

Lemma trimStart_clean (s : string) : startsClean (Js.trimStart s) = true.
Proof.
  induction s as [|c s IH]; simpl; [done|].
  destruct (Js.is_space c) eqn:E; [done|]. simpl. by rewrite E.
Qed.

Lemma trimEnd_clean (s : string) :
  startsClean s = true -> startsClean (Js.trimEnd s) = true.
Proof.
  destruct s as [|c s]; simpl; [done|]. intros Hc.
  destruct (Js.trimEnd s); [|exact Hc].
  apply negb_true_iff in Hc. rewrite Hc. simpl. by rewrite Hc.
Qed.

Lemma trimEnd_idem (s : string) : Js.trimEnd (Js.trimEnd s) = Js.trimEnd s.
Proof.
  induction s as [|c s IH]; simpl; [done|].
  destruct (Js.trimEnd s) as [|d t] eqn:E.
  - destruct (Js.is_space c) eqn:Es; simpl; [done|]. by rewrite Es.
  - remember (String d t) as u eqn:Hu. simpl. rewrite IH. by subst u.
Qed.

Lemma trim_clean (s : string) : startsClean (Js.trim s) = true.
Proof. apply trimEnd_clean, trimStart_clean. Qed.

Lemma trim_idem (s : string) : Js.trim (Js.trim s) = Js.trim s.
Proof.
  unfold Js.trim at 1. rewrite (startsClean_fixed _ (trim_clean s)).
  apply trimEnd_idem.
Qed.

Lemma trimmedOrEmpty_trimmed (b : Body) :
  Js.trim (trimmedOrEmpty b) = trimmedOrEmpty b.
Proof. destruct b; simpl; try done. apply trim_idem. Qed.

Lemma split_head (s : string) :
  exists x xs,
    Js.split Js.newline s = x :: xs
    /\ allOk notNewline x = true
    /\ (startsClean s = true -> startsClean x = true).
Proof.
  induction s as [|c s (x & xs & Hs & Hx & _)]; simpl.
  - by exists EmptyString, [].
  - destruct (Ascii.eqb c Js.newline) eqn:E.
    + exists EmptyString, (Js.split Js.newline s). by split_and!.
    + rewrite Hs. exists (String c x), xs. split_and!; [done| |done].
      simpl. unfold notNewline at 1. by rewrite E.
Qed.

Lemma adapter_text (p diff : string) (replies : list Reply) (text : string) :
  adapter p diff replies = Returned text ->
  (p <> "freehf" /\ Js.trim text = text)
  \/ (p = "freehf"
      /\ startsClean text = true
      /\ (10 < Js.len text)%nat
      /\ allOk notNewline text = true).
Proof.
  assert (Hhf : forall l, tryHuggingFaceModels l = Returned text ->
                          Js.trim text = text).
  { induction l as [|r l IH]; simpl; [done|].
    destruct r as [| |b]; try done.
    destruct (Js.truthy (trimmedOrEmpty b)); [|done].
    intros [= <-]. apply trimmedOrEmpty_trimmed. }
  assert (Hfr : forall l, tryFreeHuggingFace diff l = Returned text ->
                          startsClean text = true
                          /\ (10 < Js.len text)%nat
                          /\ allOk notNewline text = true).
  { induction l as [|r l IH]; simpl; [done|].
    destruct r as [| |b]; try done.
    destruct (Js.truthy (trimmedOrEmpty b)); [|done].
    set (u := Js.trim _).
    destruct (split_head u) as (x & xs & Hs & Hx & Hclean).
    rewrite Hs. simpl.
    destruct (10 <? Js.len x)%nat eqn:L; [|done].
    intros [= <-]. apply Nat.ltb_lt in L. split_and!; [|done|done].
    apply Hclean, trim_clean. }
  unfold adapter.
  destruct (String.eqb_spec p "aiml") as [->|_].
  { unfold tryAIML. destruct (default Threw (head replies)) as [| |b]; try done.
    destruct (Js.truthy (trimmedOrEmpty b)); [|done].
    intros [= <-]. left. split; [done|apply trimmedOrEmpty_trimmed]. }
  destruct (String.eqb_spec p "gemini") as [->|_].
  { unfold tryGemini. destruct (default Threw (head replies)) as [| |b]; try done.
    intros [= <-]. left. split; [done|apply trimmedOrEmpty_trimmed]. }
  destruct (String.eqb_spec p "huggingface") as [->|_].
  { intros H%Hhf. by left. }
  destruct (String.eqb_spec p "freehf") as [->|_].
  { intros H%Hfr. by right. }
  destruct (String.eqb_spec p "openai") as [->|_]; [|done].
  unfold tryOpenAI. destruct (default Threw (head replies)) as [| |b]; try done.
  destruct b; try done; intros [= <-]; left; (split; [done|]).
  - done.
  - apply trim_idem.
Qed.

(** X20: the text an adapter returns.  It never begins with white
    space.  The text of the free Hugging Face adapter is one line (no
    line feed) of more than 10 characters; the text of every other
    adapter is trimmed at both ends, and that of the AIML and of the
    Hugging Face adapter is not empty. *)
Theorem X20_adapter_text (p diff : string) (replies : list Reply)
        (text : string)
        (Hret : adapter p diff replies = Returned text) :
  Js.trimStart text = text
  /\ (p <> "freehf" -> Js.trimEnd text = text)
  /\ (p = "freehf" ->
      (10 < Js.len text)%nat /\ allOk notNewline text = true)
  /\ (p ∈ ["aiml"; "huggingface"; "freehf"] -> text <> EmptyString).
Proof.
  destruct (adapter_text p diff replies text Hret)
    as [[Hp Htrim]|(Hp & Hclean & Hlen & Hline)].
  - assert (Hs : Js.trimStart text = text).
    { apply startsClean_fixed. rewrite <- Htrim. apply trim_clean. }
    split_and!; [done| |done|].
    + intros _.
      assert (He : Js.trimEnd (Js.trim text) = Js.trim text)
        by apply trimEnd_idem.
      by rewrite Htrim in He.
    + intros Hin. by apply (checked_adapters_nonempty p diff replies).
  - split_and!; [by apply startsClean_fixed|done|done|].
    intros _ ->. simpl in Hlen. lia.
Qed.

(** ** The page and the route together *)

Lemma trim_nonempty (s : string) : Js.trim s <> EmptyString -> s <> EmptyString.
Proof. by intros H ->. Qed.

(** X21: a click on Generate.  With a blank input (empty or white
    space only) the page sends nothing and nothing changes.  With any
    other input the request carries a diff that is not empty, so the
    route never answers it with status 400; when the server is in a
    state it can reach and its answer arrives, the page shows the
    message of that answer, and it shows its own error text only when
    the request or the answer is lost.  In each case the loading flag
    is down afterwards and the input is as it was. *)
Theorem X21_page_generate (t0 : Z) (es : list Event) (ps : Page.PageState)
        (network : Page.Network) (inp : Inputs) :
  let server := Route.run (initialState t0) es in
  let after := Page.handleGenerate ps network server inp in
  let answer := POST server (Fields (Some (Page.diffInput ps))) inp in
  (Js.trim (Page.diffInput ps) = EmptyString -> after = (ps, server))
  /\ (Js.trim (Page.diffInput ps) <> EmptyString ->
      Page.isLoading after.1 = false
      /\ Page.diffInput after.1 = Page.diffInput ps
      /\ Page.copied after.1 = Page.copied ps
      /\ match network with
         | Page.Unreachable =>
             Page.commitMessage after.1 = Some Page.errorText
             /\ after.2 = server
         | Page.AnswerLost =>
             Page.commitMessage after.1 = Some Page.errorText
             /\ after.2 = answer.2
         | Page.Delivered =>
             (exists m, messageOf answer.1 = Some m
                        /\ Page.commitMessage after.1 = Some m)
             /\ after.2 = answer.2
         end).
Proof.
  intros server after answer. unfold after, answer, Page.handleGenerate.
  split.
  - by intros ->.
  - intros Hne. pose proof (trim_nonempty _ Hne) as Hd.
    assert (Hc : healthComplete (providerHealth server))
      by apply healthComplete_run, healthComplete_initial.
    destruct (POST_answers server (Page.diffInput ps) inp Hc Hd) as [m Hm].
    destruct (Js.trim (Page.diffInput ps)) as [|c t]; [done|].
    cbn [Js.truthy].
    destruct (POST server (Fields (Some (Page.diffInput ps))) inp)
      as [response server'].
    cbn [fst snd] in *.
    destruct network; cbn [fst snd]; [by split_and!|by split_and!|].
    destruct response as [status err|msg a|msg a p]; [done| |];
      cbn [Page.responseOk fst snd Page.isLoading Page.diffInput Page.copied
           Page.commitMessage];
      (split_and!; try done; by exists m).
Qed.

(** ** The earlier route *)

Lemma startsWith_sound (p s : string) :
  Js.startsWith p s = true <-> exists rest, s = p +:+ rest.
Proof.
  revert s. induction p as [|a p IH]; intros s; sapp.
  - split; [intros _; by exists s|done].
  - destruct s as [|b s]; simpl.
    + split; [done|]. by intros [rest ?].
    + rewrite andb_true_iff, IH. split.
      * intros [->%Ascii.eqb_eq [rest ->]]. by exists rest; sapp.
      * intros [rest Hr]. revert Hr. sapp. intros [= -> ->].
        split; [apply Ascii.eqb_refl|by exists rest].
Qed.

Lemma includes_sound (p s : string) :
  Js.includes p s = true <-> exists pre post, s = pre +:+ p +:+ post.
Proof.
  split.
  - induction s as [|c s IH]; simpl.
    + rewrite orb_false_r. intros [rest Hr]%startsWith_sound.
      by exists EmptyString, rest.
    + intros [[rest Hr]%startsWith_sound|H]%orb_prop.
      * by exists EmptyString, rest.
      * destruct (IH H) as (pre & post & ->). exists (String c pre), post.
        by sapp.
  - intros (pre & post & ->). apply includes_middle.
Qed.

Lemma includes_part (a p b s : string) :
  Js.includes (a +:+ p +:+ b) s = true -> Js.includes p s = true.
Proof.
  intros (pre & post & ->)%includes_sound. apply includes_sound.
  exists (pre +:+ a), (b +:+ post). by rewrite !append_assoc_s.
Qed.

Lemma includes_allOk (ok : ascii -> bool) (p s : string) :
  Js.includes p s = true -> allOk ok s = true -> allOk ok p = true.
Proof.
  intros (pre & post & ->)%includes_sound. rewrite !allOk_append.
  by intros [_ [? _]%andb_prop]%andb_prop.
Qed.

Lemma lower_no_capital (s : string) :
  allOk (fun c => negb (Js.is_upper_az c)) (Js.toLowerCase s) = true.
Proof.
  assert (H : forallb (fun x => negb (Js.is_upper_az (Js.lower x))) allChars
              = true) by (by vm_compute).
  rewrite forallb_forall in H.
  induction s as [|c s IH]; simpl; [done|].
  by rewrite (H c (allChars_complete c)), IH.
Qed.

Lemma capital_needle_dead (w diff : string) :
  allOk (fun c => negb (Js.is_upper_az c)) w = false ->
  Js.includes w (Js.toLowerCase diff) = false.
Proof.
  intros Hw. destruct (Js.includes w (Js.toLowerCase diff)) eqn:E; [|done].
  by rewrite (includes_allOk _ _ _ E (lower_no_capital diff)) in Hw.
Qed.

Lemma mock_name_facts (diff : string) :
  (Re.test false fileHeader diff = false ->
   MockRoute.extractFileName diff = "file")
  /\ MockRoute.extractFileName diff <> EmptyString
  /\ allOk notSpace (MockRoute.extractFileName diff) = true
  /\ allOk (fun c => negb (Ascii.eqb c "/")) (MockRoute.extractFileName diff)
     = true.
Proof.
  unfold MockRoute.extractFileName.
  destruct (Re.exec false fileHeader diff) as [m|] eqn:E.
  - split; [intros Ht%exec_None; congruence|].
    apply exec_Some in E as (Hm & _).
    apply header_shape in Hm as (name & -> & Hne & Hok).
    change 13%nat with (Js.len "diff --git a/"). rewrite drop_append_len.
    destruct (split_last "/" name) as (e & -> & Hslash & Hs).
    assert (He : allOk notSpace e = true).
    { destruct Hs as [->|[stem ->]]; [done|].
      rewrite allOk_append in Hok. apply andb_prop in Hok as [_ Hok].
      by simpl in Hok. }
    destruct e as [|c e]; simpl; [done|]. by split_and!.
  - split_and!; try done.
Qed.

Ltac shape_of_mock name :=
  unfold conventionalShape;
  repeat (rewrite split_append_pure by (done || exact name));
  simpl; do 4 eexists; split; [reflexivity|];
  repeat (apply startsWith_append_l); reflexivity.

Lemma mock_message_shape (diff : string) :
  exists prefix,
    prefix ∈ ["fix: "; "feat: "; "refactor: "; "style: "; "test: "; "docs: ";
              "chore: "]
    /\ conventionalShape prefix (MockRoute.generateMockCommitMessage diff).
Proof.
  destruct (mock_name_facts diff) as (_ & _ & Hname%notSpace_notNewline & _).
  unfold MockRoute.generateMockCommitMessage.
  repeat case_match.
  - exists "fix: ". split; [set_solver|].
    unfold MockRoute.fixMessage. shape_of_mock Hname.
  - exists "feat: ". split; [set_solver|].
    unfold MockRoute.featMessage. shape_of_mock Hname.
  - exists "refactor: ". split; [set_solver|].
    unfold MockRoute.refactorMessage. shape_of_mock Hname.
  - exists "style: ". split; [set_solver|].
    unfold MockRoute.styleMessage. shape_of_mock Hname.
  - exists "test: ". split; [set_solver|].
    unfold MockRoute.testMessage. shape_of_mock Hname.
  - exists "docs: ". split; [set_solver|].
    unfold MockRoute.docsMessage. shape_of_mock Hname.
  - exists "chore: ". split; [set_solver|].
    unfold MockRoute.configMessage. shape_of_mock Hname.
  - exists "chore: ". split; [set_solver|].
    unfold MockRoute.defaultMessage. shape_of_mock Hname.
  - exists "chore: ". split; [set_solver|].
    unfold MockRoute.defaultMessage. shape_of_mock Hname.
Qed.

(** X22: the messages of the earlier route.  Every message is five
    lines: a subject line that opens with one of [fix: ], [feat: ],
    [refactor: ], [style: ], [test: ], [docs: ] and [chore: ], an empty
    line and three lines that open with [- ]; a diff whose lower-case
    form lacks a plus or lacks a minus sign gets the default message
    [chore: update] with the file name.  A request with a diff that is
    not empty is answered with such a message. *)
Theorem X22_mock_message_shape (diff : string) :
  (exists prefix,
      prefix ∈ ["fix: "; "feat: "; "refactor: "; "style: "; "test: ";
                "docs: "; "chore: "]
      /\ conventionalShape prefix (MockRoute.generateMockCommitMessage diff))
  /\ (Js.includes "+" (Js.toLowerCase diff)
      && Js.includes "-" (Js.toLowerCase diff) = false ->
      MockRoute.generateMockCommitMessage diff
      = MockRoute.defaultMessage (MockRoute.extractFileName diff))
  /\ (diff <> EmptyString ->
      MockRoute.POST (Fields (Some diff))
      = MockRoute.MockMessage (MockRoute.generateMockCommitMessage diff)).
Proof.
  split_and!.
  - apply mock_message_shape.
  - unfold MockRoute.generateMockCommitMessage. by intros ->.
  - by destruct diff.
Qed.

Lemma includesAny_true (ws : list string) (lines : string) :
  MockRoute.includesAny ws lines = true
  <-> exists w, w ∈ ws /\ Js.includes w lines = true.
Proof.
  unfold MockRoute.includesAny. rewrite existsb_exists.
  split; intros (w & Hw & Hi); exists w; split; try done;
    by apply list_elem_of_In.
Qed.

Lemma fix_needles_live (diff : string) :
  MockRoute.includesAny MockRoute.fixNeedles (Js.toLowerCase diff)
  = MockRoute.includesAny
      [".trim()"; "null"; "undefined"; "error"; "exception"; "catch"; "try"]
      (Js.toLowerCase diff).
Proof.
  unfold MockRoute.includesAny, MockRoute.fixNeedles. cbn [existsb].
  by rewrite (capital_needle_dead ".toLowerCase()"),
             (capital_needle_dead ".toUpperCase()").
Qed.

Lemma style_needles_live (diff : string) :
  MockRoute.includesAny MockRoute.featNeedles (Js.toLowerCase diff) = false ->
  MockRoute.includesAny MockRoute.styleNeedles (Js.toLowerCase diff)
  = MockRoute.includesAny ["style"; "format"; "lint"; "css"]
                          (Js.toLowerCase diff).
Proof.
  intros Hfeat.
  assert (Hclass : Js.includes "class=" (Js.toLowerCase diff) = false).
  { destruct (Js.includes "class=" (Js.toLowerCase diff)) eqn:E; [|done].
    apply (includes_part EmptyString "class" "=") in E.
    assert (Hin : MockRoute.includesAny MockRoute.featNeedles
                    (Js.toLowerCase diff) = true).
    { apply includesAny_true. exists "class". split; [|done].
      unfold MockRoute.featNeedles. set_solver. }
    congruence. }
  unfold MockRoute.includesAny, MockRoute.styleNeedles. cbn [existsb].
  rewrite (capital_needle_dead "className") by done. rewrite Hclass.
  by rewrite !orb_false_r.
Qed.

(** X23: needles of the earlier route that never decide.  The text is
    searched in lower case, so the needles [.toLowerCase()],
    [.toUpperCase()] and [className] are never found, and [class=] is
    found only where [class] has already chosen the feature message.
    The fix message is given exactly when the lower-case diff has a
    plus and a minus sign and one of the seven other fix needles; the
    style message exactly when, in addition to the signs, no fix,
    feature or refactor needle is found and one of [style], [format],
    [lint], [css] is. *)
Theorem X23_mock_dead_needles (diff : string) :
  let lines := Js.toLowerCase diff in
  let signs := Js.includes "+" lines && Js.includes "-" lines in
  let message := MockRoute.generateMockCommitMessage diff in
  (Js.startsWith "fix: " message
   = signs
     && MockRoute.includesAny
          [".trim()"; "null"; "undefined"; "error"; "exception"; "catch";
           "try"] lines)
  /\ (Js.startsWith "style: " message
      = signs
        && negb (MockRoute.includesAny MockRoute.fixNeedles lines)
        && negb (MockRoute.includesAny MockRoute.featNeedles lines)
        && negb (MockRoute.includesAny MockRoute.refactorNeedles lines)
        && MockRoute.includesAny ["style"; "format"; "lint"; "css"] lines).
Proof.
  intros lines signs message. unfold message, signs, lines.
  rewrite <- fix_needles_live.
  unfold MockRoute.generateMockCommitMessage.
  destruct (Js.includes "+" (Js.toLowerCase diff)
            && Js.includes "-" (Js.toLowerCase diff)); [|by split].
  destruct (MockRoute.includesAny MockRoute.fixNeedles _); [by split|].
  destruct (MockRoute.includesAny MockRoute.featNeedles _) eqn:Hfeat;
    [by split|].
  rewrite <- (style_needles_live diff Hfeat).
  destruct (MockRoute.includesAny MockRoute.refactorNeedles _); [by split|].
  destruct (MockRoute.includesAny MockRoute.styleNeedles _); [by split|].
  repeat case_match; by split.
Qed.

(** X24: the file name of the earlier route.  It is [file] when the
    diff has no header [diff --git a/...]; it is never empty and holds
    neither white space nor a slash. *)
Theorem X24_mock_file_name (diff : string) :
  (Re.test false fileHeader diff = false ->
   MockRoute.extractFileName diff = "file")
  /\ MockRoute.extractFileName diff <> EmptyString
  /\ allOk notSpace (MockRoute.extractFileName diff) = true
  /\ allOk (fun c => negb (Ascii.eqb c "/")) (MockRoute.extractFileName diff)
     = true.
Proof. apply mock_name_facts. Qed.

(** ** The analyzer, further *)

Lemma lit_matches (w : string) : Matches false (lit w) w.
Proof.
  induction w as [|c w IH]; simpl; [constructor|].
  change (String c w) with (String c EmptyString +:+ w).
  constructor; [|done]. constructor. simpl. apply Ascii.eqb_refl.
Qed.

Lemma test_occurrence (ci : bool) (r : regex) (pre m post : string) :
  Matches ci r m -> Re.test ci r (pre +:+ m +:+ post) = true.
Proof.
  intros Hm. destruct (Re.test ci r (pre +:+ m +:+ post)) eqn:E; [done|].
  apply test_suffix in E. exfalso.
  eapply matchAt_None; [exact E|exact Hm|by exists post].
Qed.

Lemma test_lit_includes (w s : string) :
  Re.test false (lit w) s = Js.includes w s.
Proof.
  destruct (Js.includes w s) eqn:E.
  - apply includes_sound in E as (pre & post & ->).
    apply test_occurrence, lit_matches.
  - destruct (Re.test false (lit w) s) eqn:T; [|done].
    destruct (Re.exec false (lit w) s) as [x|] eqn:X;
      [|apply exec_None in X; congruence].
    apply exec_Some in X as (Hx & pre & post & ->).
    apply matches_lit in Hx as ->.
    by rewrite includes_middle in E.
Qed.

Lemma countFrom_pos (ci : bool) (r : regex) (s : string) :
  Re.test ci r s = true -> (0 < Re.countFrom ci r s 0)%nat.
Proof.
  induction s as [|c s IH]; simpl.
  - destruct (Re.matchAt ci r EmptyString); [lia|done].
  - destruct (Re.matchAt ci r (String c s)) as [[|n]|]; [lia|lia|done].
Qed.

Lemma countFrom_test (ci : bool) (r : regex) (s : string) (skip : nat) :
  (0 < Re.countFrom ci r s skip)%nat -> Re.test ci r s = true.
Proof.
  revert skip. induction s as [|c s IH]; intros skip; simpl.
  - destruct skip; [|lia]. destruct (Re.matchAt ci r EmptyString); [done|lia].
  - destruct skip as [|n].
    + destruct (Re.matchAt ci r (String c s)) as [[|n]|]; [done|done|apply IH].
    + intros H%IH. by destruct (Re.matchAt ci r (String c s)).
Qed.

Lemma header_has_marker (diff : string) :
  Re.test false fileHeader diff = true ->
  Js.includes "diff --git" diff = true.
Proof.
  intros Ht. destruct (Re.exec false fileHeader diff) as [m|] eqn:E;
    [|apply exec_None in E; congruence].
  apply exec_Some in E as (Hm & pre & post & ->).
  apply header_shape in Hm as (name & -> & _ & _).
  apply includes_sound. exists pre, (" a/" +:+ name +:+ post).
  by rewrite !append_assoc_s.
Qed.

Lemma signs_exclusive (lines : list string) :
  (countPrefixed "+" lines + countPrefixed "-" lines <= length lines)%nat.
Proof.
  unfold countPrefixed.
  induction lines as [|l lines IH]; cbn [List.filter length]; [lia|].
  destruct (Js.startsWith "+" l) eqn:Ep, (Js.startsWith "-" l) eqn:Em;
    cbn [length]; try lia.
  apply startsWith_sound in Ep as [r1 ->].
  apply startsWith_sound in Em as [r2 Hr]. revert Hr. by sapp.
Qed.

Lemma analyzeDiff_counts (diff : string) :
  let a := analyzeDiff diff in
  let lines := Js.split Js.newline diff in
  addedLines a = countPrefixed "+" lines
  /\ removedLines a = countPrefixed "-" lines
  /\ totalChanges a = (addedLines a + removedLines a)%nat
  /\ fileCount a = Re.countFrom false (lit "diff --git") diff 0
  /\ complexity a
     = if (1 <? fileCount a)%nat then high
       else if (50 <? totalChanges a)%nat then high
       else if (20 <? totalChanges a)%nat then medium else low.
Proof.
  unfold analyzeDiff. by destruct (classify _ _ _).
Qed.

(** X25: the counts of an analysis.  The total is the sum of the added
    and the removed lines and is at most the number of lines of the
    diff.  The file count is positive exactly when the diff contains
    [diff --git], so it is positive whenever a file name was read from
    a header.  The complexity is high exactly when more than one file
    or more than 50 changed lines are counted, and low exactly when at
    most one file and at most 20 changed lines are. *)
Theorem X25_analysis_counts (diff : string) :
  let a := analyzeDiff diff in
  totalChanges a = (addedLines a + removedLines a)%nat
  /\ (totalChanges a <= length (Js.split Js.newline diff))%nat
  /\ ((0 < fileCount a)%nat <-> Js.includes "diff --git" diff = true)
  /\ (Re.test false fileHeader diff = true -> (1 <= fileCount a)%nat)
  /\ (complexity a = high
      <-> (1 < fileCount a)%nat \/ (50 < totalChanges a)%nat)
  /\ (complexity a = low
      <-> (fileCount a <= 1)%nat /\ (totalChanges a <= 20)%nat).
Proof.
  intros a. destruct (analyzeDiff_counts diff) as (Ha & Hr & Ht & Hf & Hc).
  fold a in Ha, Hr, Ht, Hf, Hc.
  assert (Hmark : (0 < fileCount a)%nat <-> Js.includes "diff --git" diff = true).
  { rewrite Hf, <- test_lit_includes.
    split; [apply countFrom_test|apply countFrom_pos]. }
  split_and!.
  - done.
  - rewrite Ht, Ha, Hr. apply signs_exclusive.
  - done.
  - intros H%header_has_marker. apply Hmark in H. lia.
  - rewrite Hc.
    destruct (1 <? fileCount a)%nat eqn:E1;
      [apply Nat.ltb_lt in E1|apply Nat.ltb_ge in E1].
    { split; [by left|done]. }
    destruct (50 <? totalChanges a)%nat eqn:E2;
      [apply Nat.ltb_lt in E2|apply Nat.ltb_ge in E2].
    { split; [by right|done]. }
    destruct (20 <? totalChanges a)%nat; (split; [done|lia]).
  - rewrite Hc.
    destruct (1 <? fileCount a)%nat eqn:E1;
      [apply Nat.ltb_lt in E1|apply Nat.ltb_ge in E1].
    { split; [done|lia]. }
    destruct (50 <? totalChanges a)%nat eqn:E2;
      [apply Nat.ltb_lt in E2|apply Nat.ltb_ge in E2].
    { split; [done|lia]. }
    destruct (20 <? totalChanges a)%nat eqn:E3;
      [apply Nat.ltb_lt in E3|apply Nat.ltb_ge in E3].
    + split; [done|lia].
    + split; [lia|done].
Qed.

(** X26: the context of the local generator.  Its lists of added and
    removed lines are as long as the counts of the analysis of the
    same diff.  Of the three flags new file, deletion and modification
    at most one is up; none is up exactly when no line is removed and
    at most five are added. *)
Theorem X26_context_flags (diff : string) (analysis : DiffAnalysis) :
  let c := LocalGenerator.analyzeCommitContext diff analysis in
  let added := length (LocalGenerator.ctx_addedLines c) in
  let removed := length (LocalGenerator.ctx_removedLines c) in
  added = addedLines (analyzeDiff diff)
  /\ removed = removedLines (analyzeDiff diff)
  /\ LocalGenerator.ctx_isNewFile c && LocalGenerator.ctx_isDeletion c = false
  /\ LocalGenerator.ctx_isNewFile c && LocalGenerator.ctx_isModification c
     = false
  /\ LocalGenerator.ctx_isDeletion c && LocalGenerator.ctx_isModification c
     = false
  /\ (LocalGenerator.ctx_isNewFile c || LocalGenerator.ctx_isDeletion c
      || LocalGenerator.ctx_isModification c = false
      <-> removed = 0%nat /\ (added <= 5)%nat).
Proof.
  intros c added removed.
  destruct (analyzeDiff_counts diff) as (Ha & Hr & _).
  unfold added, removed, c, LocalGenerator.analyzeCommitContext.
  cbn [LocalGenerator.ctx_addedLines LocalGenerator.ctx_removedLines
       LocalGenerator.ctx_isNewFile LocalGenerator.ctx_isDeletion
       LocalGenerator.ctx_isModification].
  unfold LocalGenerator.prefixedLines. rewrite !length_map.
  set (x := length (List.filter (Js.startsWith "+") _)).
  set (y := length (List.filter (Js.startsWith "-") _)).
  split_and!.
  - by rewrite Ha.
  - by rewrite Hr.
  - destruct (Nat.eqb_spec y 0), (Nat.eqb_spec x 0), (Nat.ltb_spec 5 x),
      (Nat.ltb_spec 0 y); simpl; try done; lia.
  - destruct (Nat.eqb_spec y 0), (Nat.ltb_spec 0 x), (Nat.ltb_spec 5 x),
      (Nat.ltb_spec 0 y); simpl; try done; lia.
  - destruct (Nat.eqb_spec x 0), (Nat.ltb_spec 0 x),
      (Nat.ltb_spec 0 y); simpl; try done; lia.
  - destruct (Nat.eqb_spec y 0), (Nat.eqb_spec x 0), (Nat.ltb_spec 5 x),
      (Nat.ltb_spec 0 y), (Nat.ltb_spec 0 x); simpl; split; try done; lia.
Qed.

(** ** The properties with a premise, on concrete inputs *)

Lemma X1_redact_identity_without_match_witness :
  redactSecrets "+const a = 1" = "+const a = 1".
Proof.
  apply (X1_redact_identity_without_match "+const a = 1"); by vm_compute.
Defined.

Lemma X4_short_values_not_redacted_witness :
  redactSecrets "password=hunter2" = "password=hunter2".
Proof.
  apply (X4_short_values_not_redacted "password=hunter2").
  vm_compute. lia.
Defined.

Lemma X6_colliding_diff_served_from_cache_witness :
  let st := (POST (initialState 0) (Fields (Some "Aa")) firstInputs).2 in
  generateCacheKey "Aa" = generateCacheKey "BB"
  /\ POST st (Fields (Some "BB")) againInputs
     = (CachedResponse firstMessage (analyzeDiff (safeDiffOf "Aa")), st).
Proof.
  intros st.
  apply (X6_colliding_diff_served_from_cache st "Aa" "BB" againInputs
           (mkEntry firstMessage 1800 (analyzeDiff (safeDiffOf "Aa")))).
  - by vm_compute.
  - done.
  - by vm_compute.
Defined.

Lemma X10_fallback_message_shape_witness :
  let a := mkAnalysis "src/App.tsx" "tsx" 1 0 1 1 feature (8 # 10) low [feature] in
  conventionalShape "feat: "
    (LocalGenerator.generateLocalPatternBasedCommit "+const a = 1" a).
Proof.
  intros a. apply (X10_fallback_message_shape "+const a = 1" a).
  by vm_compute.
Defined.

Lemma X13_only_racers_updated_witness :
  providerHealth (Route.run (initialState 0) trippingTrace) !! "local"
  = initialHealth 0 !! "local".
Proof.
  apply (X13_only_racers_updated 0 trippingTrace "local"), local_not_racer.
Defined.

Lemma X15_earliest_fulfilled_wins_witness :
  (tr_settledAt (slowRuns "freehf") <= tr_settledAt (slowRuns "huggingface"))%Z.
Proof.
  assert (Hrace : executeIntelligentAIStrategy tokenOnly (initialHealth 0) ∅ 1000
                    slowRuns 1900 slowDiff (analyzeDiff slowDiff)
                  = inl slowOutcome) by (by vm_compute).
  assert (Hwon : out_provider slowOutcome <> "local") by done.
  destruct (X15_earliest_fulfilled_wins _ _ _ _ _ _ _ _ _ Hrace Hwon)
    as (_ & _ & Hfirst & _).
  apply (Hfirst "huggingface").
  - vm_compute. left.
  - vm_compute. by eexists.
Defined.

Lemma X16_fallback_when_all_rejected_witness :
  match executeIntelligentAIStrategy openaiOnly (initialHealth 0) ∅ 1000
          limitedRuns 3100 "+const a = 1" (analyzeDiff "+const a = 1") with
  | inl o => out_provider o = "local" /\ out_late o = []
  | inr _ => False
  end.
Proof.
  destruct (executeIntelligentAIStrategy openaiOnly (initialHealth 0) ∅ 1000
              limitedRuns 3100 "+const a = 1" (analyzeDiff "+const a = 1"))
    as [o|late] eqn:E; [|by vm_compute in E].
  destruct (X16_fallback_when_all_rejected _ _ _ _ _ _ _ _ _ E)
    as [Hiff Hthen].
  assert (Hrej : Forall (fun q => task_result
                           (executeWithRetry q "+const a = 1" (limitedRuns q))
                         = None)
                   (launchAll (launchConditions openaiOnly (initialHealth 0)
                                 ∅ 1000)).1)
    by (vm_compute; repeat constructor).
  split; [by apply Hiff|]. by destruct (Hthen Hrej) as (_ & Hlate & _).
Defined.

Lemma X20_adapter_text_witness :
  Js.trimStart "feat: add input validation" = "feat: add input validation"
  /\ (10 < Js.len "feat: add input validation")%nat.
Proof.
  assert (Hret : adapter "freehf" "+const a = 1"
                   [Ok (Text "  feat: add input validation  ")]
                 = Returned "feat: add input validation") by (by vm_compute).
  destruct (X20_adapter_text _ _ _ _ Hret) as (Hstart & _ & Hfree & _).
  split; [exact Hstart|]. by destruct (Hfree eq_refl).
Defined.
